(** * progressive-compute: scheduler, cache manager and error recovery

    A shallow embedding of the TypeScript sources

      - hooks/useProgressiveComputeCache/errorRecoveryStrategy.ts
      - hooks/useProgressiveComputeCache/cacheManager.ts
      - hooks/useProgressiveComputeCache/useProgressiveCompute.ts
      - hooks/useProgressiveComputeCache/interruptHandler.ts
      - constants/cache.ts

    the properties of the specification that are stated about them, and
    further properties of the code: its behaviour on failures and at the
    edges, the invariants it keeps and how its operations compose.

    Conventions.  JavaScript numbers that hold counts, indices, time stamps
    and sizes are integers of [Z]; the three places where the sources divide
    (progress, batch index, sampling) are computed in exact rationals [Q]
    with [Math.floor], [Math.ceil] and [Math.round] on top.  Strings are
    [string]; [Map] objects are [gmap]; arrays are lists.  Asynchronous
    methods are functions in a state-and-exception monad over the state of
    one cache manager and its object store. *)

From Stdlib Require Import ZArith QArith Qround Qminmax String Ascii List Lia.
From Stdlib Require Import Permutation Sorted.
From stdpp Require Import gmap strings list pretty.

Local Open Scope string_scope.
Local Open Scope Z_scope.

(** ** JavaScript primitives used by the sources *)

Module JS.

(** [Math.floor], [Math.ceil], [Math.round] (ties go towards +infinity). *)
Definition Math_floor (q : Q) : Z := Qfloor q.
Definition Math_ceil (q : Q) : Z := Qceiling q.
Definition Math_round (q : Q) : Z := Qfloor (q + (1 # 2)).

(** [ToInt32]: the value modulo 2^32, read as a signed 32-bit integer. *)
Definition ToInt32 (z : Z) : Z :=
  let m := z mod 2 ^ 32 in
  if m <? 2 ^ 31 then m else m - 2 ^ 32.

(** [a << 5] and [a & b] on numbers: both operands go through [ToInt32]. *)
Definition shl5 (a : Z) : Z := ToInt32 (Z.shiftl (ToInt32 a) 5).
Definition band (a b : Z) : Z := ToInt32 (Z.land (ToInt32 a) (ToInt32 b)).

(** [s.charCodeAt(i)] for every position, in order. *)
Fixpoint charCodes (s : string) : list Z :=
  match s with
  | EmptyString => []
  | String c s' => Z.of_nat (nat_of_ascii c) :: charCodes s'
  end.

Definition lower_ascii (c : ascii) : ascii :=
  let n := nat_of_ascii c in
  if (65 <=? n)%nat && (n <=? 90)%nat then ascii_of_nat (n + 32) else c.

Fixpoint toLowerCase (s : string) : string :=
  match s with
  | EmptyString => EmptyString
  | String c s' => String (lower_ascii c) (toLowerCase s')
  end.

(** [hay.includes(needle)]. *)
Fixpoint includes (hay needle : string) : bool :=
  String.prefix needle hay ||
  match hay with
  | EmptyString => false
  | String _ hay' => includes hay' needle
  end.

Definition startsWith (s p : string) : bool := String.prefix p s.

(** [s.substring(a, b)] for [0 <= a <= b]. *)
Definition substring (a b : nat) (s : string) : string :=
  String.substring a (b - a) s.

(** Digits of [toString(36)]. *)
Definition digit36 (d : Z) : ascii :=
  if d <? 10 then ascii_of_nat (Z.to_nat (48 + d))
  else ascii_of_nat (Z.to_nat (97 + (d - 10))).

Fixpoint toString36_aux (fuel : nat) (z : Z) (acc : string) : string :=
  match fuel with
  | O => acc
  | S fuel' =>
      let acc' := String (digit36 (z mod 36)) acc in
      if z / 36 =? 0 then acc' else toString36_aux fuel' (z / 36) acc'
  end.

(** [n.toString(36)] for a non-negative integer [n]. *)
Definition toString36 (z : Z) : string :=
  toString36_aux (S (Z.to_nat (Z.log2 z))) z EmptyString.

(** [String(n)] for an integer. *)
Definition toString10 (z : Z) : string := pretty z.

(** [xs.join(sep)]. *)
Fixpoint join (sep : string) (xs : list string) : string :=
  match xs with
  | [] => ""
  | [x] => x
  | x :: rest => x ++ sep ++ join sep rest
  end.

(** [JSON.stringify] of an array whose elements serialise with [json]. *)
Definition stringify_array {A} (json : A -> string) (xs : list A) : string :=
  "[" ++ join "," (map json xs) ++ "]".

(** [xs.slice(a, b)] for non-negative bounds. *)
Definition slice {A} (a b : Z) (xs : list A) : list A :=
  take (Z.to_nat (b - a)) (drop (Z.to_nat a) xs).

(** [[...xs].sort((a, b) => key a - key b)]: the sort of an array is
    stable, so each element, taken from the last to the first, goes in
    front of the sorted elements whose key is not smaller. *)
Section Sort.
Context {A : Type} (key : A -> Z).

Fixpoint insert_by (x : A) (l : list A) : list A :=
  match l with
  | [] => [x]
  | y :: l' => if key x <=? key y then x :: y :: l' else y :: insert_by x l'
  end.

Fixpoint sort_by (l : list A) : list A :=
  match l with
  | [] => []
  | x :: l' => insert_by x (sort_by l')
  end.
End Sort.

End JS.

(** ** constants/cache.ts *)

Module Constants.
Definition DEFAULT_maxAge : Z := 24 * 60 * 60 * 1000.
Definition DEFAULT_maxSize : Z := 100.
Definition CACHE_VERSION : string := "1.0.0".
Definition MAX_RETRIES : Z := 3.
Definition RETRY_DELAY : Z := 1000.
Definition BACKOFF_MULTIPLIER : Z := 2.
End Constants.

(** ** types/cache.ts: error kinds and recovery actions *)

Inductive CacheErrorType :=
| INITIALIZATION_FAILED
| STORAGE_QUOTA_EXCEEDED
| DATA_CORRUPTION
| SERIALIZATION_ERROR
| TIMEOUT_ERROR
| UNKNOWN_ERROR.

Inductive RecoveryAction :=
| RETRY_OPERATION
| CLEANUP_AND_RETRY
| FALLBACK_TO_NON_CACHED
| DELETE_CORRUPTED_CACHE
| REDUCE_BATCH_SIZE.

(** An [Error] value.  [errCacheType] is [Some t] exactly for instances of
    [CacheError], whose constructor sets the name to "CacheError". *)
Record JsError := mkError {
  errName : string;
  errMessage : string;
  errCacheType : option CacheErrorType
}.

Definition CacheError (msg : string) (t : CacheErrorType) : JsError :=
  mkError "CacheError" msg (Some t).

(** ** errorRecoveryStrategy.ts *)

Module Recovery.
Import JS Constants.

(** The two private fields of [ErrorRecoveryStrategyImpl]. *)
Record t := mk {
  fallbackMode : bool;
  retryCount : gmap string Z
}.

Definition init : t := mk false ∅.

Definition detectErrorType (error : JsError) : CacheErrorType :=
  match errCacheType error with
  | Some ty => ty
  | None =>
      let message := toLowerCase (errMessage error) in
      let name := toLowerCase (errName error) in
      if includes message "indexeddb" || includes message "not supported"
         || includes message "not available"
         || includes name "notsupportederror"
      then INITIALIZATION_FAILED
      else if includes message "quota" || includes message "storage"
         || includes message "disk" || String.eqb name "quotaexceedederror"
         || includes message "insufficient storage"
      then STORAGE_QUOTA_EXCEEDED
      else if includes message "timeout" || includes message "timed out"
         || includes name "timeouterror"
         || includes message "operation timeout"
      then TIMEOUT_ERROR
      else if includes message "json" || includes message "parse"
         || includes message "stringify" || includes message "serializ"
         || includes message "invalid character"
         || includes name "syntaxerror"
      then SERIALIZATION_ERROR
      else if includes message "corrupt" || includes message "invalid"
         || includes message "malformed" || includes message "unexpected"
         || includes message "version mismatch"
         || includes name "dataerror"
      then DATA_CORRUPTION
      else if includes message "database" || includes message "transaction"
         || includes message "objectstore"
         || includes name "invalidstateerror"
         || includes name "transactioninactiveerror"
      then INITIALIZATION_FAILED
      else UNKNOWN_ERROR
  end.

Definition selectRecoveryStrategy (s : t) (errorType : CacheErrorType)
  : RecoveryAction :=
  if fallbackMode s then FALLBACK_TO_NON_CACHED
  else match errorType with
       | INITIALIZATION_FAILED => FALLBACK_TO_NON_CACHED
       | STORAGE_QUOTA_EXCEEDED => CLEANUP_AND_RETRY
       | DATA_CORRUPTION => DELETE_CORRUPTED_CACHE
       | SERIALIZATION_ERROR => FALLBACK_TO_NON_CACHED
       | TIMEOUT_ERROR => RETRY_OPERATION
       | UNKNOWN_ERROR => CLEANUP_AND_RETRY
       end.

(** [fallbackToNonCached]: sets the flag, clears the counters, returns
    [true]. *)
Definition fallbackToNonCached (s : t) : bool * t := (true, mk true ∅).

Definition isInFallbackMode (s : t) : bool := fallbackMode s.

Definition resetFallbackMode (s : t) : t := mk false ∅.

(** [this.retryCount.get(operationId) || 0]. *)
Definition getRetryCount (s : t) (operationId : string) : Z :=
  match retryCount s !! operationId with
  | Some n => n
  | None => 0
  end.

Definition incrementRetryCount (s : t) (operationId : string) : Z * t :=
  let current := getRetryCount s operationId in
  let newCount := current + 1 in
  (newCount, mk (fallbackMode s) (<[operationId := newCount]> (retryCount s))).

Definition resetRetryCount (s : t) (operationId : string) : t :=
  mk (fallbackMode s) (delete operationId (retryCount s)).

Definition shouldRetry (s : t) (operationId : string) : bool :=
  (getRetryCount s operationId <? MAX_RETRIES) && negb (fallbackMode s).

(** [RETRY_DELAY * Math.pow(BACKOFF_MULTIPLIER, retryCount)]. *)
Definition calculateRetryDelay (s : t) (operationId : string) : Z :=
  RETRY_DELAY * BACKOFF_MULTIPLIER ^ getRetryCount s operationId.

(** [executeRecovery]: the four strategies other than the fallback are
    placeholders that report success. *)
Definition executeRecovery (s : t) (action : RecoveryAction) : bool * t :=
  match action with
  | RETRY_OPERATION => (true, s)
  | CLEANUP_AND_RETRY => (true, s)
  | FALLBACK_TO_NON_CACHED => fallbackToNonCached s
  | DELETE_CORRUPTED_CACHE => (true, s)
  | REDUCE_BATCH_SIZE => (true, s)
  end.

Record outcome := mkOutcome {
  recovered : bool;
  action : RecoveryAction;
  shouldFallback : bool
}.

Definition handleError (s : t) (error : JsError) (operationId : string)
  : outcome * t :=
  let errorType := detectErrorType error in
  if negb (shouldRetry s operationId) then
    let '(r, s1) := fallbackToNonCached s in
    (mkOutcome r FALLBACK_TO_NON_CACHED true, s1)
  else
    let action := selectRecoveryStrategy s errorType in
    let '(_, s1) := incrementRetryCount s operationId in
    let '(r, s2) := executeRecovery s1 action in
    (mkOutcome r action (fallbackMode s2), s2).

(** [k] successive calls of [incrementRetryCount] for one operation. *)
Fixpoint increments (k : nat) (operationId : string) (s : t) : t :=
  match k with
  | O => s
  | S k' => snd (incrementRetryCount (increments k' operationId s) operationId)
  end.

End Recovery.

(** ** types/cache.ts: persisted records *)

Record CacheMetadata := mkMetadata {
  meta_timestamp : Z;
  meta_lastAccessed : Z;
  meta_dataHash : string;
  meta_transformHash : string;
  meta_totalSize : Z;
  meta_batchSize : Z
}.

Record CacheBatch (R : Type) := mkBatch {
  batch_index : Z;
  batch_data : list R;
  batch_timestamp : Z;
  batch_size : Z
}.
Arguments mkBatch {R}.
Arguments batch_index {R}.
Arguments batch_data {R}.
Arguments batch_timestamp {R}.
Arguments batch_size {R}.

Record CacheEntry (R : Type) := mkEntry {
  entry_key : string;
  entry_data : list R;
  entry_metadata : CacheMetadata;
  entry_batches : list (CacheBatch R);
  entry_isComplete : bool;
  entry_version : string
}.
Arguments mkEntry {R}.
Arguments entry_key {R}.
Arguments entry_data {R}.
Arguments entry_metadata {R}.
Arguments entry_batches {R}.
Arguments entry_isComplete {R}.
Arguments entry_version {R}.

Record CacheResult (R : Type) := mkResult {
  result_data : list R;
  result_isComplete : bool;
  result_timestamp : Z;
  result_batches : list (CacheBatch R)
}.
Arguments mkResult {R}.
Arguments result_data {R}.
Arguments result_isComplete {R}.
Arguments result_timestamp {R}.
Arguments result_batches {R}.

(** A value held by the object store: a record with the shape of a
    [CacheEntry], or any other (truthy) value. *)
Inductive Raw (R : Type) :=
| RawEntry (e : CacheEntry R)
| RawOther.
Arguments RawEntry {R}.
Arguments RawOther {R}.

(** A batch waiting in [batchQueue]. *)
Record QueuedBatch (R : Type) := mkQueued {
  queued_index : Z;
  queued_data : list R;
  queued_timestamp : Z
}.
Arguments mkQueued {R}.
Arguments queued_index {R}.
Arguments queued_data {R}.
Arguments queued_timestamp {R}.

(** What [navigator.storage.estimate] does in the environment. *)
Inductive StorageEstimate :=
| EstimateUnavailable
| EstimateRejects (e : JsError)
| EstimateOf (usage quota : Z).

(** ** The state of one cache manager and of the store behind it *)

Record World (R : Type) := mkWorld {
  errorRecovery : Recovery.t;
  isInitialized : bool;
  config_maxAge : Z;
  config_maxSize : Z;
  batchQueue : gmap string (list (QueuedBatch R) * bool);
  keyCache : gmap string string;
  (* the object store "cache_entries" *)
  store : gmap string (Raw R);
  (* Date.now() *)
  now : Z;
  (* outcome of the next calls of put, get, delete and getAllKeys:
     [Some e] rejects with [e], [None] or an exhausted list succeeds *)
  putFaults : list (option JsError);
  getFaults : list (option JsError);
  deleteFaults : list (option JsError);
  keysFaults : list (option JsError);
  storageEstimate : StorageEstimate
}.
Arguments mkWorld {R}.
Arguments errorRecovery {R}.
Arguments isInitialized {R}.
Arguments config_maxAge {R}.
Arguments config_maxSize {R}.
Arguments batchQueue {R}.
Arguments keyCache {R}.
Arguments store {R}.
Arguments now {R}.
Arguments putFaults {R}.
Arguments getFaults {R}.
Arguments deleteFaults {R}.
Arguments keysFaults {R}.
Arguments storageEstimate {R}.

Section WorldUpdates.
Context {R : Type}.
Implicit Type w : World R.

Definition set_errorRecovery (s : Recovery.t) w : World R :=
  mkWorld s (isInitialized w) (config_maxAge w) (config_maxSize w)
    (batchQueue w) (keyCache w) (store w) (now w) (putFaults w)
    (getFaults w) (deleteFaults w) (keysFaults w) (storageEstimate w).

Definition set_isInitialized (b : bool) w : World R :=
  mkWorld (errorRecovery w) b (config_maxAge w) (config_maxSize w)
    (batchQueue w) (keyCache w) (store w) (now w) (putFaults w)
    (getFaults w) (deleteFaults w) (keysFaults w) (storageEstimate w).

Definition set_batchQueue (q : gmap string (list (QueuedBatch R) * bool)) w
  : World R :=
  mkWorld (errorRecovery w) (isInitialized w) (config_maxAge w)
    (config_maxSize w) q (keyCache w) (store w) (now w) (putFaults w)
    (getFaults w) (deleteFaults w) (keysFaults w) (storageEstimate w).

Definition set_keyCache (k : gmap string string) w : World R :=
  mkWorld (errorRecovery w) (isInitialized w) (config_maxAge w)
    (config_maxSize w) (batchQueue w) k (store w) (now w) (putFaults w)
    (getFaults w) (deleteFaults w) (keysFaults w) (storageEstimate w).

Definition set_store (st : gmap string (Raw R)) w : World R :=
  mkWorld (errorRecovery w) (isInitialized w) (config_maxAge w)
    (config_maxSize w) (batchQueue w) (keyCache w) st (now w) (putFaults w)
    (getFaults w) (deleteFaults w) (keysFaults w) (storageEstimate w).

Definition set_putFaults (fs : list (option JsError)) w : World R :=
  mkWorld (errorRecovery w) (isInitialized w) (config_maxAge w)
    (config_maxSize w) (batchQueue w) (keyCache w) (store w) (now w) fs
    (getFaults w) (deleteFaults w) (keysFaults w) (storageEstimate w).

Definition set_getFaults (fs : list (option JsError)) w : World R :=
  mkWorld (errorRecovery w) (isInitialized w) (config_maxAge w)
    (config_maxSize w) (batchQueue w) (keyCache w) (store w) (now w)
    (putFaults w) fs (deleteFaults w) (keysFaults w) (storageEstimate w).

Definition set_deleteFaults (fs : list (option JsError)) w : World R :=
  mkWorld (errorRecovery w) (isInitialized w) (config_maxAge w)
    (config_maxSize w) (batchQueue w) (keyCache w) (store w) (now w)
    (putFaults w) (getFaults w) fs (keysFaults w) (storageEstimate w).

Definition set_keysFaults (fs : list (option JsError)) w : World R :=
  mkWorld (errorRecovery w) (isInitialized w) (config_maxAge w)
    (config_maxSize w) (batchQueue w) (keyCache w) (store w) (now w)
    (putFaults w) (getFaults w) (deleteFaults w) fs (storageEstimate w).
End WorldUpdates.

(** ** Asynchronous methods: state, exceptions and recursion depth *)

Inductive Res (A : Type) :=
| Ok (a : A)
| Throw (e : JsError)
| Pending.
Arguments Ok {A}.
Arguments Throw {A}.
Arguments Pending {A}.

(** [Pending] is the outcome of a promise that has not settled within the
    recursion depth the caller allowed. *)
Definition M (R A : Type) : Type := World R -> Res A * World R.

Definition ret {R A} (a : A) : M R A := fun w => (Ok a, w).
Definition throw {R A} (e : JsError) : M R A := fun w => (Throw e, w).
Definition pending {R A} : M R A := fun w => (Pending, w).

Definition bind {R A B} (m : M R A) (k : A -> M R B) : M R B :=
  fun w =>
    match m w with
    | (Ok a, w1) => k a w1
    | (Throw e, w1) => (Throw e, w1)
    | (Pending, w1) => (Pending, w1)
    end.

(** [try { m } catch (e) { h e }]. *)
Definition try_catch {R A} (m : M R A) (h : JsError -> M R A) : M R A :=
  fun w =>
    match m w with
    | (Ok a, w1) => (Ok a, w1)
    | (Throw e, w1) => h e w1
    | (Pending, w1) => (Pending, w1)
    end.

Definition get_world {R} : M R (World R) := fun w => (Ok w, w).
Definition modify {R} (f : World R -> World R) : M R unit :=
  fun w => (Ok tt, f w).

Notation "'do' x <- m ; k" := (bind m (fun x => k))
  (at level 10, x name, m at level 100, k at level 200).
Notation "m ;; k" := (bind m (fun _ => k))
  (at level 100, k at level 200, right associativity).

(** [for (const x of xs) { body x }]. *)
Fixpoint for_each {R A} (xs : list A) (body : A -> M R unit) : M R unit :=
  match xs with
  | [] => ret tt
  | x :: xs' => body x ;; for_each xs' body
  end.

(** ** indexedDBWrapper.ts, seen from the cache manager *)

Module Db.
Section Ops.
Context {R : Type}.

Definition next_fault (fs : list (option JsError))
  : option JsError * list (option JsError) :=
  match fs with
  | [] => (None, [])
  | f :: fs' => (f, fs')
  end.

Definition put (key : string) (value : Raw R) : M R unit :=
  fun w =>
    let '(f, fs) := next_fault (putFaults w) in
    let w1 := set_putFaults fs w in
    match f with
    | Some e => (Throw e, w1)
    | None => (Ok tt, set_store (<[key := value]> (store w1)) w1)
    end.

Definition get (key : string) : M R (option (Raw R)) :=
  fun w =>
    let '(f, fs) := next_fault (getFaults w) in
    let w1 := set_getFaults fs w in
    match f with
    | Some e => (Throw e, w1)
    | None => (Ok (store w1 !! key), w1)
    end.

Definition delete (key : string) : M R unit :=
  fun w =>
    let '(f, fs) := next_fault (deleteFaults w) in
    let w1 := set_deleteFaults fs w in
    match f with
    | Some e => (Throw e, w1)
    | None => (Ok tt, set_store (base.delete key (store w1)) w1)
    end.

Definition getAllKeys : M R (list string) :=
  fun w =>
    let '(f, fs) := next_fault (keysFaults w) in
    let w1 := set_keysFaults fs w in
    match f with
    | Some e => (Throw e, w1)
    | None => (Ok (map fst (map_to_list (store w1))), w1)
    end.

(** [clear] shares the fate of [delete]. *)
Definition clear : M R unit :=
  fun w =>
    let '(f, fs) := next_fault (deleteFaults w) in
    let w1 := set_deleteFaults fs w in
    match f with
    | Some e => (Throw e, w1)
    | None => (Ok tt, set_store ∅ w1)
    end.
End Ops.
End Db.

(** ** cacheManager.ts *)

Module Cache.
Import JS Constants.

(** [createHash]: DJB2 over the UTF-16 code units, kept in 32 bits, and
    printed in base 36 without its sign. *)
Definition hash_step (hash char : Z) : Z :=
  let hash := shl5 hash + hash + char in
  band hash hash.

Definition createHash (data : string) : string :=
  let hash := 5381 in
  if (String.length data =? 0)%nat then toString36 hash
  else toString36 (Z.abs (fold_left hash_step (charCodes data) hash)).

(** [JSON.stringify] of a string value. *)
Definition hex4 (n : Z) : string :=
  String (digit36 (n / 4096 mod 16))
    (String (digit36 (n / 256 mod 16))
       (String (digit36 (n / 16 mod 16))
          (String (digit36 (n mod 16)) ""))).

Definition escape_char (c : ascii) : string :=
  let n := Z.of_nat (nat_of_ascii c) in
  if n =? 34 then String (ascii_of_nat 92) (String (ascii_of_nat 34) EmptyString)
  else if n =? 92 then "\\"
  else if n =? 8 then "\b"
  else if n =? 12 then "\f"
  else if n =? 10 then "\n"
  else if n =? 13 then "\r"
  else if n =? 9 then "\t"
  else if n <? 32 then "\u" ++ hex4 n
  else String c "".

Fixpoint escape (s : string) : string :=
  match s with
  | EmptyString => ""
  | String c s' => escape_char c ++ escape s'
  end.

Definition quote : string := String (ascii_of_nat 34) EmptyString.

Definition stringify_string (s : string) : string :=
  quote ++ escape s ++ quote.

Definition stringify_bool (b : bool) : string :=
  if b then "true" else "false".

(** [createOptimizedFunctionHash], on the text of the transform. *)
Definition createOptimizedFunctionHash (fnString : string) : string :=
  let len := String.length fnString in
  let characteristics :=
    "{" ++ stringify_string "length" ++ ":" ++ toString10 (Z.of_nat len)
    ++ "," ++ stringify_string "hasReturn" ++ ":"
    ++ stringify_bool (includes fnString "return")
    ++ "," ++ stringify_string "hasArrow" ++ ":"
    ++ stringify_bool (includes fnString "=>")
    ++ "," ++ stringify_string "hasAsync" ++ ":"
    ++ stringify_bool (includes fnString "async")
    ++ "," ++ stringify_string "hasAwait" ++ ":"
    ++ stringify_bool (includes fnString "await")
    ++ "," ++ stringify_string "firstChars" ++ ":"
    ++ stringify_string (substring 0 50 fnString)
    ++ "," ++ stringify_string "lastChars" ++ ":"
    ++ stringify_string (substring (len - 50) len fnString)
    ++ "}" in
  createHash characteristics.

Section WithItems.
Context {T R : Type} (jsonT : T -> string) (jsonR : R -> string).

Local Abbreviation Op := (M R).

(** The indices [0, step, 2 step, ...] below [len]. *)
Fixpoint sample_indices (fuel : nat) (i step len : Z) : list Z :=
  match fuel with
  | O => []
  | S fuel' =>
      if i <? len then i :: sample_indices fuel' (i + step) step len
      else []
  end.

(** [data[i]] for an index inside the array. *)
Definition at_index (data : list T) (i : Z) : list T :=
  match data !! Z.to_nat i with
  | Some x => [x]
  | None => []
  end.

Definition createOptimizedDataHash (data : list T) : string :=
  let len := Z.of_nat (length data) in
  if len =? 0 then "empty"
  else if len <=? 1000 then createHash (stringify_array jsonT data)
  else
    let sampleSize :=
      Z.min 100 (Math_ceil (inject_Z len * (1 # 100))) in
    let step := Math_floor (inject_Z len / inject_Z sampleSize) in
    let samples :=
      flat_map (at_index data)
        (sample_indices (length data) 0 step len) in
    let keyElements :=
      (at_index data 0
       ++ at_index data (Math_floor (inject_Z len / 2))
       ++ at_index data (len - 1)
       ++ samples)%list in
    let hashInput :=
      toString10 len ++ "_" ++ stringify_array jsonT keyElements in
    createHash hashInput.

(** [generateKey]: memoised under [quickId]; the memo takes no new
    entry once it holds 1000. *)
Definition generateKey (data : list T) (fnString : string) : Op string :=
  fun w =>
    let quickId :=
      toString10 (Z.of_nat (length data)) ++ "_"
      ++ toString10 (Z.of_nat (String.length fnString)) in
    match keyCache w !! quickId with
    | Some cachedKey => (Ok cachedKey, w)
    | None =>
        let dataHash := createOptimizedDataHash data in
        let fnHash := createOptimizedFunctionHash fnString in
        let key := CACHE_VERSION ++ "_" ++ dataHash ++ "_" ++ fnHash in
        if (size (keyCache w) <? 1000)%nat
        then (Ok key, set_keyCache (<[quickId := key]> (keyCache w)) w)
        else (Ok key, w)
    end.

(** [CACHE_VERSION.split(".")[0]]. *)
Fixpoint before_dot (s : string) : string :=
  match s with
  | EmptyString => EmptyString
  | String c s' =>
      if (nat_of_ascii c =? 46)%nat then EmptyString
      else String c (before_dot s')
  end.

(** [validateCacheEntry] returns the entry or throws a [CacheError]; no
    path of it returns null.  The checks on the types of the fields hold
    for every [RawEntry]. *)
Definition validateCacheEntry (rawEntry : option (Raw R))
  : Op (CacheEntry R) :=
  match rawEntry with
  | None => throw (CacheError "Invalid cache entry structure" DATA_CORRUPTION)
  | Some RawOther =>
      throw (CacheError "Missing required cache entry fields" DATA_CORRUPTION)
  | Some (RawEntry entry) =>
      if (String.length (entry_key entry) =? 0)%nat
      then throw (CacheError "Missing required cache entry fields"
                    DATA_CORRUPTION)
      else if (String.length (entry_version entry) =? 0)%nat
              || negb (startsWith (entry_version entry)
                         (before_dot CACHE_VERSION))
      then throw (CacheError "Incompatible cache version" DATA_CORRUPTION)
      else ret entry
  end.

Definition isCacheExpired (entry : CacheEntry R) : Op bool :=
  fun w =>
    let age := now w - meta_timestamp (entry_metadata entry) in
    (Ok (age >? config_maxAge w), w).

Definition touch (t : Z) (m : CacheMetadata) : CacheMetadata :=
  mkMetadata (meta_timestamp m) t (meta_dataHash m) (meta_transformHash m)
    (meta_totalSize m) (meta_batchSize m).

Definition updateLastAccessed (key : string) (entry : CacheEntry R)
  : Op unit :=
  try_catch
    (do w <- get_world;
     let updatedEntry :=
       mkEntry (entry_key entry) (entry_data entry)
         (touch (now w) (entry_metadata entry)) (entry_batches entry)
         (entry_isComplete entry) (entry_version entry) in
     Db.put key (RawEntry updatedEntry))
    (fun _ => ret tt).

Definition cleanupCorruptedCache (key : string) : Op unit :=
  try_catch (Db.delete key) (fun _ => ret tt).

(** [calculateDataSize]: two bytes per character of the serialisation. *)
Definition calculateDataSize (data : list R) : Z :=
  Z.of_nat (String.length (stringify_array jsonR data)) * 2.

Definition getOrCreateCacheEntry (key : string) (data : list R)
  : Op (CacheEntry R) :=
  do existing <-
    try_catch
      (do existingEntry <- Db.get key;
       match existingEntry with
       | Some raw =>
           do validatedEntry <- validateCacheEntry (Some raw);
           ret (Some validatedEntry)
       | None => ret None
       end)
      (fun _ => ret None);
  match existing with
  | Some validatedEntry => ret validatedEntry
  | None =>
      do w <- get_world;
      ret (mkEntry key []
             (mkMetadata (now w) (now w)
                (createHash (stringify_array jsonR data)) "" 0
                (if config_maxSize w =? 0 then 500 else config_maxSize w))
             [] false CACHE_VERSION)
  end.

(** [combineBatchData]: sort a copy by index, then append the data of
    each batch. *)
Definition combineBatchData (batches : list (CacheBatch R)) : list R :=
  let sortedBatches := sort_by batch_index batches in
  flat_map batch_data sortedBatches.

(** The loop of [compressBatchData]: keep an item unless an item with the
    same serialisation was seen before. *)
Fixpoint dedupe (seen : gmap string R) (data : list R) : list R :=
  match data with
  | [] => []
  | item :: rest =>
      let key := jsonR item in
      match seen !! key with
      | Some _ => dedupe seen rest
      | None => item :: dedupe (<[key := item]> seen) rest
      end
  end.

Definition compressBatchData (data : list R) : list R :=
  if (length data <=? 1)%nat then data
  else
    let compressed := dedupe ∅ data in
    if (length compressed <? length data)%nat then compressed else data.

(** The private field [compressionEnabled] is true and never assigned. *)
Definition compressionEnabled : bool := true.

(** [isQuotaExceededError]. *)
Definition isQuotaExceededError (error : JsError) : bool :=
  let message := toLowerCase (errMessage error) in
  includes message "quota" || includes message "storage"
  || includes message "disk"
  || String.eqb (errName error) "QuotaExceededError".

(** [createRecoveryWrapper(operationId, operation, fallbackValue)()].
    [fuel] bounds the retries the wrapper may chain. *)
Fixpoint createRecoveryWrapper {A} (fuel : nat) (operationId : string)
    (operation : Op A) (fallbackValue : A) : Op A :=
  fun w =>
    if Recovery.fallbackMode (errorRecovery w) then (Ok fallbackValue, w)
    else
      match operation w with
      | (Ok result, w1) =>
          (Ok result,
           set_errorRecovery
             (Recovery.resetRetryCount (errorRecovery w1) operationId) w1)
      | (Pending, w1) => (Pending, w1)
      | (Throw error, w1) =>
          let '(recovery, s) :=
            Recovery.handleError (errorRecovery w1) error operationId in
          let w2 := set_errorRecovery s w1 in
          if Recovery.shouldFallback recovery then (Ok fallbackValue, w2)
          else
            match Recovery.action recovery with
            | RETRY_OPERATION =>
                if Recovery.shouldRetry s operationId then
                  match fuel with
                  | O => (Pending, w2)
                  | S fuel' =>
                      createRecoveryWrapper fuel' operationId operation
                        fallbackValue w2
                  end
                else (Ok fallbackValue, w2)
            | _ => (Ok fallbackValue, w2)
            end
      end.

(** [checkCache].  The two preloading helpers it schedules only read
    the store and are left out. *)
Definition checkCache (key : string) : Op (option (CacheResult R)) :=
  fun w =>
    if negb (isInitialized w)
       || Recovery.isInFallbackMode (errorRecovery w)
    then (Ok None, w)
    else
      let operationId := "cache_check_" ++ key in
      let cacheCheckOperation :=
        createRecoveryWrapper (Z.to_nat MAX_RETRIES) operationId
          (do rawEntry <- Db.get key;
           match rawEntry with
           | None => ret None
           | Some raw =>
               do cacheEntry <- validateCacheEntry (Some raw);
               do expired <- isCacheExpired cacheEntry;
               if expired then Db.delete key ;; ret None
               else
                 updateLastAccessed key cacheEntry ;;
                 ret (Some
                        (mkResult (entry_data cacheEntry)
                           (entry_isComplete cacheEntry)
                           (meta_timestamp (entry_metadata cacheEntry))
                           (entry_batches cacheEntry)))
           end)
          None in
      try_catch cacheCheckOperation (fun _ => ret None) w.

(** [storeBatch]: append to the queue of the key and (re)arm its timer;
    the flush itself runs when the timer fires. *)
Definition storeBatch (key : string) (batch : list R) (batchIndex : Z)
  : Op unit :=
  fun w =>
    if negb (isInitialized w)
       || Recovery.isInFallbackMode (errorRecovery w)
    then (Ok tt, w)
    else
      let queued :=
        match batchQueue w !! key with
        | Some (batches, _) => batches
        | None => []
        end in
      let queued' := (queued ++ [mkQueued batchIndex batch (now w)])%list in
      (Ok tt, set_batchQueue (<[key := (queued', true)]> (batchQueue w)) w).

(** One queued batch applied to the batches of the entry:
    [findIndex] by index, then assignment in place or [push]. *)
Definition upsertBatch (batches : list (CacheBatch R))
    (queuedBatch : QueuedBatch R) : list (CacheBatch R) :=
  let batchData :=
    mkBatch (queued_index queuedBatch)
      (if compressionEnabled then compressBatchData (queued_data queuedBatch)
       else queued_data queuedBatch)
      (queued_timestamp queuedBatch)
      (calculateDataSize (queued_data queuedBatch)) in
  match list_find (fun b => batch_index b = queued_index queuedBatch)
          batches with
  | Some (existingBatchIndex, _) => <[existingBatchIndex := batchData]> batches
  | None => (batches ++ [batchData])%list
  end.

Definition flushOperation (key : string) (queued : list (QueuedBatch R))
  : Op unit :=
  do cacheEntry <- getOrCreateCacheEntry key [];
  let batches := fold_left upsertBatch queued (entry_batches cacheEntry) in
  let batches := sort_by batch_index batches in
  let data := combineBatchData batches in
  do w <- get_world;
  let metadata :=
    mkMetadata (meta_timestamp (entry_metadata cacheEntry)) (now w)
      (meta_dataHash (entry_metadata cacheEntry))
      (meta_transformHash (entry_metadata cacheEntry))
      (calculateDataSize data)
      (meta_batchSize (entry_metadata cacheEntry)) in
  Db.put key
    (RawEntry
       (mkEntry (entry_key cacheEntry) data metadata batches
          (entry_isComplete cacheEntry) (entry_version cacheEntry))).

(** [queueEntry.batches = []], with or without disarming the timer. *)
Definition emptyQueue (key : string) (disarm : bool) : Op unit :=
  modify (fun w =>
    match batchQueue w !! key with
    | Some (_, timer) =>
        set_batchQueue
          (<[key := ([], if disarm then false else timer)]> (batchQueue w)) w
    | None => w
    end).

(** The position [i] of a sorted array of candidates; reading [.key] of
    a missing position throws a [TypeError]. *)
Definition key_at (entries : list (string * Z)) (i : nat) : Op string :=
  match entries !! i with
  | Some (key, _) => ret key
  | None =>
      throw (mkError "TypeError"
               "Cannot read properties of undefined (reading 'key')" None)
  end.

(** [for (let i = 0; i < n; i++) try { delete entries[i].key } catch { warn entries[i].key }]:
    the handler reads [entries[i].key] again. *)
Definition deleteOldest (entries : list (string * Z)) (n : nat) : Op unit :=
  for_each (seq 0 n) (fun i =>
    try_catch (do key <- key_at entries i; Db.delete key)
      (fun _ => do _ <- key_at entries i; ret tt)).

(** The candidates of [handleStorageQuotaExceeded]: the keys whose
    entry can be read and validates, with the time of their last access. *)
Fixpoint collectValidated (keys : list string) : Op (list (string * Z)) :=
  match keys with
  | [] => ret []
  | key :: keys' =>
      do found <-
        try_catch
          (do entry <- Db.get key;
           do validatedEntry <- validateCacheEntry entry;
           ret [(key, meta_lastAccessed (entry_metadata validatedEntry))])
          (fun _ => ret []);
      do rest <- collectValidated keys';
      ret (found ++ rest)%list
  end.

Definition handleStorageQuotaExceeded : Op unit :=
  try_catch
    (do allKeys <- Db.getAllKeys;
     if (length allKeys =? 0)%nat then ret tt
     else
       do entriesWithTimestamps <- collectValidated allKeys;
       let sorted := sort_by snd entriesWithTimestamps in
       let entriesToRemove :=
         Z.max 1
           (Math_floor (inject_Z (Z.of_nat (length sorted)) * (1 # 4))) in
       deleteOldest sorted (Z.to_nat entriesToRemove))
    (fun error => throw error).

(** [markComplete]; [fuel] bounds the depth of its recursive retry. *)
Fixpoint markComplete (fuel : nat) (key : string) (totalResult : list R)
  : Op unit :=
  fun w =>
    if negb (isInitialized w) then (Ok tt, w)
    else
      try_catch
        (do cacheEntry <- getOrCreateCacheEntry key totalResult;
         do w1 <- get_world;
         let metadata :=
           mkMetadata (meta_timestamp (entry_metadata cacheEntry)) (now w1)
             (meta_dataHash (entry_metadata cacheEntry))
             (meta_transformHash (entry_metadata cacheEntry))
             (calculateDataSize totalResult)
             (meta_batchSize (entry_metadata cacheEntry)) in
         Db.put key
           (RawEntry
              (mkEntry (entry_key cacheEntry) totalResult metadata
                 (entry_batches cacheEntry) true
                 (entry_version cacheEntry))))
        (fun error =>
           if isQuotaExceededError error then
             try_catch
               (handleStorageQuotaExceeded ;;
                match fuel with
                | O => pending
                | S fuel' => markComplete fuel' key totalResult
                end)
               (fun _ => ret tt)
           else ret tt)
        w.

(** [flushBatchQueue]; [fuel] bounds the depth of its recursive retry. *)
Fixpoint flushBatchQueue (fuel : nat) (key : string) : Op unit :=
  fun w =>
    match batchQueue w !! key with
    | None => (Ok tt, w)
    | Some (batches, _) =>
        if (length batches =? 0)%nat then (Ok tt, w)
        else
          let operationId := "flush_batch_queue_" ++ key in
          try_catch
            (createRecoveryWrapper (Z.to_nat MAX_RETRIES) operationId
               (flushOperation key batches) tt ;;
             emptyQueue key true)
            (fun error =>
               match Recovery.detectErrorType error with
               | STORAGE_QUOTA_EXCEEDED =>
                   try_catch
                     (handleStorageQuotaExceeded ;;
                      do w1 <- get_world;
                      if negb (Recovery.isInFallbackMode (errorRecovery w1))
                      then
                        match fuel with
                        | O => pending
                        | S fuel' => flushBatchQueue fuel' key
                        end
                      else ret tt)
                     (fun _ => emptyQueue key false)
               | _ => emptyQueue key false
               end)
            w
    end.

(** *** Expiration and eviction *)

Record ValidEntry := mkValid {
  valid_key : string;
  valid_entry : CacheEntry R;
  valid_lastAccessed : Z;
  valid_size : Z
}.

Inductive Verdict :=
| IsExpired (key : string) (entry : CacheEntry R)
| IsValid (v : ValidEntry)
| IsCorrupted (key : string).

(** The body of the loop of [analyzeEntriesForCleanup] for one key. *)
Definition analyzeEntry (key : string) : Op Verdict :=
  try_catch
    (do rawEntry <- Db.get key;
     match rawEntry with
     | None => ret (IsCorrupted key)
     | Some raw =>
         do entry <- validateCacheEntry (Some raw);
         do expired <- isCacheExpired entry;
         if expired then ret (IsExpired key entry)
         else
           ret (IsValid
                  (mkValid key entry
                     (meta_lastAccessed (entry_metadata entry))
                     (if meta_totalSize (entry_metadata entry) =? 0
                      then calculateDataSize (entry_data entry)
                      else meta_totalSize (entry_metadata entry))))
     end)
    (fun _ => ret (IsCorrupted key)).

Fixpoint analyzeAll (keys : list string) : Op (list Verdict) :=
  match keys with
  | [] => ret []
  | key :: keys' =>
      do v <- analyzeEntry key;
      do vs <- analyzeAll keys';
      ret (v :: vs)
  end.

Definition expiredOf (vs : list Verdict) : list string :=
  flat_map (fun v => match v with IsExpired k _ => [k] | _ => [] end) vs.
Definition validOf (vs : list Verdict) : list ValidEntry :=
  flat_map (fun v => match v with IsValid e => [e] | _ => [] end) vs.
Definition corruptedOf (vs : list Verdict) : list string :=
  flat_map (fun v => match v with IsCorrupted k => [k] | _ => [] end) vs.

(** [for (const key of keys) try { delete key; count++ } catch { warn }]. *)
Fixpoint deleteEach (keys : list string) : Op Z :=
  match keys with
  | [] => ret 0
  | key :: keys' =>
      do c <- try_catch (Db.delete key ;; ret 1) (fun _ => ret 0);
      do cs <- deleteEach keys';
      ret (c + cs)
  end.

Definition analyzeEntriesForCleanup (allKeys : list string)
  : Op (list string * list ValidEntry * list string) :=
  do vs <- analyzeAll allKeys;
  do _ <- deleteEach (corruptedOf vs);
  ret (expiredOf vs, validOf vs, corruptedOf vs).

Definition cleanupExpiredEntries (expiredEntries : list string) : Op Z :=
  deleteEach expiredEntries.

Definition cleanupOldEntriesIfNeeded (validEntries : list ValidEntry)
  : Op Z :=
  do w <- get_world;
  if Z.of_nat (length validEntries) <=? config_maxSize w then ret 0
  else
    let sortedEntries := sort_by valid_lastAccessed validEntries in
    let targetCount :=
      Math_floor (inject_Z (config_maxSize w) * (3 # 4)) in
    let entriesToRemove :=
      Z.max 0 (Z.of_nat (length sortedEntries) - targetCount) in
    if entriesToRemove =? 0 then ret 0
    else
      deleteEach
        (map valid_key (take (Z.to_nat entriesToRemove) sortedEntries)).

(** The candidates of the two quota sweeps: an entry that cannot be read
    or does not validate is listed with time 0. *)
Fixpoint collectWithTimes (keys : list string) : Op (list (string * Z)) :=
  match keys with
  | [] => ret []
  | key :: keys' =>
      do found <-
        try_catch
          (do rawEntry <- Db.get key;
           do entry <- validateCacheEntry rawEntry;
           ret (key, meta_lastAccessed (entry_metadata entry)))
          (fun _ => ret (key, 0));
      do rest <- collectWithTimes keys';
      ret (found :: rest)
  end.

Definition performAggressiveCleanup : Op unit :=
  try_catch
    (do allKeys <- Db.getAllKeys;
     if (length allKeys =? 0)%nat then ret tt
     else
       do entriesWithTimes <- collectWithTimes allKeys;
       let sorted := sort_by snd entriesWithTimes in
       let entriesToRemove :=
         Math_floor (inject_Z (Z.of_nat (length sorted)) * (1 # 2)) in
       do _ <- deleteEach
                 (map fst (take (Z.to_nat entriesToRemove) sorted));
       ret tt)
    (fun _ => ret tt).

Definition performPreventiveCleanup : Op unit :=
  try_catch
    (do allKeys <- Db.getAllKeys;
     do w <- get_world;
     if Qle_bool (inject_Z (Z.of_nat (length allKeys)))
          (inject_Z (config_maxSize w) * (4 # 5))
     then ret tt
     else
       do entriesWithTimes <- collectWithTimes allKeys;
       let sorted := sort_by snd entriesWithTimes in
       let entriesToRemove :=
         Math_floor (inject_Z (Z.of_nat (length sorted)) * (1 # 5)) in
       do _ <- deleteEach
                 (map fst (take (Z.to_nat entriesToRemove) sorted));
       ret tt)
    (fun _ => ret tt).

Definition checkAndHandleStorageQuota : Op unit :=
  try_catch
    (do w <- get_world;
     match storageEstimate w with
     | EstimateUnavailable => ret tt
     | EstimateRejects e => throw e
     | EstimateOf usage quota =>
         if (quota =? 0) || (usage =? 0) then ret tt
         else
           let usagePercentage := (inject_Z usage / inject_Z quota * 100)%Q in
           if negb (Qle_bool usagePercentage 90)
           then performAggressiveCleanup
           else if negb (Qle_bool usagePercentage 75)
           then performPreventiveCleanup
           else ret tt
     end)
    (fun _ => performPreventiveCleanup).

Definition attemptEmergencyCleanup : Op unit :=
  try_catch Db.clear (fun _ => modify (set_isInitialized false)).

Definition cleanupExpired : Op unit :=
  do w <- get_world;
  if negb (isInitialized w) then ret tt
  else
    try_catch
      (do allKeys <- Db.getAllKeys;
       if (length allKeys =? 0)%nat then ret tt
       else
         do analysis <- analyzeEntriesForCleanup allKeys;
         let '(expired, valid, _) := analysis in
         do _ <- cleanupExpiredEntries expired;
         do _ <- cleanupOldEntriesIfNeeded valid;
         checkAndHandleStorageQuota)
      (fun _ => attemptEmergencyCleanup).

End WithItems.
End Cache.

(** ** useProgressiveCompute.ts *)

Module Scheduler.
Import JS.

(** What [createGenerator] yields and what [next()] returns.  A finished
    generator answers [next()] with [{ done: true, value: undefined }],
    which is [Done None]. *)
Inductive YieldValue (R : Type) :=
| PauseSignal
| Partial (partial : list R) (progress : Z).
Arguments PauseSignal {R}.
Arguments Partial {R}.

Inductive IteratorResult (R : Type) :=
| Yielded (value : YieldValue R)
| Done (value : option (list R)).
Arguments Yielded {R}.
Arguments Done {R}.

(** Where the generator is suspended. *)
Inductive Pc := AtStart | AfterPauseYield | AfterPartialYield | Finished.

Record Generator (R : Type) := mkGen {
  gen_i : Z;
  gen_results : list R;
  gen_pc : Pc
}.
Arguments mkGen {R}.
Arguments gen_i {R}.
Arguments gen_results {R}.
Arguments gen_pc {R}.

(** The refs and the React state of the hook that the run loop reads
    and writes.  [scheduled] counts the continuations of [executeStep]
    handed to [scheduleNextFrame] and not run yet; [stored] and
    [markedComplete] list the calls made to the cache manager, oldest
    first.  A [result] of [None] is [undefined]. *)
Record Hook (R : Type) := mkHook {
  generatorRef : option (Generator R);
  isCancelledRef : bool;
  isPausedRef : bool;
  scheduled : nat;
  result : option (list R);
  progress : Z;
  isComputing : bool;
  stored : list (Z * list R);
  markedComplete : list (option (list R))
}.
Arguments mkHook {R}.
Arguments generatorRef {R}.
Arguments isCancelledRef {R}.
Arguments isPausedRef {R}.
Arguments scheduled {R}.
Arguments result {R}.
Arguments progress {R}.
Arguments isComputing {R}.
Arguments stored {R}.
Arguments markedComplete {R}.

Inductive Event :=
| Fire (budget : nat)
| PauseCall
| ResumeCall.

Section WithTransform.
Context {T R : Type}.
(** The arguments of the hook.  [cacheOn] says that a cache manager and
    a cache key are set; [cancelsWaiting] says that the cleanup
    callbacks run by [handlePause] reach the waiting continuation
    (it was queued with [requestIdleCallback] and the callbacks were
    registered). *)
Context (data : list T) (transformFn : T -> R) (batchSize : Z).
Context (cacheOn cancelsWaiting : bool).

Definition dataLength : Z := Z.of_nat (length data).

(** [Math.min(100, Math.round((processed / data.length) * 100))]. *)
Definition currentProgress (processed : Z) : Z :=
  Z.min 100
    (Math_round (inject_Z processed / inject_Z dataLength * 100)).

(** The loop of [createGenerator] from its test [i < data.length] to the
    next [yield] or [return]. *)
Definition loopFrom (i : Z) (results : list R)
    (isCancelled isPaused : bool) : IteratorResult R * Generator R :=
  if i <? dataLength then
    if isCancelled then (Done (Some results), mkGen i results Finished)
    else if isPaused
    then (Yielded PauseSignal, mkGen i results AfterPauseYield)
    else
      let chunk := slice i (i + batchSize) data in
      let transformedChunk := map transformFn chunk in
      let results := (results ++ transformedChunk)%list in
      (Yielded
         (Partial transformedChunk
            (currentProgress (i + Z.of_nat (length chunk)))),
       mkGen i results AfterPartialYield)
  else (Done (Some results), mkGen i results Finished).

(** [generator.next()], with the two refs as they are at the call. *)
Definition next (g : Generator R) (isCancelled isPaused : bool)
  : IteratorResult R * Generator R :=
  match gen_pc g with
  | AtStart => loopFrom 0 (gen_results g) isCancelled isPaused
  | AfterPauseYield =>
      (* i -= batchSize; continue; i += batchSize *)
      loopFrom (gen_i g - batchSize + batchSize) (gen_results g)
        isCancelled isPaused
  | AfterPartialYield =>
      loopFrom (gen_i g + batchSize) (gen_results g) isCancelled isPaused
  | Finished => (Done None, g)
  end.

Definition createGenerator : Generator R := mkGen 0 [] AtStart.

(** [Math.floor(prog / (100 / Math.ceil(data.length / batchSize)))]. *)
Definition batchIndexOf (prog : Z) : Z :=
  Math_floor
    (inject_Z prog
     / (100 / inject_Z (Math_ceil (inject_Z dataLength / inject_Z batchSize))))%Q.

Definition set_generator (g : Generator R) (h : Hook R) : Hook R :=
  mkHook (Some g) (isCancelledRef h) (isPausedRef h) (scheduled h)
    (result h) (progress h) (isComputing h) (stored h) (markedComplete h).

Definition set_isComputing (b : bool) (h : Hook R) : Hook R :=
  mkHook (generatorRef h) (isCancelledRef h) (isPausedRef h) (scheduled h)
    (result h) (progress h) b (stored h) (markedComplete h).

Definition set_scheduled (n : nat) (h : Hook R) : Hook R :=
  mkHook (generatorRef h) (isCancelledRef h) (isPausedRef h) n
    (result h) (progress h) (isComputing h) (stored h) (markedComplete h).

(** The branch [genResult.done] of [executeStep]. *)
Definition complete (value : option (list R)) (h : Hook R) : Hook R :=
  if isCancelledRef h then h
  else
    mkHook (generatorRef h) (isCancelledRef h) (isPausedRef h)
      (scheduled h) value 100 false (stored h)
      (if cacheOn then (markedComplete h ++ [value])%list
       else markedComplete h).

(** The branch [genResult.value.partial] of [executeStep], without the
    throttled delivery to the caller. *)
Definition forward (partial : list R) (prog : Z) (h : Hook R) : Hook R :=
  if cacheOn && (0 <? length partial)%nat then
    mkHook (generatorRef h) (isCancelledRef h) (isPausedRef h)
      (scheduled h) (result h) (progress h) (isComputing h)
      (stored h ++ [(batchIndexOf prog, partial)])%list (markedComplete h)
  else h.

(** The [while (true)] of [executeStep]: [budget] is the number of
    further iterations that fit in the 16 ms of the slice. *)
Fixpoint slices (budget : nat) (h : Hook R) : Hook R :=
  if isPausedRef h then set_isComputing false h
  else if isCancelledRef h then h
  else
    match generatorRef h with
    | None => h
    | Some g =>
        let '(genResult, g') := next g (isCancelledRef h) (isPausedRef h) in
        let h := set_generator g' h in
        match genResult with
        | Done value => complete value h
        | Yielded PauseSignal => set_isComputing false h
        | Yielded (Partial partial prog) =>
            let h := forward partial prog h in
            match budget with
            | O => set_scheduled (S (scheduled h)) h
            | S budget' => slices budget' h
            end
        end
    end.

Definition executeStep (budget : nat) (h : Hook R) : Hook R :=
  match generatorRef h with
  | None => h
  | Some _ => if isCancelledRef h then h else slices budget h
  end.

(** [start()] on a cache miss, for a non-empty array. *)
Definition start : Hook R :=
  mkHook (Some createGenerator) false false 1 (Some []) 0 true [] [].

(** [pause()].  [handlePause] runs the cleanup callbacks unless the
    computation is paused already. *)
Definition pause (h : Hook R) : Hook R :=
  mkHook (generatorRef h) (isCancelledRef h) true
    (if cancelsWaiting && negb (isPausedRef h)
     then Nat.pred (scheduled h) else scheduled h)
    (result h) (progress h) false (stored h) (markedComplete h).

Definition resume (h : Hook R) : Hook R :=
  if negb (isPausedRef h) then h
  else
    match generatorRef h with
    | None => h
    | Some _ =>
        mkHook (generatorRef h) (isCancelledRef h) false
          (S (scheduled h)) (result h) (progress h) true (stored h)
          (markedComplete h)
    end.

(** One turn of the event loop. *)
Definition step (h : Hook R) (e : Event) : Hook R :=
  match e with
  | Fire budget =>
      match scheduled h with
      | O => h
      | S n => executeStep budget (set_scheduled n h)
      end
  | PauseCall => pause h
  | ResumeCall => resume h
  end.

Definition run (h : Hook R) (events : list Event) : Hook R :=
  fold_left step events h.

Definition finished (h : Hook R) : bool :=
  match generatorRef h with
  | Some g => match gen_pc g with Finished => true | _ => false end
  | None => false
  end.

(** A schedule in which [pause()] comes while the run is in progress
    and [resume()] comes once no continuation of the paused run is
    waiting any more.  A [resume()] that overtakes the waiting
    continuation starts a second chain of slices on the same generator;
    that interleaving is not part of the scenario. *)
Fixpoint pausedMidRun (h : Hook R) (events : list Event) : bool :=
  match events with
  | [] => true
  | e :: events' =>
      match e with
      | Fire _ => true
      | PauseCall => negb (finished h)
      | ResumeCall => negb (isPausedRef h) || (scheduled h =? 0)%nat
      end && pausedMidRun (step h e) events'
  end.

(** The uninterrupted run: one slice after the other until the
    generator returns. *)
Definition uninterrupted : Hook R :=
  run start (repeat (Fire 0) (S (length data))).
End WithTransform.
End Scheduler.

(** ** cacheManager.ts: clearing the cache and reporting on it *)

Module CacheAdmin.
Import JS Constants Cache.

(** The record [getStatus] returns; [status_lastUpdated] is the time
    behind the [Date]. *)
Record CacheStatus := mkStatus {
  status_enabled : bool;
  status_hit : bool;
  status_size : Z;
  status_lastUpdated : option Z
}.

(** [if (key)] on an optional string: the empty string counts as no
    key. *)
Definition truthy (key : option string) : option string :=
  match key with
  | Some k => if (String.length k =? 0)%nat then None else Some k
  | None => None
  end.

Section WithItems.
Context {R : Type} (jsonR : R -> string).

Local Abbreviation Op := (M R).

(** A request on the object store "cache_metadata": it can fail like a
    [delete], and it leaves the entries alone. *)
Definition metadataRequest : Op unit :=
  fun w =>
    let '(f, fs) := Db.next_fault (deleteFaults w) in
    let w1 := set_deleteFaults fs w in
    match f with
    | Some e => (Throw e, w1)
    | None => (Ok tt, w1)
    end.

(** [count] shares the fate of [getAllKeys]. *)
Definition count : Op Z :=
  do keys <- Db.getAllKeys;
  ret (Z.of_nat (length keys)).

Definition clearBatchQueue (fuel : nat) (key : string) : Op unit :=
  do w <- get_world;
  match batchQueue w !! key with
  | Some (batches, _) =>
      (if (0 <? length batches)%nat
       then try_catch (flushBatchQueue jsonR fuel key) (fun _ => ret tt)
       else ret tt) ;;
      modify (fun w => set_batchQueue (delete key (batchQueue w)) w)
  | None => ret tt
  end.

(** [clearAllBatchQueues]: the keys are those of the queue when the
    method starts. *)
Definition clearAllBatchQueues (fuel : nat) : Op unit :=
  do w <- get_world;
  let keys := map fst (map_to_list (batchQueue w)) in
  for_each keys
    (fun key => try_catch (flushBatchQueue jsonR fuel key) (fun _ => ret tt)) ;;
  modify (fun w => set_batchQueue ∅ w).

Definition clearSpecificCacheEntry (key : string) : Op unit :=
  try_catch
    (Db.delete key ;;
     try_catch metadataRequest (fun _ => ret tt))
    (fun error =>
       throw (CacheError
                ("Failed to clear cache entry for key " ++ key ++ ": "
                 ++ errMessage error) UNKNOWN_ERROR)).

Definition clearAllCacheEntries : Op unit :=
  try_catch
    (Db.clear ;;
     try_catch metadataRequest (fun _ => ret tt))
    (fun error =>
       throw (CacheError
                ("Failed to clear all cache entries: " ++ errMessage error)
                UNKNOWN_ERROR)).

(** [attemptFallbackCleanup]: the delete through a transaction of its
    own shares the fate of [delete]. *)
Definition attemptFallbackCleanup (key : option string) : Op unit :=
  try_catch
    (match truthy key with
     | Some k =>
         try_catch
           (do entry <- Db.get k;
            match entry with
            | Some _ => Db.delete k
            | None => ret tt
            end)
           (fun _ => ret tt)
     | None =>
         try_catch
           (do allKeys <- Db.getAllKeys;
            do _ <- deleteEach allKeys;
            ret tt)
           (fun _ => ret tt)
     end)
    (fun _ => ret tt).

Definition clearCache (fuel : nat) (key : option string) : Op unit :=
  do w <- get_world;
  if negb (isInitialized w) then ret tt
  else
    try_catch
      (match truthy key with
       | Some k => clearBatchQueue fuel k ;; clearSpecificCacheEntry k
       | None => clearAllBatchQueues fuel ;; clearAllCacheEntries
       end)
      (fun _ => attemptFallbackCleanup key).

Definition getStatus (key : string) : Op CacheStatus :=
  do w <- get_world;
  if negb (isInitialized w) then ret (mkStatus false false 0 None)
  else
    try_catch
      (do rawEntry <- Db.get key;
       do totalCount <- count;
       match rawEntry with
       | None => ret (mkStatus true false totalCount None)
       | Some raw =>
           do cacheEntry <- validateCacheEntry (Some raw);
           ret (mkStatus true true totalCount
                  (Some (meta_lastAccessed (entry_metadata cacheEntry))))
       end)
      (fun _ => ret (mkStatus true false 0 None)).

End WithItems.

End CacheAdmin.

(** ** interruptHandler.ts *)

Module Interrupt.
Import JS Cache CacheAdmin.

Inductive EventType := OnPause | OnCancel | OnUnmount.

(** The [type] a callback is registered with. *)
Inductive CallbackType := Only (eventType : EventType) | All.

Definition EventType_eqb (a b : EventType) : bool :=
  match a, b with
  | OnPause, OnPause | OnCancel, OnCancel | OnUnmount, OnUnmount => true
  | _, _ => false
  end.

(** An element of [cleanupCallbacks]: the wrapped callback, with the
    function it was made from ([__original], a function object, compared
    with [===]) and its [__type].  A callback acts outside the handler
    (it does not call the handler); the wrapper catches what it throws. *)
Record CleanupCallback := mkCallback {
  cb_original : nat;
  cb_type : CallbackType
}.

(** The fields of the class; [cacheManager] tells whether a manager is
    set, the manager itself is the world of the cache operations. *)
Record t := mkHandler {
  isInterrupted : bool;
  isPaused : bool;
  isCancelled : bool;
  cleanupCallbacks : list CleanupCallback;
  cacheManager : bool;
  currentCacheKey : option string;
  preservePartialResults : bool
}.

Definition constructor (cacheManager : bool)
    (preservePartialResults : option bool) : t :=
  mkHandler false false false [] cacheManager None
    (default true preservePartialResults).

Definition setCacheKey (key : string) (h : t) : t :=
  mkHandler (isInterrupted h) (isPaused h) (isCancelled h)
    (cleanupCallbacks h) (cacheManager h) (Some key)
    (preservePartialResults h).

Definition setCacheManager (h : t) : t :=
  mkHandler (isInterrupted h) (isPaused h) (isCancelled h)
    (cleanupCallbacks h) true (currentCacheKey h)
    (preservePartialResults h).

Definition set_flags (interrupted paused cancelled : bool) (h : t) : t :=
  mkHandler interrupted paused cancelled (cleanupCallbacks h)
    (cacheManager h) (currentCacheKey h) (preservePartialResults h).

Definition set_cleanupCallbacks (callbacks : list CleanupCallback)
    (h : t) : t :=
  mkHandler (isInterrupted h) (isPaused h) (isCancelled h) callbacks
    (cacheManager h) (currentCacheKey h) (preservePartialResults h).

(** The loop of [executeCleanupCallbacks]: the functions it calls, in
    the order of the calls. *)
Fixpoint executeCleanupCallbacks (eventType : EventType)
    (callbacks : list CleanupCallback) : list nat :=
  match callbacks with
  | [] => []
  | callback :: rest =>
      if match cb_type callback with
         | All => true
         | Only callbackType => EventType_eqb callbackType eventType
         end
      then cb_original callback :: executeCleanupCallbacks eventType rest
      else executeCleanupCallbacks eventType rest
  end.

(** [handlePause]: the handler after the call and the callbacks
    called. *)
Definition handlePause (h : t) : t * list nat :=
  if isPaused h then (h, [])
  else
    let h := set_flags true true (isCancelled h) h in
    (h, executeCleanupCallbacks OnPause (cleanupCallbacks h)).

Definition handleUnmount (h : t) : t * list nat :=
  let h := set_flags true (isPaused h) (isCancelled h) h in
  let called := executeCleanupCallbacks OnUnmount (cleanupCallbacks h) in
  (set_cleanupCallbacks [] h, called).

Definition handleResume (h : t) : t :=
  if negb (isPaused h) then h
  else set_flags false false (isCancelled h) h.

Definition isComputationInterrupted (h : t) : bool := isInterrupted h.
Definition isComputationPaused (h : t) : bool := isPaused h.
Definition isComputationCancelled (h : t) : bool := isCancelled h.

Definition registerCleanupCallback (callback : nat)
    (type : option CallbackType) (h : t) : t :=
  set_cleanupCallbacks
    (cleanupCallbacks h ++ [mkCallback callback (default All type)])%list h.

(** [findIndex] and [splice(index, 1)]: the first element made from
    [callback] goes. *)
Fixpoint removeFirst (callback : nat) (callbacks : list CleanupCallback)
  : list CleanupCallback :=
  match callbacks with
  | [] => []
  | wrappedCallback :: rest =>
      if (cb_original wrappedCallback =? callback)%nat then rest
      else wrappedCallback :: removeFirst callback rest
  end.

Definition unregisterCleanupCallback (callback : nat) (h : t) : t :=
  set_cleanupCallbacks (removeFirst callback (cleanupCallbacks h)) h.

Definition reset (h : t) : t :=
  mkHandler false false false (cleanupCallbacks h) (cacheManager h) None
    (preservePartialResults h).

Definition shouldContinue (h : t) : bool := negb (isInterrupted h).
Definition shouldPause (h : t) : bool := isPaused h && negb (isCancelled h).
Definition shouldCancel (h : t) : bool := isCancelled h.

Section WithItems.
Context {R : Type} (jsonR : R -> string).

Definition cleanupPartialResults (fuel : nat) (h : t) : M R unit :=
  match cacheManager h, truthy (currentCacheKey h) with
  | true, Some key =>
      try_catch (clearCache jsonR fuel (Some key)) (fun _ => ret tt)
  | _, _ => ret tt
  end.

(** [handleCancel]: the flags are set before the first [await]; the
    callbacks are called once the clean-up of the cache has settled. *)
Definition handleCancel (fuel : nat) (h : t) : t * M R (list nat) :=
  if isCancelled h then (h, ret [])
  else
    let h := set_flags true (isPaused h) true h in
    (h,
     (if preservePartialResults h then ret tt
      else cleanupPartialResults fuel h) ;;
     ret (executeCleanupCallbacks OnCancel (cleanupCallbacks h))).

End WithItems.

(** The calls a client can make, and the handler after a sequence of
    them.  What [handleCancel] does to the handler does not depend on
    the cache. *)
Inductive Call :=
| CallSetCacheKey (key : string)
| CallSetCacheManager
| CallPause
| CallCancel
| CallUnmount
| CallResume
| CallRegister (callback : nat) (type : option CallbackType)
| CallUnregister (callback : nat)
| CallReset.

Definition after (h : t) (c : Call) : t :=
  match c with
  | CallSetCacheKey key => setCacheKey key h
  | CallSetCacheManager => setCacheManager h
  | CallPause => fst (handlePause h)
  | CallCancel => fst (handleCancel (R := unit) (fun _ => "") 0 h)
  | CallUnmount => fst (handleUnmount h)
  | CallResume => handleResume h
  | CallRegister callback type => registerCleanupCallback callback type h
  | CallUnregister callback => unregisterCleanupCallback callback h
  | CallReset => reset h
  end.

Definition afterAll (h : t) (calls : list Call) : t :=
  fold_left after calls h.

End Interrupt.

(** ** The formulas of the specification, and inputs of the examples *)

Module Spec.
Import JS.

(** Progress as the specification words it:
    floor(min(100, processedItems / totalItems * 100)). *)
Definition spec_progress (processedItems totalItems : Z) : Z :=
  Math_floor
    (Qmin 100 (inject_Z processedItems / inject_Z totalItems * 100)).

End Spec.

Module Inputs.

(** The integers [0 .. n-1]. *)
Definition upto (n : nat) : list Z := map Z.of_nat (seq 0 n).

Definition double (x : Z) : Z := 2 * x.

(** The progress carried by a result of [next()]. *)
Definition yieldedProgress {R} (r : Scheduler.IteratorResult R) : option Z :=
  match r with
  | Scheduler.Yielded (Scheduler.Partial _ prog) => Some prog
  | _ => None
  end.

(** A cache manager after a successful [initialize()], with the default
    configuration, an empty store and a store that never fails. *)
Definition freshManager {R} : World R :=
  mkWorld Recovery.init true Constants.DEFAULT_maxAge
    Constants.DEFAULT_maxSize ∅ ∅ ∅ 1700000000000 [] [] [] []
    EstimateUnavailable.

(** The same manager after [fallbackToNonCached()]. *)
Definition fallbackManager {R} : World R :=
  set_errorRecovery (snd (Recovery.fallbackToNonCached Recovery.init))
    freshManager.

(** The error [put] rejects with when the request fails on the quota of
    the origin: the wrapper prefixes the message of the request error. *)
Definition quotaError : JsError :=
  CacheError "Failed to put data: The quota has been exceeded." UNKNOWN_ERROR.

(** A fresh manager whose store rejects the next [k] writes that way. *)
Definition quotaManager {R} (k : nat) : World R :=
  set_putFaults (repeat (Some quotaError) k) freshManager.

(** The entry stored under a key, if it is one. *)
Definition storedEntry {R} (w : World R) (key : string)
  : option (CacheEntry R) :=
  match store w !! key with
  | Some (RawEntry e) => Some e
  | _ => None
  end.

(** An entry written at the time of [freshManager] and last accessed
    [age] seconds before. *)
Definition sampleEntry (i : nat) (age : Z) : CacheEntry Z :=
  mkEntry ("entry" ++ pretty i) [Z.of_nat i]
    (mkMetadata 1700000000000 (1700000000000 - 1000 * age) "h" "t" 6 500)
    [] true Constants.CACHE_VERSION.

(** A manager with [maxSize] = 10 whose store holds 15 valid entries,
    entry [i] last accessed [7 i mod 15] seconds ago, in an environment
    that reports 80% of the storage quota in use. *)
Definition fifteenEntries : World Z :=
  mkWorld Recovery.init true Constants.DEFAULT_maxAge 10 ∅ ∅
    (list_to_map
       (map (fun i =>
               ("entry" ++ pretty i,
                RawEntry (sampleEntry i (Z.of_nat (7 * i mod 15)))))
          (seq 0 15)))
    1700000000000 [] [] [] [] (EstimateOf 80 100).

(** The text of the transform [(x) => x * 2]. *)
Definition doubleText : string := "(x) => x * 2".

(** [JSON.stringify] of an integer. *)
Definition jsonZ (z : Z) : string := pretty z.

End Inputs.

(** * Notions the properties are stated with *)

(** ** States of a run *)

Module RunStates.
Import JS Scheduler.

Section WithTransform.
Context {T R : Type} (data : list T) (transformFn : T -> R) (batchSize : Z).

(** The index at which the generator tests [i < data.length] next. *)
Definition position (g : Generator R) : Z :=
  match gen_pc g with
  | AtStart => 0
  | AfterPauseYield => gen_i g
  | AfterPartialYield => gen_i g + batchSize
  | Finished => gen_i g
  end.

(** The run has processed the items below [pos] and has not returned. *)
Definition Running (pos : Z) (h : Hook R) : Prop :=
  exists g,
    generatorRef h = Some g
    /\ isCancelledRef h = false
    /\ result h = Some []
    /\ (gen_pc g = AtStart \/ gen_pc g = AfterPartialYield)
    /\ position g = pos
    /\ 0 <= pos
    /\ gen_results g = map transformFn (take (Z.to_nat pos) data).

(** The generator has returned and its value is the result of the hook. *)
Definition Completed (h : Hook R) : Prop :=
  exists g,
    generatorRef h = Some g
    /\ gen_pc g = Finished
    /\ isCancelledRef h = false
    /\ isPausedRef h = false
    /\ scheduled h = O
    /\ result h = Some (map transformFn data).

(** What every admissible schedule keeps: the run has completed, or it is
    in progress with at most one continuation waiting, and with exactly
    one unless it is paused. *)
Definition Inv (h : Hook R) : Prop :=
  Completed h
  \/ exists pos,
       Running pos h
       /\ (scheduled h <= 1)%nat
       /\ (isPausedRef h = false -> scheduled h = 1%nat).

(** What [pausedMidRun] asks of one event. *)
Definition admissible (h : Hook R) (e : Event) : bool :=
  match e with
  | Fire _ => true
  | PauseCall => negb (finished h)
  | ResumeCall => negb (isPausedRef h) || (scheduled h =? 0)%nat
  end.

End WithTransform.
End RunStates.

(** ** Parts of a key *)

Module KeyParts.
Import JS Constants Cache.

Section Keys.
Context {T : Type} (jsonT : T -> string).

Definition quickId (data : list T) (fnString : string) : string :=
  toString10 (Z.of_nat (length data)) ++ "_"
  ++ toString10 (Z.of_nat (String.length fnString)).

(** The key that [generateKey] computes when the memo has no entry. *)
Definition computedKey (data : list T) (fnString : string) : string :=
  CACHE_VERSION ++ "_" ++ createOptimizedDataHash jsonT data ++ "_"
  ++ createOptimizedFunctionHash fnString.

End Keys.
End KeyParts.

(** ** Stores and entries *)

Module StoreStates.
Import JS Constants Cache.

Section Store.
Context {R : Type} (jsonR : R -> string).
Implicit Type w : World R.

(** No failure is queued for any operation of the store. *)
Definition quiet w : Prop :=
  putFaults w = [] /\ getFaults w = [] /\ deleteFaults w = []
  /\ keysFaults w = [].

(** The entry [getOrCreateCacheEntry] makes for a key without one. *)
Definition newEntry w (key : string) (data : list R) : CacheEntry R :=
  mkEntry key []
    (mkMetadata (now w) (now w) (createHash (stringify_array jsonR data)) "" 0
       (if config_maxSize w =? 0 then 500 else config_maxSize w))
    [] false CACHE_VERSION.

(** An entry that [validateCacheEntry] accepts. *)
Definition wellFormed (e : CacheEntry R) : Prop :=
  (String.length (entry_key e) =? 0)%nat = false
  /\ (String.length (entry_version e) =? 0)%nat = false
  /\ startsWith (entry_version e) (before_dot CACHE_VERSION) = true.

(** The record [markComplete] writes over the entry it got. *)
Definition completedEntry w (e : CacheEntry R) (totalResult : list R)
  : CacheEntry R :=
  mkEntry (entry_key e) totalResult
    (mkMetadata (meta_timestamp (entry_metadata e)) (now w)
       (meta_dataHash (entry_metadata e))
       (meta_transformHash (entry_metadata e))
       (calculateDataSize jsonR totalResult)
       (meta_batchSize (entry_metadata e)))
    (entry_batches e) true (entry_version e).

(** The batch [upsertBatch] builds from a queued one. *)
Definition batchOf (q : QueuedBatch R) : CacheBatch R :=
  mkBatch (queued_index q) (compressBatchData jsonR (queued_data q))
    (queued_timestamp q) (calculateDataSize jsonR (queued_data q)).

(** The entry a flush writes, from the entry it got and the queue. *)
Definition flushedEntry w (e0 : CacheEntry R) (qs : list (QueuedBatch R))
  : CacheEntry R :=
  let batches :=
    sort_by batch_index (fold_left (upsertBatch jsonR) qs (entry_batches e0)) in
  let data := combineBatchData batches in
  mkEntry (entry_key e0) data
    (mkMetadata (meta_timestamp (entry_metadata e0)) (now w)
       (meta_dataHash (entry_metadata e0))
       (meta_transformHash (entry_metadata e0))
       (calculateDataSize jsonR data)
       (meta_batchSize (entry_metadata e0)))
    batches (entry_isComplete e0) (entry_version e0).

(** The state after that flush. *)
Definition flushedWorld w (key : string) (e : CacheEntry R) : World R :=
  let w1 := set_store (<[key := RawEntry e]> (store w)) w in
  let w2 :=
    set_errorRecovery
      (Recovery.resetRetryCount (errorRecovery w1)
         ("flush_batch_queue_" ++ key)) w1 in
  set_batchQueue (<[key := ([], false)]> (batchQueue w2)) w2.

(** What the analysis says about a key, read off the store. *)
Definition classify w (key : string) (raw : option (Raw R))
  : Verdict (R:=R) :=
  match raw with
  | Some (RawEntry entry) =>
      if (String.length (entry_key entry) =? 0)%nat
         || (String.length (entry_version entry) =? 0)%nat
         || negb (startsWith (entry_version entry) (before_dot CACHE_VERSION))
      then IsCorrupted key
      else if now w - meta_timestamp (entry_metadata entry) >? config_maxAge w
      then IsExpired key entry
      else
        IsValid
          (mkValid key entry (meta_lastAccessed (entry_metadata entry))
             (if meta_totalSize (entry_metadata entry) =? 0
              then calculateDataSize jsonR (entry_data entry)
              else meta_totalSize (entry_metadata entry)))
  | _ => IsCorrupted key
  end.

(** The verdicts for all keys of the store, in the order of [getAllKeys]. *)
Definition verdicts w : list (Verdict (R:=R)) :=
  map (fun kv => classify w (fst kv) (Some (snd kv))) (map_to_list (store w)).

(** The valid entries: present, well formed and not expired. *)
Definition validEntries w : list (ValidEntry (R:=R)) := validOf (verdicts w).

(** The store without the keys of a list. *)
Definition deleteAll (keys : list string) (st : gmap string (Raw R))
  : gmap string (Raw R) :=
  fold_left (fun s k => delete k s) keys st.

(** The keys [cleanupOldEntriesIfNeeded] deletes. *)
Definition evictedKeys w : list string :=
  let sortedEntries := sort_by valid_lastAccessed (validEntries w) in
  let targetCount := Math_floor (inject_Z (config_maxSize w) * (3 # 4)) in
  let entriesToRemove :=
    Z.max 0 (Z.of_nat (length sortedEntries) - targetCount) in
  map valid_key (take (Z.to_nat entriesToRemove) sortedEntries).

(** The store once the corrupted, the expired and the evicted keys are
    deleted. *)
Definition sweptStore w : gmap string (Raw R) :=
  deleteAll (evictedKeys w)
    (deleteAll (expiredOf (verdicts w))
       (deleteAll (corruptedOf (verdicts w)) (store w))).

(** The storage is not under pressure: where the environment reports an
    estimate, the usage is at most 90% of the quota. *)
Definition relaxed (est : StorageEstimate) : Prop :=
  match est with
  | EstimateOf usage quota =>
      0 <= usage /\ 0 <= quota /\ 10 * usage <= 9 * quota
  | _ => True
  end.

End Store.
End StoreStates.

(** ** Sequences of calls *)

Module RecoveryRuns.
Import Recovery.

(** [handleError] called for one operation with one error after the
    other. *)
Definition handleErrors (s : t) (operationId : string)
    (errors : list JsError) : t :=
  fold_left (fun s error => snd (handleError s error operationId)) errors s.

End RecoveryRuns.

Module GeneratorRuns.
Import JS Scheduler.

Section WithTransform.
Context {T R : Type} (data : list T) (transformFn : T -> R) (batchSize : Z).

(** [for (const value of generator)], stopped after [fuel] calls of
    [next()], with no pause and no cancellation: the values yielded, and
    the value returned if the generator has returned by then. *)
Fixpoint drain (fuel : nat) (g : Generator R)
  : list (YieldValue R) * option (option (list R)) :=
  match fuel with
  | O => ([], None)
  | S fuel' =>
      match next data transformFn batchSize g false false with
      | (Done value, _) => ([], Some value)
      | (Yielded y, g') =>
          let '(ys, r) := drain fuel' g' in (y :: ys, r)
      end
  end.

End WithTransform.

Definition partialOf {R} (y : YieldValue R) : list R :=
  match y with
  | Partial partial _ => partial
  | PauseSignal => []
  end.

Definition progressOf {R} (y : YieldValue R) : Z :=
  match y with
  | Partial _ prog => prog
  | PauseSignal => 0
  end.

End GeneratorRuns.

(** ** What an operation of the cache manager leaves as it is *)

Module Frames.
Import JS Constants Cache.

Section Frames.
Context {R : Type}.
Implicit Type w : World R.

(** [w'] is [w] up to the state of the error recovery, the failures
    consumed since, and the values the store holds under the keys of
    [touched]. *)
Definition within (touched : string -> Prop) w w' : Prop :=
  isInitialized w' = isInitialized w
  /\ config_maxAge w' = config_maxAge w
  /\ config_maxSize w' = config_maxSize w
  /\ batchQueue w' = batchQueue w
  /\ keyCache w' = keyCache w
  /\ now w' = now w
  /\ storageEstimate w' = storageEstimate w
  /\ (forall k, ~ touched k -> store w' !! k = store w !! k)
  /\ putFaults w' `suffix_of` putFaults w
  /\ getFaults w' `suffix_of` getFaults w
  /\ deleteFaults w' `suffix_of` deleteFaults w
  /\ keysFaults w' `suffix_of` keysFaults w.

(** An operation of the manager that always settles, does not consult
    the error recovery, and writes under the keys of [touched] only. *)
Definition settles {A} (touched : string -> Prop) (m : M R A) : Prop :=
  forall w,
    fst (m w) <> Pending
    /\ errorRecovery (snd (m w)) = errorRecovery w
    /\ within touched w (snd (m w)).

(** A value of the store that [validateCacheEntry] rejects. *)
Definition malformed (raw : Raw R) : Prop :=
  match raw with
  | RawOther => True
  | RawEntry e =>
      entry_key e = ""
      \/ startsWith (entry_version e) (before_dot CACHE_VERSION) = false
  end.

(** [checkCache(key)] called [n] times in a row. *)
Definition lookups (key : string) (n : nat) w : World R :=
  Nat.iter n (fun w => snd (checkCache key w)) w.

End Frames.

(** Every retry count is a count. *)
Definition sane (s : Recovery.t) : Prop :=
  forall id, 0 <= Recovery.getRetryCount s id.

End Frames.

Module SweepStates.
Import JS Constants Cache.

(** No quota sweep is due: the environment has no storage estimate, or
    it reports a usage of at most 75% of the quota. *)
Definition calm (est : StorageEstimate) : Prop :=
  match est with
  | EstimateUnavailable => True
  | EstimateRejects _ => False
  | EstimateOf usage quota =>
      0 <= usage /\ 0 <= quota /\ 4 * usage <= 3 * quota
  end.

End SweepStates.

(** ** The items the hash of a long array reads *)

Module KeySamples.
Import JS Constants Cache.

(** The positions of an array of more than 1000 items that
    [createOptimizedDataHash] reads: the first, the middle and the last
    one, and every [step]-th one. *)
Definition sampledIndices (len : Z) : list Z :=
  let sampleSize := Z.min 100 (Math_ceil (inject_Z len * (1 # 100))) in
  let step := Math_floor (inject_Z len / inject_Z sampleSize) in
  [0; Math_floor (inject_Z len / 2); len - 1]
  ++ sample_indices (Z.to_nat len) 0 step len.

End KeySamples.

(** * Properties *)

(** ** Retry bookkeeping *)

Module RecoveryFacts.
Import Recovery Constants.

Lemma getRetryCount_increment s id :
  getRetryCount (snd (incrementRetryCount s id)) id = getRetryCount s id + 1.
Proof.
  unfold incrementRetryCount, getRetryCount; simpl.
  by rewrite lookup_insert_eq.
Qed.

Lemma fallbackMode_increment s id :
  fallbackMode (snd (incrementRetryCount s id)) = fallbackMode s.
Proof. reflexivity. Qed.

Lemma getRetryCount_increments k s id :
  getRetryCount (increments k id s) id = getRetryCount s id + Z.of_nat k.
Proof.
  induction k as [|k IH]; cbn [increments].
  - lia.
  - rewrite getRetryCount_increment, IH. lia.
Qed.

Lemma fallbackMode_increments k s id :
  fallbackMode (increments k id s) = fallbackMode s.
Proof.
  induction k as [|k IH]; cbn [increments]; [done|].
  by rewrite fallbackMode_increment.
Qed.

(** C9.  For an operation id without a recorded count, and outside the
    fallback mode, [shouldRetry] holds after 0, 1 and 2 increments and
    fails after the third; the delays computed after 0, 1 and 2
    increments are 1000, 2000 and 4000 ms. *)
Theorem C9_retry_exhaustion (s : Recovery.t) (id : string) :
  fallbackMode s = false ->
  retryCount s !! id = None ->
  shouldRetry (increments 0 id s) id = true
  /\ shouldRetry (increments 1 id s) id = true
  /\ shouldRetry (increments 2 id s) id = true
  /\ shouldRetry (increments 3 id s) id = false
  /\ (forall k, (3 <= k)%nat -> shouldRetry (increments k id s) id = false)
  /\ calculateRetryDelay (increments 0 id s) id = 1000
  /\ calculateRetryDelay (increments 1 id s) id = 2000
  /\ calculateRetryDelay (increments 2 id s) id = 4000.
Proof.
  intros Hfb Hnone.
  assert (H0 : getRetryCount s id = 0)
    by (unfold getRetryCount; by rewrite Hnone).
  assert (Hc : forall k, getRetryCount (increments k id s) id = Z.of_nat k)
    by (intros k; rewrite getRetryCount_increments, H0; lia).
  assert (Hs : forall k, shouldRetry (increments k id s) id
                           = (Z.of_nat k <? MAX_RETRIES)).
  { intros k. unfold shouldRetry.
    rewrite Hc, fallbackMode_increments, Hfb. apply andb_true_r. }
  assert (Hd : forall k, calculateRetryDelay (increments k id s) id
                           = RETRY_DELAY * BACKOFF_MULTIPLIER ^ Z.of_nat k).
  { intros k. unfold calculateRetryDelay. by rewrite Hc. }
  repeat split; rewrite ?Hs, ?Hd; try reflexivity.
  intros k Hk. rewrite Hs. unfold MAX_RETRIES. apply Z.ltb_ge. lia.
Qed.

Lemma C9_retry_exhaustion_witness :
  shouldRetry (increments 3 "cache_check_k" init) "cache_check_k" = false
  /\ calculateRetryDelay (increments 2 "cache_check_k" init) "cache_check_k"
     = 4000.
Proof.
  destruct (C9_retry_exhaustion init "cache_check_k" eq_refl eq_refl)
    as (_ & _ & _ & H3 & _ & _ & _ & H7).
  split; assumption.
Defined.
End RecoveryFacts.

(** ** Progress and batch indices of the run loop *)

Module SchedulerFacts.
Import JS Scheduler Spec Inputs RunStates.

Lemma Math_round_ratio (p n : Z) :
  0 < n ->
  Math_round (inject_Z p / inject_Z n * 100) = (200 * p + n) / (2 * n).
Proof.
  intros Hn. unfold Math_round.
  destruct n as [|m|m]; try lia.
  assert (E : (inject_Z p / inject_Z (Z.pos m) * 100 + (1 # 2)
               == (200 * p + Z.pos m) # (2 * m))%Q).
  { rewrite <- Qmake_Qdiv. unfold Qeq, Qplus, Qmult; simpl. lia. }
  rewrite E. reflexivity.
Qed.

Lemma length_slice {A} (i b : Z) (xs : list A) :
  0 <= i -> 0 <= b ->
  Z.of_nat (length (slice i (i + b) xs))
  = Z.min b (Z.max 0 (Z.of_nat (length xs) - i)).
Proof.
  intros Hi Hb. unfold slice.
  rewrite length_take, length_drop. lia.
Qed.

Section Progress.
Context {T R : Type} (data : list T) (transformFn : T -> R) (batchSize : Z).

Lemma currentProgress_eq (processed : Z) :
  0 < dataLength data ->
  currentProgress data processed
  = Z.min 100 ((200 * processed + dataLength data) / (2 * dataLength data)).
Proof. intros Hn. unfold currentProgress. by rewrite Math_round_ratio. Qed.


End Progress.



(** C4.  The index handed to [storeBatch] is derived from the rounded
    progress.  With 1000 items and batches of one item, the first four
    batches of the run are all stored under index 0; with four items and
    batches of one item the indices are 1, 2, 3, 4 and never 0. *)
Theorem C4_batch_index_from_progress :
  map fst (stored (run (upto 1000) double 1 true false
                     (start : Hook Z) [Fire 3]))
  = [0; 0; 0; 0]
  /\ map snd (stored (run (upto 1000) double 1 true false
                        (start : Hook Z) [Fire 3]))
     = [[0]; [2]; [4]; [6]]
  /\ map fst (stored (run (upto 4) double 1 true false
                        (start : Hook Z) [Fire 3]))
     = [1; 2; 3; 4].
Proof. repeat split; vm_compute; reflexivity. Qed.

(** *** Pause and resume *)

Section PauseResume.
Context {T R : Type} (data : list T) (transformFn : T -> R) (batchSize : Z).
Context (cacheOn cancelsWaiting : bool).
Hypothesis batchSize_pos : 0 < batchSize.

Local Abbreviation n := (dataLength data).
Local Abbreviation next' := (next data transformFn batchSize).
Local Abbreviation slices' := (slices data transformFn batchSize cacheOn).
Local Abbreviation step' :=
  (step data transformFn batchSize cacheOn cancelsWaiting).
Local Abbreviation run' :=
  (run data transformFn batchSize cacheOn cancelsWaiting).
Local Abbreviation full := (map transformFn data).
Local Abbreviation position := (RunStates.position batchSize).
Local Abbreviation Running := (RunStates.Running data transformFn batchSize).
Local Abbreviation Completed := (RunStates.Completed data transformFn).
Local Abbreviation Inv := (RunStates.Inv data transformFn batchSize).

Lemma take_chunk (pos : Z) :
  0 <= pos ->
  (map transformFn (take (Z.to_nat pos) data)
   ++ map transformFn (slice pos (pos + batchSize) data))%list
  = map transformFn (take (Z.to_nat (pos + batchSize)) data).
Proof.
  intros Hpos. unfold slice. rewrite <- map_app, take_take_drop.
  f_equal. f_equal. lia.
Qed.

Lemma next_running (g : Generator R) (pos : Z) :
  (gen_pc g = AtStart \/ gen_pc g = AfterPartialYield) ->
  position g = pos ->
  next' g false false = loopFrom data transformFn batchSize pos
                          (gen_results g) false false.
Proof.
  intros [Hpc|Hpc] Hpos; unfold next, position in *; rewrite Hpc in *;
    by subst pos.
Qed.

Lemma finished_Completed h : Completed h -> finished h = true.
Proof. intros (g & Hg & Hpc & _). unfold finished. by rewrite Hg, Hpc. Qed.

Lemma finished_Running pos h : Running pos h -> finished h = false.
Proof.
  intros (g & Hg & _ & _ & Hpc & _). unfold finished. rewrite Hg.
  by destruct Hpc as [-> | ->].
Qed.

Lemma forward_fields partial prog (h : Hook R) :
  let h' := forward data batchSize cacheOn partial prog h in
  generatorRef h' = generatorRef h
  /\ isCancelledRef h' = isCancelledRef h
  /\ isPausedRef h' = isPausedRef h
  /\ scheduled h' = scheduled h
  /\ result h' = result h.
Proof. unfold forward. by destruct (cacheOn && _). Qed.

(** The iteration of the loop of [executeStep] that receives a batch. *)
Lemma iteration_partial (h : Hook R) (g : Generator R) (pos : Z) partial prog :
  Running pos h ->
  generatorRef h = Some g ->
  let g' :=
    mkGen pos
      (gen_results g ++ map transformFn (slice pos (pos + batchSize) data))%list
      AfterPartialYield in
  let h' := forward data batchSize cacheOn partial prog (set_generator g' h) in
  Running (pos + batchSize) h'
  /\ isPausedRef h' = isPausedRef h
  /\ scheduled h' = scheduled h.
Proof.
  intros (g0 & Hg0 & Hc & Hres & Hpc & Hpos & Hpos0 & Hgr) Hg g' h'.
  assert (g0 = g) by congruence. subst g0.
  destruct (forward_fields partial prog (set_generator g' h))
    as (F1 & F2 & F3 & F4 & F5).
  fold h' in F1, F2, F3, F4, F5. simpl in F1, F2, F3, F4, F5.
  split; [|split; congruence].
  exists g'. rewrite F1, F2, F5. repeat split; try done.
  - by right.
  - lia.
  - simpl. rewrite Hgr. by apply take_chunk.
Qed.

Lemma Running_set_scheduled k pos (h : Hook R) :
  Running pos h -> Running pos (set_scheduled k h).
Proof. intros (g & H). by exists g. Qed.

(** The iteration of the loop of [executeStep] that sees the generator
    return. *)
Lemma iteration_done (h : Hook R) (g : Generator R) (pos : Z) :
  Running pos h ->
  generatorRef h = Some g ->
  isPausedRef h = false ->
  scheduled h = O ->
  n <= pos ->
  Completed
    (complete cacheOn (Some (gen_results g))
       (set_generator (mkGen pos (gen_results g) Finished) h)).
Proof.
  intros (g0 & Hg0 & Hc & Hres & Hpc & Hpos & Hpos0 & Hgr) Hg Hp Hs Hge.
  assert (g0 = g) by congruence. subst g0.
  unfold complete. simpl. rewrite Hc. eexists. simpl.
  repeat split; try done.
  rewrite Hgr, take_ge; [done|]. unfold dataLength in Hge. lia.
Qed.

(** One slice, entered with no continuation waiting and not paused. *)
Lemma slices_spec (budget : nat) : forall (h : Hook R) (pos : Z),
  Running pos h ->
  isPausedRef h = false ->
  scheduled h = O ->
  (Completed (slices' budget h) /\ n <= pos + Z.of_nat budget * batchSize)
  \/ (Running (pos + (Z.of_nat budget + 1) * batchSize) (slices' budget h)
      /\ isPausedRef (slices' budget h) = false
      /\ scheduled (slices' budget h) = 1%nat
      /\ pos + Z.of_nat budget * batchSize < n).
Proof.
  induction budget as [|budget IH]; intros h pos Hrun Hp Hs;
    pose proof Hrun as (g & Hg & Hc & Hres & Hpc & Hpos & Hpos0 & Hgr);
    cbn [slices]; rewrite Hp, Hc, Hg;
    rewrite (next_running g pos Hpc Hpos); unfold loopFrom;
    destruct (Z.ltb_spec pos n) as [Hlt|Hge].
  - right.
    edestruct (iteration_partial h g pos) as (HR & HP & HS); [done..|].
    split; [|split; [|split]].
    + apply Running_set_scheduled.
      replace (pos + (Z.of_nat 0 + 1) * batchSize) with (pos + batchSize)
        by lia.
      exact HR.
    + simpl. congruence.
    + simpl. congruence.
    + lia.
  - left. split; [|lia]. by apply (iteration_done h g pos).
  - edestruct (iteration_partial h g pos) as (HR & HP & HS); [done..|].
    edestruct (IH _ (pos + batchSize) HR) as [[HC Hle]|(HR' & HP' & HS' & Hlt')];
      [congruence..| |].
    + left. split; [exact HC|]. lia.
    + right. split; [|split; [|split]]; try done; try lia.
      replace (pos + (Z.of_nat (S budget) + 1) * batchSize)
        with (pos + batchSize + (Z.of_nat budget + 1) * batchSize) by lia.
      exact HR'.
  - left. split; [|lia]. by apply (iteration_done h g pos).
Qed.

Lemma step_fire (h : Hook R) (budget k : nat) (g : Generator R) :
  scheduled h = S k ->
  generatorRef h = Some g ->
  isCancelledRef h = false ->
  step' h (Fire budget) = slices' budget (set_scheduled k h).
Proof.
  intros Hs Hg Hc. cbn [step]. rewrite Hs. unfold executeStep.
  cbn [generatorRef isCancelledRef set_scheduled]. by rewrite Hg, Hc.
Qed.

Lemma slices_paused (budget : nat) (h : Hook R) :
  isPausedRef h = true -> slices' budget h = set_isComputing false h.
Proof. intros Hp. destruct budget; cbn [slices]; by rewrite Hp. Qed.

Lemma Inv_start : Inv (start : Hook R).
Proof.
  right. exists 0. split; [|split; [simpl; lia|done]].
  exists createGenerator. repeat split; try done. by left.
Qed.

Lemma Running_start : Running 0 (start : Hook R).
Proof. exists createGenerator. repeat split; try done. by left. Qed.

Lemma step_Completed (h : Hook R) (e : Event) :
  Completed h -> admissible h e = true -> step' h e = h.
Proof.
  intros HC Hok. pose proof (finished_Completed h HC) as Hfin.
  unfold finished in Hfin.
  destruct HC as (g & Hg & Hpc & Hc & Hp & Hs & Hres).
  destruct e as [budget| |]; simpl in *.
  - by rewrite Hs.
  - unfold finished in Hok. rewrite Hg, Hpc in Hok. done.
  - unfold resume. by rewrite Hp.
Qed.

Lemma step_Inv (h : Hook R) (e : Event) :
  Inv h -> admissible h e = true -> Inv (step' h e).
Proof.
  intros [HC|(pos & HR & Hle & Hsched)] Hok.
  { rewrite step_Completed by done. by left. }
  pose proof HR as (g & Hg & Hc & Hres & Hpc & Hpos & Hpos0 & Hgr).
  destruct e as [budget| |]; simpl.
  - destruct (scheduled h) as [|k] eqn:Hs.
    { right. exists pos. rewrite Hs. done. }
    assert (k = O) by lia. subst k.
    unfold executeStep. simpl. rewrite Hg, Hc.
    destruct (isPausedRef h) eqn:Hp.
    + rewrite (slices_paused budget (set_scheduled 0 h) Hp).
      right. exists pos. split; [by exists g|]. simpl. split; [lia|congruence].
    + destruct (slices_spec budget (set_scheduled 0 h) pos
                  (Running_set_scheduled 0 pos h HR) Hp eq_refl)
        as [[HC _]|(HR' & HP' & HS' & _)].
      * by left.
      * right. eexists. split; [exact HR'|]. rewrite HS'. split; [lia|done].
  - right. exists pos. split; [by exists g|]. simpl.
    split; [destruct (cancelsWaiting && _); lia|done].
  - unfold resume. destruct (isPausedRef h) eqn:Hp; simpl.
    + rewrite Hg. simpl in Hok. rewrite Hp in Hok. simpl in Hok.
      apply Nat.eqb_eq in Hok.
      right. exists pos. split; [by exists g|]. simpl. rewrite Hok.
      split; [lia|done].
    + right. exists pos. rewrite Hp. auto.
Qed.

Lemma run_Inv (events : list Event) : forall h : Hook R,
  Inv h ->
  pausedMidRun data transformFn batchSize cacheOn cancelsWaiting h events
  = true ->
  Inv (run' h events).
Proof.
  induction events as [|e events IH]; intros h HI Hok; [done|].
  cbn [pausedMidRun] in Hok. apply andb_prop in Hok as [Hok1 Hok2].
  unfold run. cbn [fold_left]. apply IH; [|done]. by apply step_Inv.
Qed.

Lemma Inv_result (h : Hook R) :
  Inv h -> finished h = true -> result h = Some full.
Proof.
  intros [HC|(pos & HR & _)] Hfin.
  - by destruct HC as (g & _ & _ & _ & _ & _ & Hres).
  - by rewrite (finished_Running pos h HR) in Hfin.
Qed.

Lemma run_Completed (events : list Event) (h : Hook R) :
  Forall (fun e => match e with PauseCall => False | _ => True end) events ->
  Completed h -> run' h events = h.
Proof.
  induction 1 as [|e events He _ IH]; intros HC; [done|].
  unfold run. cbn [fold_left]. rewrite step_Completed; [by apply IH|done|].
  destruct e; simpl; try done.
  destruct HC as (g & _ & _ & _ & Hp & _). by rewrite Hp.
Qed.

(** A slice with room for every item left completes the run. *)
Lemma fire_all (h : Hook R) (pos : Z) :
  Running pos h ->
  isPausedRef h = false ->
  scheduled h = 1%nat ->
  Completed (step' h (Fire (length data))).
Proof.
  intros HR Hp Hs. pose proof HR as (g & Hg & Hc & _ & _ & _ & Hpos0 & _).
  rewrite (step_fire h (length data) 0 g Hs Hg Hc).
  destruct (slices_spec (length data) (set_scheduled 0 h) pos
              (Running_set_scheduled 0 pos h HR) Hp eq_refl)
    as [[HC _]|(_ & _ & _ & Hlt)]; [done|].
  unfold dataLength in Hlt. nia.
Qed.

(** Every run of the scenario can be brought to completion: let the
    waiting continuation run, resume, and give the loop the time it needs. *)
Lemma finish_Inv (h : Hook R) :
  Inv h -> Completed (run' h [Fire 0; ResumeCall; Fire (length data)]).
Proof.
  intros [HC|(pos & HR & Hle & Hsched)].
  { rewrite run_Completed; [done| |done]. by repeat constructor. }
  pose proof HR as (g & Hg & Hc & Hres & Hpc & Hpos & Hpos0 & Hgr).
  unfold run. cbn [fold_left].
  destruct (isPausedRef h) eqn:Hp.
  - (* paused: the waiting continuation, if any, returns at once *)
    set (h1 := step' h (Fire 0)).
    assert (H1 : Running pos h1 /\ isPausedRef h1 = true /\ scheduled h1 = O).
    { subst h1. destruct (scheduled h) as [|k] eqn:Hs.
      - cbn [step]. rewrite Hs. done.
      - rewrite (step_fire h 0 k g Hs Hg Hc).
        rewrite (slices_paused 0 (set_scheduled k h) Hp).
        split; [by exists g|]. split; [done|]. simpl. lia. }
    destruct H1 as (HR1 & Hp1 & Hs1).
    pose proof HR1 as (g1 & Hg1 & _).
    assert (E : step' h1 ResumeCall
                = mkHook (generatorRef h1) (isCancelledRef h1) false
                    (S (scheduled h1)) (result h1) (progress h1) true
                    (stored h1) (markedComplete h1)).
    { cbn [step]. unfold resume. by rewrite Hp1, Hg1. }
    rewrite E. apply (fire_all _ pos).
    + destruct HR1 as (g' & ? & ? & ? & ? & ? & ? & ?). by exists g'.
    + done.
    + simpl. by rewrite Hs1.
  - (* running: one more batch, then the rest *)
    specialize (Hsched eq_refl).
    set (h1 := step' h (Fire 0)).
    assert (H1 : Completed h1
                 \/ exists pos', Running pos' h1 /\ isPausedRef h1 = false
                                 /\ scheduled h1 = 1%nat).
    { subst h1. rewrite (step_fire h 0 0 g Hsched Hg Hc).
      destruct (slices_spec 0 (set_scheduled 0 h) pos
                  (Running_set_scheduled 0 pos h HR) Hp eq_refl)
        as [[HC _]|(HR' & HP' & HS' & _)].
      - by left.
      - right. eauto. }
    destruct H1 as [HC|(pos' & HR1 & Hp1 & Hs1)].
    + change (Completed (run' h1 [ResumeCall; Fire (length data)])).
      rewrite run_Completed; [done| |done]. by repeat constructor.
    + replace (step' h1 ResumeCall) with h1
        by (simpl; unfold resume; by rewrite Hp1).
      by apply (fire_all _ pos').
Qed.

Lemma uninterrupted_Completed :
  Completed (uninterrupted data transformFn batchSize cacheOn cancelsWaiting).
Proof.
  unfold uninterrupted.
  assert (H : forall k (h : Hook R) pos,
             Running pos h -> isPausedRef h = false -> scheduled h = 1%nat ->
             Completed (run' h (repeat (Fire 0) k))
             \/ (Running (pos + Z.of_nat k * batchSize)
                   (run' h (repeat (Fire 0) k))
                 /\ (k = O \/ pos + (Z.of_nat k - 1) * batchSize < n))).
  { induction k as [|k IH]; intros h pos HR Hp Hs.
    - right. split; [|by left].
      replace (pos + Z.of_nat 0 * batchSize) with pos by lia. done.
    - pose proof HR as (g & Hg & Hc & _).
      unfold run. cbn [repeat fold_left].
      set (h1 := step' h (Fire 0)).
      assert (H1 : Completed h1
                   \/ (Running (pos + batchSize) h1 /\ isPausedRef h1 = false
                       /\ scheduled h1 = 1%nat /\ pos < n)).
      { subst h1. rewrite (step_fire h 0 0 g Hs Hg Hc).
        destruct (slices_spec 0 (set_scheduled 0 h) pos
                    (Running_set_scheduled 0 pos h HR) Hp eq_refl)
          as [[HC _]|(HR' & HP' & HS' & Hlt)].
        - by left.
        - right. replace (pos + batchSize)
            with (pos + (Z.of_nat 0 + 1) * batchSize) by lia.
          repeat split; try done. lia. }
      destruct H1 as [HC|(HR1 & Hp1 & Hs1 & Hlt)].
      + left. change (Completed (run' h1 (repeat (Fire 0) k))).
        rewrite run_Completed; [done| |done].
        clear. induction k; simpl; by constructor.
      + destruct (IH h1 (pos + batchSize) HR1 Hp1 Hs1) as [HC|[HR2 Hk]].
        * by left.
        * right. split.
          -- replace (pos + Z.of_nat (S k) * batchSize)
               with (pos + batchSize + Z.of_nat k * batchSize) by lia.
             exact HR2.
          -- right. destruct Hk as [->|Hk]; lia. }
  destruct (H (S (length data)) start 0 Running_start eq_refl eq_refl)
    as [HC|[_ [Hk|Hk]]]; [done|done|].
  unfold dataLength in Hk. nia.
Qed.


End PauseResume.



End SchedulerFacts.

(** ** Key derivation *)

Module KeyFacts.
Import JS Constants Cache Inputs KeyParts.

Section Keys.
Context {T R : Type} (jsonT : T -> string).
Local Abbreviation computedKey := (KeyParts.computedKey jsonT).

Lemma generateKey_hit (data : list T) fnString (w : World R) key :
  keyCache w !! quickId data fnString = Some key ->
  generateKey jsonT data fnString w = (Ok key, w).
Proof. intros H. unfold generateKey. fold (quickId data fnString). by rewrite H. Qed.

(** Two calls in a row with the same arguments return the same key. *)
Lemma generateKey_deterministic (data : list T) fnString (w : World R) :
  fst (generateKey jsonT data fnString
         (snd (generateKey jsonT data fnString w)))
  = fst (generateKey jsonT data fnString w).
Proof.
  unfold generateKey at 2 3. fold (quickId data fnString).
  destruct (keyCache w !! quickId data fnString) as [key|] eqn:Hk; simpl.
  - by rewrite (generateKey_hit _ _ _ key).
  - fold (computedKey data fnString).
    destruct (size (keyCache w) <? 1000)%nat; simpl.
    + rewrite (generateKey_hit _ _ _ (computedKey data fnString)); [done|].
      simpl. by rewrite lookup_insert_eq.
    + unfold generateKey. fold (quickId data fnString). rewrite Hk.
      by destruct (size (keyCache w) <? 1000)%nat.
Qed.

(** Once a key is memoised, every array of the same length, with a
    transform whose text has the same length, gets that key, whatever its
    elements are. *)
Lemma generateKey_memo (data1 data2 : list T) fn1 fn2 (w : World R) :
  length data1 = length data2 ->
  String.length fn1 = String.length fn2 ->
  keyCache w !! quickId data1 fn1 = None ->
  (size (keyCache w) < 1000)%nat ->
  fst (generateKey jsonT data2 fn2 (snd (generateKey jsonT data1 fn1 w)))
  = fst (generateKey jsonT data1 fn1 w).
Proof.
  intros Hlen Hfn Hk Hsize.
  unfold generateKey at 2 3. fold (quickId data1 fn1). rewrite Hk.
  apply Nat.ltb_lt in Hsize. rewrite Hsize. simpl.
  rewrite (generateKey_hit _ _ _ (computedKey data1 fn1)); [done|].
  simpl. unfold quickId. rewrite <- Hlen, <- Hfn. apply lookup_insert_eq.
Qed.

End Keys.

(** C3.  On one cache manager, the key of the integers 0 .. 1000 under
    [(x) => x * 2] is computed and memoised; the same array with its
    first, its middle or its last element replaced by 7777 then gets the
    same key from the memo, although the key computed for each altered
    array on a manager without that memo entry is a different one. *)
Theorem C3_memo_returns_key_of_other_data :
  let data := upto 1001 in
  let w1 := snd (generateKey jsonZ data doubleText (freshManager : World Z)) in
  fst (generateKey jsonZ data doubleText (freshManager : World Z))
  = Ok "1.0.0_qrr7qw_jlvdni"
  /\ fst (generateKey jsonZ (<[0%nat := 7777]> data) doubleText w1)
     = Ok "1.0.0_qrr7qw_jlvdni"
  /\ fst (generateKey jsonZ (<[500%nat := 7777]> data) doubleText w1)
     = Ok "1.0.0_qrr7qw_jlvdni"
  /\ fst (generateKey jsonZ (<[1000%nat := 7777]> data) doubleText w1)
     = Ok "1.0.0_qrr7qw_jlvdni"
  /\ fst (generateKey jsonZ (<[0%nat := 7777]> data) doubleText
            (freshManager : World Z))
     = Ok "1.0.0_a0d8ww_jlvdni"
  /\ fst (generateKey jsonZ (<[500%nat := 7777]> data) doubleText
            (freshManager : World Z))
     = Ok "1.0.0_cuoq33_jlvdni"
  /\ fst (generateKey jsonZ (<[1000%nat := 7777]> data) doubleText
            (freshManager : World Z))
     = Ok "1.0.0_l80bwd_jlvdni".
Proof. repeat split; vm_compute; reflexivity. Qed.

End KeyFacts.

(** ** The cache manager over a store that does not fail *)

Module CacheFacts.
Import JS Constants Cache Inputs StoreStates.

Section Store.
Context {R : Type} (jsonR : R -> string).
Implicit Type w : World R.
Local Abbreviation newEntry := (StoreStates.newEntry jsonR).
Local Abbreviation completedEntry := (StoreStates.completedEntry jsonR).

Lemma get_ok w key :
  getFaults w = [] -> Db.get key w = (Ok (store w !! key), w).
Proof. intros H. destruct w; simpl in *; subst. reflexivity. Qed.

Lemma put_ok w key value :
  putFaults w = [] ->
  Db.put key value w = (Ok tt, set_store (<[key := value]> (store w)) w).
Proof. intros H. destruct w; simpl in *; subst. reflexivity. Qed.

Lemma delete_ok w key :
  deleteFaults w = [] ->
  Db.delete key w = (Ok tt, set_store (delete key (store w)) w).
Proof. intros H. destruct w; simpl in *; subst. reflexivity. Qed.

Lemma getAllKeys_ok w :
  keysFaults w = [] ->
  Db.getAllKeys w = (Ok (map fst (map_to_list (store w))), w).
Proof. intros H. destruct w; simpl in *; subst. reflexivity. Qed.

Lemma quiet_set_store w st : quiet w -> quiet (set_store st w).
Proof. by intros (? & ? & ? & ?). Qed.

Lemma getOrCreate_absent w key data :
  getFaults w = [] ->
  store w !! key = None ->
  getOrCreateCacheEntry jsonR key data w = (Ok (newEntry w key data), w).
Proof.
  intros Hq Hk. unfold getOrCreateCacheEntry, bind, try_catch.
  rewrite get_ok by done. rewrite Hk. reflexivity.
Qed.

Lemma validate_wellFormed w (e : CacheEntry R) :
  wellFormed e -> validateCacheEntry (Some (RawEntry e)) w = (Ok e, w).
Proof.
  intros (H1 & H2 & H3). unfold validateCacheEntry. by rewrite H1, H2, H3.
Qed.

Lemma getOrCreate_present w key data (e : CacheEntry R) :
  getFaults w = [] ->
  store w !! key = Some (RawEntry e) ->
  wellFormed e ->
  getOrCreateCacheEntry jsonR key data w = (Ok e, w).
Proof.
  intros Hq Hk Hwf. unfold getOrCreateCacheEntry, bind, try_catch.
  rewrite get_ok by done. rewrite Hk.
  rewrite validate_wellFormed by done. reflexivity.
Qed.

Lemma markComplete_absent fuel w key totalResult :
  isInitialized w = true ->
  getFaults w = [] ->
  putFaults w = [] ->
  store w !! key = None ->
  markComplete jsonR fuel key totalResult w
  = (Ok tt,
     set_store
       (<[key := RawEntry (completedEntry w (newEntry w key totalResult)
                             totalResult)]> (store w)) w).
Proof.
  intros Hi Hg Hp Hk.
  destruct fuel; cbn [markComplete]; rewrite Hi; simpl;
    unfold try_catch, bind; rewrite getOrCreate_absent by done;
    unfold get_world; rewrite put_ok by done; reflexivity.
Qed.

Lemma markComplete_present fuel w key totalResult (e : CacheEntry R) :
  isInitialized w = true ->
  getFaults w = [] ->
  putFaults w = [] ->
  store w !! key = Some (RawEntry e) ->
  wellFormed e ->
  markComplete jsonR fuel key totalResult w
  = (Ok tt,
     set_store (<[key := RawEntry (completedEntry w e totalResult)]> (store w))
       w).
Proof.
  intros Hi Hg Hp Hk Hwf.
  destruct fuel; cbn [markComplete]; rewrite Hi; simpl;
    unfold try_catch, bind; rewrite (getOrCreate_present _ _ _ e) by done;
    unfold get_world; rewrite put_ok by done; reflexivity.
Qed.

(** *** Fallback mode *)

Lemma checkCache_fallback w key :
  Recovery.isInFallbackMode (errorRecovery w) = true ->
  checkCache key w = (Ok None, w).
Proof. intros H. unfold checkCache. rewrite H. by rewrite orb_true_r. Qed.

Lemma storeBatch_fallback w key batch batchIndex :
  Recovery.isInFallbackMode (errorRecovery w) = true ->
  storeBatch key batch batchIndex w = (Ok tt, w).
Proof. intros H. unfold storeBatch. rewrite H. by rewrite orb_true_r. Qed.

(** A timer armed before the fallback still fires: the flush then drops
    the queue and writes nothing. *)
Lemma flushBatchQueue_fallback fuel w key :
  Recovery.isInFallbackMode (errorRecovery w) = true ->
  fst (flushBatchQueue jsonR fuel key w) = Ok tt
  /\ store (snd (flushBatchQueue jsonR fuel key w)) = store w
  /\ errorRecovery (snd (flushBatchQueue jsonR fuel key w)) = errorRecovery w.
Proof.
  intros H. unfold Recovery.isInFallbackMode in H.
  destruct fuel; cbn [flushBatchQueue];
    (destruct (batchQueue w !! key) as [[batches timer]|] eqn:Hq; [|done];
     destruct (length batches =? 0)%nat; [done|];
     unfold try_catch, bind; simpl; rewrite H; simpl;
     unfold emptyQueue, modify; rewrite Hq; done).
Qed.

(** The flag is set by [fallbackToNonCached] and survives every method
    of the strategy but [resetFallbackMode]. *)
Lemma fallback_is_sticky (s : Recovery.t) (error : JsError) (id : string)
    (action : RecoveryAction) :
  Recovery.fallbackMode (snd (Recovery.fallbackToNonCached s)) = true
  /\ (Recovery.fallbackMode s = true ->
      Recovery.fallbackMode (snd (Recovery.incrementRetryCount s id)) = true
      /\ Recovery.fallbackMode (Recovery.resetRetryCount s id) = true
      /\ Recovery.fallbackMode (snd (Recovery.executeRecovery s action)) = true
      /\ Recovery.fallbackMode (snd (Recovery.handleError s error id)) = true)
  /\ Recovery.fallbackMode (Recovery.resetFallbackMode s) = false.
Proof.
  split; [done|]. split; [|done]. intros H. repeat split; try done.
  - by destruct action.
  - unfold Recovery.handleError, Recovery.shouldRetry. rewrite H.
    by rewrite andb_false_r.
Qed.

(** C2.  On an initialised manager in fallback mode with an empty store,
    [checkCache] and [storeBatch] return at once and change nothing, but
    [markComplete], which only tests [isInitialized], creates the entry
    and writes it to the store. *)
Theorem C2_markComplete_writes_in_fallback (key : string)
    (totalResult : list R) :
  let w : World R := fallbackManager in
  Recovery.isInFallbackMode (errorRecovery w) = true
  /\ checkCache key w = (Ok None, w)
  /\ storeBatch key totalResult 0 w = (Ok tt, w)
  /\ store w !! key = None
  /\ fst (markComplete jsonR 0 key totalResult w) = Ok tt
  /\ store (snd (markComplete jsonR 0 key totalResult w)) !! key
     = Some (RawEntry
               (completedEntry w (newEntry w key totalResult) totalResult))
  /\ store (snd (markComplete jsonR 0 key totalResult w)) <> store w.
Proof.
  intros w.
  assert (Hm := markComplete_absent 0 w key totalResult eq_refl eq_refl
                  eq_refl (lookup_empty key)).
  split; [reflexivity|].
  split; [by apply checkCache_fallback|].
  split; [by apply storeBatch_fallback|].
  split; [apply lookup_empty|].
  split; [by rewrite Hm|].
  split.
  - rewrite Hm. simpl. by rewrite lookup_insert_eq.
  - rewrite Hm. simpl. intros E.
    assert (E' : (<[key := RawEntry
                     (completedEntry w (newEntry w key totalResult)
                        totalResult)]> (∅ : gmap string (Raw R))) !! key
                 = (∅ : gmap string (Raw R)) !! key) by (by rewrite E).
    by rewrite lookup_insert_eq in E'.
Qed.

(** *** Failures of [markComplete] *)

(** [markComplete] settles without an exception, whatever the store
    does: every throw inside it is caught. *)
Lemma try_catch_never_throws {A} (m : M R A) (h : JsError -> M R A) w :
  (forall err w1 e, fst (h err w1) <> Throw e) ->
  forall e, fst (try_catch m h w) <> Throw e.
Proof.
  intros Hh e. unfold try_catch.
  destruct (m w) as [[a|err|] w1]; simpl; [done|apply Hh|done].
Qed.

Lemma markComplete_never_throws fuel key totalResult w e :
  fst (markComplete jsonR fuel key totalResult w) <> Throw e.
Proof.
  destruct fuel; cbn [markComplete];
    (destruct (isInitialized w); simpl; [|done];
     apply try_catch_never_throws; intros err w1 e1;
     destruct (isQuotaExceededError err); [|done];
     by apply try_catch_never_throws).
Qed.

(** Whatever the store does, [markComplete] resolves: no failure inside
    it reaches [executeStep], which has set the result before the call.
    (The other outcome is a chain of retries longer than [fuel].) *)
Theorem markComplete_swallows_failures fuel key totalResult w :
  fst (markComplete jsonR fuel key totalResult w) = Ok tt
  \/ fst (markComplete jsonR fuel key totalResult w) = Pending.
Proof.
  destruct (fst (markComplete jsonR fuel key totalResult w)) as [[]|e|] eqn:E.
  - by left.
  - exfalso. by apply (markComplete_never_throws fuel key totalResult w e).
  - by right.
Qed.

End Store.

Lemma isQuotaExceededError_quotaError :
  isQuotaExceededError quotaError = true.
Proof. reflexivity. Qed.

(** With the store empty and [k] more quota failures than the depth
    allows, [markComplete] is still retrying when the depth is used up. *)
Lemma markComplete_keeps_retrying {R} (jsonR : R -> string) key totalResult :
  forall fuel (w : World R) rest,
    isInitialized w = true ->
    getFaults w = [] ->
    keysFaults w = [] ->
    store w = ∅ ->
    putFaults w = (repeat (Some quotaError) (S fuel) ++ rest)%list ->
    fst (markComplete jsonR fuel key totalResult w) = Pending.
Proof.
  induction fuel as [|fuel IH]; intros w rest Hi Hg Hk Hs Hp;
    cbn [markComplete]; rewrite Hi; simpl;
    unfold try_catch at 1; unfold bind at 1;
    (rewrite getOrCreate_absent by (by rewrite ?Hs));
    unfold bind at 1, get_world;
    unfold Db.put; rewrite Hp; cbn [repeat app Db.next_fault];
    rewrite isQuotaExceededError_quotaError;
    unfold try_catch at 1; unfold bind at 1;
    unfold handleStorageQuotaExceeded, try_catch at 1, bind at 1;
    (rewrite getAllKeys_ok by done); cbn [store set_putFaults];
    rewrite Hs, map_to_list_empty; cbn [map length Nat.eqb ret].
  - reflexivity.
  - pose proof (IH (set_putFaults (repeat (Some quotaError) (S fuel) ++ rest) w)
                  rest Hi Hg Hk Hs eq_refl) as HP.
    destruct (markComplete jsonR fuel key totalResult _) as [r w2].
    simpl in HP. by subst r.
Qed.

(** C7.  When the write of [markComplete] fails on the quota, the retry
    is a recursive call of [markComplete], which handles a second quota
    failure like the first one.  With two failures in a row the entry is
    stored by a second retry; and however deep the recursion is allowed
    to go, one more failure than that leaves it still retrying. *)
Theorem C7_markComplete_retries_again :
  (let r := markComplete jsonZ 2 "k" [1] (quotaManager 2 : World Z) in
   fst r = Ok tt
   /\ putFaults (snd r) = []
   /\ option_map entry_data (storedEntry (snd r) "k") = Some [1]
   /\ option_map entry_isComplete (storedEntry (snd r) "k") = Some true)
  /\ (forall fuel,
        fst (markComplete jsonZ fuel "k" [1] (quotaManager (S fuel) : World Z))
        = Pending).
Proof.
  split; [repeat split; vm_compute; reflexivity|].
  intros fuel.
  apply (markComplete_keeps_retrying jsonZ "k" [1] fuel _ []); try done.
  unfold quotaManager. simpl. by rewrite app_nil_r.
Qed.

End CacheFacts.

(** ** Sorting and combining batches *)

Module SortFacts.
Import JS.

Section SortBy.
Context {A : Type} (key : A -> Z).

Local Abbreviation le := (fun a b : A => key a <= key b).
Local Abbreviation lt := (fun a b : A => key a < key b).

Lemma insert_by_perm (x : A) (l : list A) :
  Permutation (insert_by key x l) (x :: l).
Proof.
  induction l as [|y l IH]; simpl; [done|].
  destruct (key x <=? key y); [done|].
  rewrite IH. apply perm_swap.
Qed.

Lemma sort_by_perm (l : list A) : Permutation (sort_by key l) l.
Proof.
  induction l as [|x l IH]; simpl; [done|].
  rewrite insert_by_perm. by constructor.
Qed.

Lemma insert_by_sorted (x : A) (l : list A) :
  StronglySorted le l -> StronglySorted le (insert_by key x l).
Proof.
  induction 1 as [|y l Hl IH Hy]; simpl.
  - repeat constructor.
  - destruct (Z.leb_spec (key x) (key y)) as [Hxy|Hxy].
    + constructor; [by constructor|].
      constructor; [done|].
      eapply Forall_impl; [exact Hy|]. simpl. intros; lia.
    + constructor; [done|].
      rewrite (Forall_forall). intros z Hz.
      apply list_elem_of_In in Hz.
      apply (Permutation_in _ (insert_by_perm x l)) in Hz.
      destruct Hz as [<-|Hz]; [lia|].
      rewrite Forall_forall in Hy. apply Hy. by apply list_elem_of_In.
Qed.

Lemma sort_by_sorted (l : list A) : StronglySorted le (sort_by key l).
Proof.
  induction l as [|x l IH]; simpl; [constructor|].
  by apply insert_by_sorted.
Qed.

(** A sorted array is left as it is. *)
Lemma sort_by_id (l : list A) : StronglySorted le l -> sort_by key l = l.
Proof.
  induction 1 as [|x l Hl IH Hx]; simpl; [done|].
  rewrite IH. destruct l as [|y l]; simpl; [done|].
  inversion Hx; subst. by destruct (Z.leb_spec (key x) (key y)); [|lia].
Qed.

Lemma sorted_strict (l : list A) :
  StronglySorted le l -> NoDup (map key l) -> StronglySorted lt l.
Proof.
  induction 1 as [|x l Hl IH Hx]; simpl; intros Hnd; [constructor|].
  apply NoDup_cons in Hnd as [Hnotin Hnd].
  constructor; [by apply IH|].
  rewrite Forall_forall in Hx |- *. intros y Hy.
  specialize (Hx y Hy).
  assert (key x <> key y); [|lia].
  intros E. apply Hnotin. rewrite E. by apply list_elem_of_fmap_2.
Qed.

Lemma strict_le (l : list A) : StronglySorted lt l -> StronglySorted le l.
Proof.
  induction 1 as [|x l Hl IH Hx]; constructor; [done|].
  eapply Forall_impl; [exact Hx|]. simpl; intros; lia.
Qed.

(** Two strictly sorted arrays with the same elements are equal. *)
Lemma strict_sorted_unique (l1 l2 : list A) :
  StronglySorted lt l1 -> StronglySorted lt l2 -> Permutation l1 l2 ->
  l1 = l2.
Proof.
  intros H1. revert l2.
  induction H1 as [|x l1 Hl1 IH Hx]; intros l2 H2 Hp.
  - by apply Permutation_nil in Hp.
  - destruct H2 as [|y l2 Hl2 Hy].
    + symmetry in Hp. by apply Permutation_nil in Hp.
    + assert (Hxy : x = y).
      { assert (Hin1 : In x (y :: l2))
          by (apply (Permutation_in _ Hp); by left).
        assert (Hin2 : In y (x :: l1))
          by (apply (Permutation_in _ (Permutation_sym Hp)); by left).
        destruct Hin1 as [->|Hin1]; [done|].
        destruct Hin2 as [->|Hin2]; [done|].
        rewrite Forall_forall in Hx, Hy.
        apply list_elem_of_In in Hin1, Hin2.
        specialize (Hx y Hin2). specialize (Hy x Hin1). simpl in *. lia. }
      subst y. f_equal. apply IH; [done|].
      by apply Permutation_cons_inv in Hp.
Qed.

Lemma NoDup_keys_perm (l l' : list A) :
  Permutation l l' -> NoDup (map key l) -> NoDup (map key l').
Proof.
  intros Hp Hnd. assert (P : Permutation (map key l) (map key l'))
    by (by apply Permutation_map).
  by rewrite <- P.
Qed.

Lemma sort_by_strict (l : list A) :
  NoDup (map key l) -> StronglySorted lt (sort_by key l).
Proof.
  intros Hnd. apply sorted_strict; [apply sort_by_sorted|].
  apply (NoDup_keys_perm l); [|done]. symmetry. apply sort_by_perm.
Qed.

(** The sorted array does not depend on the order of the input when the
    keys are distinct. *)
Lemma sort_by_order_independent (l l' : list A) :
  NoDup (map key l) -> Permutation l l' -> sort_by key l' = sort_by key l.
Proof.
  intros Hnd Hp.
  apply strict_sorted_unique.
  - apply sort_by_strict. by apply (NoDup_keys_perm l).
  - by apply sort_by_strict.
  - rewrite !sort_by_perm. by symmetry.
Qed.

End SortBy.
End SortFacts.

Module BatchFacts.
Import JS Constants Cache Inputs StoreStates SortFacts CacheFacts.

Section Batches.
Context {R : Type} (jsonR : R -> string).
Implicit Type w : World R.
Local Abbreviation batchOf := (StoreStates.batchOf jsonR).
Local Abbreviation flushedEntry := (StoreStates.flushedEntry jsonR).

Lemma upsertBatch_cases (batches : list (CacheBatch R)) (q : QueuedBatch R) :
  (exists i b,
      batches !! i = Some b
      /\ batch_index b = queued_index q
      /\ upsertBatch jsonR batches q = <[i := batchOf q]> batches)
  \/ (Forall (fun b => batch_index b <> queued_index q) batches
      /\ upsertBatch jsonR batches q = (batches ++ [batchOf q])%list).
Proof.
  unfold upsertBatch. fold (batchOf q).
  destruct (list_find _ batches) as [[i b]|] eqn:Hf.
  - left. apply list_find_Some in Hf as (Hi & Hb & _). by exists i, b.
  - right. apply list_find_None in Hf. done.
Qed.

(** An index already present is overwritten in place; a new index is
    appended.  Either way the indices stay distinct. *)
Lemma upsertBatch_indices (batches : list (CacheBatch R)) (q : QueuedBatch R) :
  map batch_index (upsertBatch jsonR batches q) = map batch_index batches
  /\ In (queued_index q) (map batch_index batches)
  /\ length (upsertBatch jsonR batches q) = length batches
  \/ map batch_index (upsertBatch jsonR batches q)
     = (map batch_index batches ++ [queued_index q])%list
     /\ ~ In (queued_index q) (map batch_index batches).
Proof.
  destruct (upsertBatch_cases batches q) as [(i & b & Hi & Hb & ->)|[Hall ->]].
  - left. split; [|split].
    + change (map batch_index) with (fmap (M:=list) (@batch_index R)).
      rewrite list_fmap_insert. apply list_insert_id.
      rewrite list_lookup_fmap, Hi. simpl. by rewrite Hb.
    + rewrite <- Hb. apply in_map. apply list_elem_of_In.
      by apply (list_elem_of_lookup_2 _ i).
    + apply length_insert.
  - right. split.
    + by rewrite map_app.
    + intros Hin. apply in_map_iff in Hin as (b & Hb & Hin).
      rewrite Forall_forall in Hall. apply (Hall b); [|done].
      by apply list_elem_of_In.
Qed.

Lemma upsertBatch_NoDup (batches : list (CacheBatch R)) (q : QueuedBatch R) :
  NoDup (map batch_index batches) ->
  NoDup (map batch_index (upsertBatch jsonR batches q)).
Proof.
  intros Hnd.
  destruct (upsertBatch_indices batches q) as [(-> & _)|(-> & Hnotin)];
    [done|].
  apply NoDup_app. split; [done|]. split; [|apply NoDup_singleton].
  intros x Hx Hx'. apply list_elem_of_singleton in Hx'. subst x.
  apply Hnotin. by apply list_elem_of_In.
Qed.

Lemma upsertAll_NoDup (qs : list (QueuedBatch R)) :
  forall batches : list (CacheBatch R),
    NoDup (map batch_index batches) ->
    NoDup (map batch_index (fold_left (upsertBatch jsonR) qs batches)).
Proof.
  induction qs as [|q qs IH]; intros batches Hnd; simpl; [done|].
  apply IH. by apply upsertBatch_NoDup.
Qed.

(** The batch stored under the index of a queued batch holds the data of
    that queued batch, after [compressBatchData]. *)
Lemma upsertBatch_lookup (batches : list (CacheBatch R)) (q : QueuedBatch R) :
  NoDup (map batch_index batches) ->
  forall b, In b (upsertBatch jsonR batches q) ->
            batch_index b = queued_index q -> b = batchOf q.
Proof.
  intros Hnd b Hin Hidx.
  destruct (upsertBatch_cases batches q) as [(i & b0 & Hi & Hb0 & E)|[Hall E]];
    rewrite E in Hin.
  - apply list_elem_of_In, list_elem_of_lookup in Hin as [j Hj].
    destruct (decide (i = j)) as [->|Hne].
    + rewrite list_lookup_insert_eq in Hj; [congruence|].
      by apply lookup_lt_Some in Hi.
    + rewrite list_lookup_insert_ne in Hj by done.
      exfalso. apply Hne.
      apply (NoDup_lookup (map batch_index batches) i j (queued_index q));
        [done| |].
      * change (map batch_index) with (fmap (M:=list) (@batch_index R)).
        rewrite list_lookup_fmap, Hi. simpl. by rewrite Hb0.
      * change (map batch_index) with (fmap (M:=list) (@batch_index R)).
        rewrite list_lookup_fmap, Hj. simpl. by rewrite Hidx.
  - apply in_app_or in Hin as [Hin|[<-|[]]]; [|done].
    rewrite Forall_forall in Hall. exfalso.
    apply (Hall b); [by apply list_elem_of_In|done].
Qed.

(** [combineBatchData] of an array sorted by index appends the batches as
    they stand. *)
Lemma combine_sorted (batches : list (CacheBatch R)) :
  StronglySorted (fun a b => batch_index a <= batch_index b) batches ->
  combineBatchData batches = flat_map batch_data batches.
Proof. intros Hs. unfold combineBatchData. by rewrite sort_by_id. Qed.

(** *** A flush over a store that does not fail *)

Lemma flushBatchQueue_ok fuel w key qs timer (e0 : CacheEntry R) :
  Recovery.fallbackMode (errorRecovery w) = false ->
  putFaults w = [] ->
  batchQueue w !! key = Some (qs, timer) ->
  qs <> [] ->
  getOrCreateCacheEntry jsonR key [] w = (Ok e0, w) ->
  flushBatchQueue jsonR fuel key w
  = (Ok tt, flushedWorld w key (flushedEntry w e0 qs)).
Proof.
  intros Hfb Hp Hq Hne Hget.
  assert (Hlen : (length qs =? 0)%nat = false)
    by (destruct qs; [done|reflexivity]).
  destruct fuel; cbn [flushBatchQueue]; rewrite Hq, Hlen;
    change (Z.to_nat MAX_RETRIES) with 3%nat;
    unfold try_catch at 1, bind at 1; cbn [createRecoveryWrapper];
    rewrite Hfb; unfold flushOperation, bind at 1; rewrite Hget;
    unfold bind at 1, get_world; rewrite put_ok by done;
    unfold emptyQueue, modify; cbn [batchQueue set_errorRecovery set_store];
    rewrite Hq; reflexivity.
Qed.

(** The batches of a flushed entry are strictly ascending by index, and
    its data is the data of these batches, one after the other. *)
Lemma flushedEntry_sorted w (e0 : CacheEntry R) (qs : list (QueuedBatch R)) :
  NoDup (map batch_index (entry_batches e0)) ->
  let e := flushedEntry w e0 qs in
  StronglySorted (fun a b => batch_index a < batch_index b) (entry_batches e)
  /\ entry_data e = flat_map batch_data (entry_batches e).
Proof.
  intros Hnd e. subst e. unfold flushedEntry. cbn [entry_batches entry_data].
  assert (Hs := sort_by_strict batch_index _ (upsertAll_NoDup qs _ Hnd)).
  split; [exact Hs|].
  apply combine_sorted. by apply strict_le.
Qed.

(** *** Deduplication *)

Lemma dedupe_length_le (data : list R) : forall seen : gmap string R,
  (length (dedupe jsonR seen data) <= length data)%nat.
Proof.
  induction data as [|x data IH]; intros seen; simpl; [lia|].
  destruct (seen !! jsonR x); simpl.
  - specialize (IH seen). lia.
  - specialize (IH (<[jsonR x := x]> seen)). lia.
Qed.

Lemma dedupe_length_lt (data : list R) : forall seen : gmap string R,
  (exists x, In x data /\ is_Some (seen !! jsonR x)) ->
  (length (dedupe jsonR seen data) < length data)%nat.
Proof.
  induction data as [|x data IH]; intros seen (y & Hin & Hy); simpl;
    [by destruct Hin|].
  destruct (seen !! jsonR x) eqn:Hx; simpl.
  - pose proof (dedupe_length_le data seen). lia.
  - destruct Hin as [->|Hin]; [rewrite Hx in Hy; by destruct Hy|].
    assert (length (dedupe jsonR (<[jsonR x := x]> seen) data)
            < length data)%nat; [|lia].
    apply IH. exists y. split; [done|].
    destruct (decide (jsonR x = jsonR y)) as [E|E].
    + rewrite E, lookup_insert_eq. by eexists.
    + by rewrite lookup_insert_ne.
Qed.

(** What is kept has pairwise different serialisations, none of them
    seen before. *)
Lemma dedupe_NoDup (data : list R) : forall seen : gmap string R,
  NoDup (map jsonR (dedupe jsonR seen data))
  /\ (forall x, In x (dedupe jsonR seen data) -> seen !! jsonR x = None).
Proof.
  induction data as [|x data IH]; intros seen; simpl.
  - split; [constructor|by intros ? []].
  - destruct (seen !! jsonR x) eqn:Hx; [apply IH|].
    destruct (IH (<[jsonR x := x]> seen)) as [Hnd Hnone].
    split.
    + simpl. apply NoDup_cons. split; [|done].
      intros Hin. apply list_elem_of_In, in_map_iff in Hin as (y & Hy & Hin).
      specialize (Hnone y Hin). rewrite Hy, lookup_insert_eq in Hnone. done.
    + intros y [<-|Hin]; [done|].
      specialize (Hnone y Hin).
      destruct (decide (jsonR x = jsonR y)) as [E|E].
      * rewrite E, lookup_insert_eq in Hnone. done.
      * by rewrite lookup_insert_ne in Hnone.
Qed.

(** If nothing is dropped, the serialisations were different already. *)
Lemma dedupe_full (data : list R) : forall seen : gmap string R,
  length (dedupe jsonR seen data) = length data ->
  NoDup (map jsonR data).
Proof.
  induction data as [|x data IH]; intros seen Hlen; simpl in *;
    [constructor|].
  destruct (seen !! jsonR x) eqn:Hx.
  - pose proof (dedupe_length_le data seen). lia.
  - simpl in Hlen.
    assert (Hl : length (dedupe jsonR (<[jsonR x := x]> seen) data)
                 = length data) by lia.
    apply NoDup_cons. split; [|by apply (IH _ Hl)].
    intros Hin. apply list_elem_of_In, in_map_iff in Hin as (y & Hy & Hin).
    assert (length (dedupe jsonR (<[jsonR x := x]> seen) data) < length data)%nat;
      [|lia].
    apply dedupe_length_lt. exists y. split; [done|].
    rewrite Hy, lookup_insert_eq. by eexists.
Qed.

(** [compressBatchData] keeps one item per serialisation, and drops at
    least one item when two items serialise alike. *)
Lemma compressBatchData_spec (data : list R) :
  NoDup (map jsonR (compressBatchData jsonR data))
  /\ (length (compressBatchData jsonR data) <= length data)%nat
  /\ (~ NoDup (map jsonR data) ->
      (length (compressBatchData jsonR data) < length data)%nat).
Proof.
  unfold compressBatchData.
  destruct (Nat.leb_spec (length data) 1) as [Hle|Hgt].
  - assert (Hnd : NoDup (map jsonR data)).
    { destruct data as [|x [|y data]]; simpl in *; try lia.
      - constructor.
      - apply NoDup_singleton. }
    done.
  - destruct (Nat.ltb_spec (length (dedupe jsonR ∅ data)) (length data))
      as [Hlt|Hge].
    + split; [apply dedupe_NoDup|]. split; [lia|done].
    + pose proof (dedupe_length_le data ∅).
      assert (Hnd : NoDup (map jsonR data))
        by (apply (dedupe_full data ∅); lia).
      done.
Qed.

(** *** What an interrupted run leaves in the cache *)

Lemma storeBatch_first w key data idx :
  isInitialized w = true ->
  Recovery.fallbackMode (errorRecovery w) = false ->
  batchQueue w !! key = None ->
  storeBatch key data idx w
  = (Ok tt,
     set_batchQueue
       (<[key := ([mkQueued idx data (now w)], true)]> (batchQueue w)) w).
Proof.
  intros Hi Hfb Hq. unfold storeBatch, Recovery.isInFallbackMode.
  by rewrite Hi, Hfb, Hq.
Qed.

Lemma checkCache_hit w key (e : CacheEntry R) :
  isInitialized w = true ->
  Recovery.fallbackMode (errorRecovery w) = false ->
  getFaults w = [] ->
  putFaults w = [] ->
  store w !! key = Some (RawEntry e) ->
  wellFormed e ->
  now w - meta_timestamp (entry_metadata e) <= config_maxAge w ->
  exists w',
    checkCache key w
    = (Ok (Some (mkResult (entry_data e) (entry_isComplete e)
                   (meta_timestamp (entry_metadata e)) (entry_batches e))),
       w').
Proof.
  intros Hi Hfb Hg Hp Hs Hwf Hage.
  unfold checkCache, Recovery.isInFallbackMode. rewrite Hi, Hfb.
  cbn [negb orb]. change (Z.to_nat MAX_RETRIES) with 3%nat.
  unfold try_catch at 1. cbn [createRecoveryWrapper]. rewrite Hfb.
  unfold bind at 1. rewrite get_ok by done. rewrite Hs.
  unfold bind at 1. rewrite validate_wellFormed by done.
  unfold bind at 1, isCacheExpired.
  destruct (Z.gtb_spec (now w - meta_timestamp (entry_metadata e))
              (config_maxAge w)) as [Hgt|_]; [lia|].
  unfold bind at 1, updateLastAccessed, try_catch at 1, bind at 1, get_world.
  rewrite put_ok by done. simpl. eauto.
Qed.

(** C10.  A batch in which two items have the same JSON serialisation is
    stored and flushed on a manager that has nothing yet under the key.
    The entry written is incomplete, its data keeps one item per
    serialisation and is shorter than the batch, and [checkCache] returns
    exactly that data; [markComplete] then replaces the data by the full
    result and marks the entry complete. *)
Theorem C10_flush_deduplicates_until_complete (w : World R) (key : string)
    (data totalResult : list R) (idx : Z) (fuel : nat) :
  isInitialized w = true ->
  Recovery.fallbackMode (errorRecovery w) = false ->
  quiet w ->
  store w !! key = None ->
  batchQueue w !! key = None ->
  key <> "" ->
  0 <= config_maxAge w ->
  ~ NoDup (map jsonR data) ->
  let w1 := snd (storeBatch key data idx w) in
  let w2 := snd (flushBatchQueue jsonR fuel key w1) in
  let w3 := snd (markComplete jsonR fuel key totalResult w2) in
  (exists e r,
      store w2 !! key = Some (RawEntry e)
      /\ entry_isComplete e = false
      /\ entry_data e = compressBatchData jsonR data
      /\ NoDup (map jsonR (entry_data e))
      /\ (length (entry_data e) < length data)%nat
      /\ fst (checkCache key w2) = Ok (Some r)
      /\ result_data r = entry_data e
      /\ result_isComplete r = false)
  /\ (exists e',
        store w3 !! key = Some (RawEntry e')
        /\ entry_isComplete e' = true
        /\ entry_data e' = totalResult).
Proof.
  intros Hi Hfb (Hp & Hg & Hd & Hk) Hs Hq Hkey Hage Hdup w1 w2 w3.
  subst w3 w2 w1.
  rewrite (storeBatch_first w key data idx Hi Hfb Hq). cbn [snd].
  set (q := mkQueued idx data (now w)).
  set (w1 := set_batchQueue _ w).
  assert (Hflush := flushBatchQueue_ok fuel w1 key [q] true
                      (newEntry jsonR w1 key [])).
  rewrite Hflush; clear Hflush; cycle 1.
  { exact Hfb. }
  { exact Hp. }
  { subst w1. simpl. apply lookup_insert_eq. }
  { done. }
  { apply getOrCreate_absent; [exact Hg|exact Hs]. }
  cbn [snd].
  set (e := flushedEntry w1 (newEntry jsonR w1 key []) [q]).
  set (w2 := flushedWorld w1 key e).
  assert (Hdata : entry_data e = compressBatchData jsonR data).
  { subst e. unfold flushedEntry, combineBatchData. simpl.
    apply app_nil_r. }
  assert (Hwf : wellFormed e).
  { subst e. unfold wellFormed. simpl. split; [|done].
    destruct key; [done|reflexivity]. }
  assert (Hlook : store w2 !! key = Some (RawEntry e)).
  { subst w2. simpl. apply lookup_insert_eq. }
  destruct (compressBatchData_spec data) as (Hnd & _ & Hlt).
  split.
  - destruct (checkCache_hit w2 key e) as [w' Hcheck]; try done.
    { subst w2 e. simpl. lia. }
    eexists e, _. rewrite Hcheck, Hdata. repeat split; try done.
    by apply Hlt.
  - rewrite (markComplete_present jsonR fuel w2 key totalResult e);
      try done.
    eexists. split; [simpl; apply lookup_insert_eq|]. done.
Qed.

End Batches.

Lemma C10_flush_deduplicates_until_complete_witness :
  let w1 := snd (storeBatch "k" [1; 1; 2] 0 (freshManager : World Z)) in
  let w2 := snd (flushBatchQueue jsonZ 0 "k" w1) in
  let w3 := snd (markComplete jsonZ 0 "k" [1; 1; 2] w2) in
  option_map entry_data (storedEntry w2 "k") = Some [1; 2]
  /\ option_map entry_data (storedEntry w3 "k") = Some [1; 1; 2].
Proof.
  assert (Hdup : ~ NoDup (map jsonZ [1; 1; 2])).
  { intros H. apply NoDup_cons in H as [Hnotin _]. apply Hnotin. by left. }
  destruct (C10_flush_deduplicates_until_complete jsonZ freshManager "k"
              [1; 1; 2] [1; 1; 2] 0 0 eq_refl eq_refl
              (conj eq_refl (conj eq_refl (conj eq_refl eq_refl)))
              eq_refl eq_refl ltac:(discriminate) ltac:(discriminate) Hdup)
    as [(e & r & Hst & _ & Hdata & _) (e' & Hst' & _ & Hdata')].
  intros w1 w2 w3. unfold storedEntry.
  split.
  - subst w2 w1. rewrite Hst. simpl. rewrite Hdata. reflexivity.
  - subst w3 w2 w1. rewrite Hst'. simpl. by rewrite Hdata'.
Defined.

(** C5.  Combining batches with distinct indices gives the same array for
    every order of the batches: the data of the batches in strictly
    ascending order of index.  A queued batch whose index is already in
    the entry takes the place of the batch with that index, so that the
    indices stay distinct.  Three batches queued with the indices 2, 0, 1
    are flushed to an entry whose data is batch 0, batch 1, batch 2; a
    later flush of another batch 1 replaces the data of batch 1. *)
Theorem C5_combine_by_ascending_index {R} (jsonR : R -> string)
    (batches batches' : list (CacheBatch R)) (q : QueuedBatch R) :
  NoDup (map batch_index batches) ->
  Permutation batches batches' ->
  combineBatchData batches' = combineBatchData batches
  /\ (exists sorted,
        Permutation sorted batches
        /\ StronglySorted (fun a b => batch_index a < batch_index b) sorted
        /\ combineBatchData batches = flat_map batch_data sorted)
  /\ NoDup (map batch_index (upsertBatch jsonR batches q))
  /\ (In (queued_index q) (map batch_index batches) ->
      length (upsertBatch jsonR batches q) = length batches)
  /\ (forall b, In b (upsertBatch jsonR batches q) ->
                batch_index b = queued_index q ->
                batch_data b = compressBatchData jsonR (queued_data q))
  /\ (let w1 := snd (storeBatch "k" [50; 51] 2 (freshManager : World Z)) in
      let w2 := snd (storeBatch "k" [10; 11] 0 w1) in
      let w3 := snd (storeBatch "k" [30; 31] 1 w2) in
      let w4 := snd (flushBatchQueue jsonZ 0 "k" w3) in
      let w5 := snd (storeBatch "k" [70] 1 w4) in
      let w6 := snd (flushBatchQueue jsonZ 0 "k" w5) in
      option_map entry_data (storedEntry w4 "k")
      = Some [10; 11; 30; 31; 50; 51]
      /\ option_map entry_data (storedEntry w6 "k") = Some [10; 11; 70; 50; 51]
      /\ option_map (fun e => map batch_index (entry_batches e))
           (storedEntry w6 "k") = Some [0; 1; 2]).
Proof.
  intros Hnd Hp.
  split; [|split; [|split; [|split; [|split]]]].
  - unfold combineBatchData. by rewrite (sort_by_order_independent _ batches).
  - exists (sort_by batch_index batches).
    split; [apply sort_by_perm|]. split; [by apply sort_by_strict|done].
  - by apply upsertBatch_NoDup.
  - intros Hin.
    destruct (upsertBatch_indices jsonR batches q) as [(_ & _ & H)|(_ & H)];
      [done|by destruct H].
  - intros b Hin Hidx.
    by rewrite (upsertBatch_lookup jsonR batches q Hnd b Hin Hidx).
  - repeat split; vm_compute; reflexivity.
Qed.

Lemma C5_combine_by_ascending_index_witness :
  combineBatchData
    [mkBatch 2 [50; 51] 0 0; mkBatch 0 [10; 11] 0 0; mkBatch 1 [30; 31] 0 0]
  = combineBatchData
      [mkBatch 0 [10; 11] 0 0; mkBatch 1 [30; 31] 0 0; mkBatch 2 [50; 51] 0 0]
  /\ combineBatchData
       [mkBatch 0 [10; 11] 0 0; mkBatch 1 [30; 31] 0 0; mkBatch 2 [50; 51] 0 0]
     = [10; 11; 30; 31; 50; 51].
Proof.
  assert (Hnd : NoDup (map batch_index
                         [mkBatch 0 [10; 11] 0 0; mkBatch 1 [30; 31] 0 0;
                          mkBatch (R:=Z) 2 [50; 51] 0 0]))
    by (apply NoDup_ListNoDup; repeat constructor; simpl; intuition lia).
  assert (Hp : Permutation
                 [mkBatch 0 [10; 11] 0 0; mkBatch 1 [30; 31] 0 0;
                  mkBatch (R:=Z) 2 [50; 51] 0 0]
                 [mkBatch 2 [50; 51] 0 0; mkBatch 0 [10; 11] 0 0;
                  mkBatch 1 [30; 31] 0 0]).
  { symmetry.
    apply (Permutation_cons_append
             [mkBatch 0 [10; 11] 0 0; mkBatch 1 [30; 31] 0 0]
             (mkBatch 2 [50; 51] 0 0)). }
  destruct (C5_combine_by_ascending_index jsonZ _ _ (mkQueued 1 [70] 0) Hnd Hp)
    as (H1 & _).
  split; [exact H1|reflexivity].
Defined.

End BatchFacts.

(** ** Expiration and eviction *)

Module EvictionFacts.
Import JS Constants Cache Inputs StoreStates SortFacts CacheFacts.

Section Eviction.
Context {R : Type} (jsonR : R -> string).
Implicit Type w : World R.
Local Abbreviation classify := (StoreStates.classify jsonR).
Local Abbreviation verdicts := (StoreStates.verdicts jsonR).
Local Abbreviation validEntries := (StoreStates.validEntries jsonR).
Local Abbreviation evictedKeys := (StoreStates.evictedKeys jsonR).
Local Abbreviation sweptStore := (StoreStates.sweptStore jsonR).

Lemma analyzeEntry_ok w key :
  getFaults w = [] ->
  analyzeEntry jsonR key w = (Ok (classify w key (store w !! key)), w).
Proof.
  intros Hg. unfold analyzeEntry, try_catch, bind at 1.
  rewrite get_ok by done.
  destruct (store w !! key) as [[entry|]|]; simpl; try reflexivity.
  unfold bind, validateCacheEntry.
  destruct (String.length (entry_key entry) =? 0)%nat; simpl; [reflexivity|].
  destruct (String.length (entry_version entry) =? 0)%nat; simpl;
    [reflexivity|].
  destruct (startsWith (entry_version entry) _); simpl; [|reflexivity].
  unfold isCacheExpired, ret.
  by destruct (now w - meta_timestamp (entry_metadata entry) >? config_maxAge w).
Qed.

Lemma analyzeAll_ok w (keys : list string) :
  getFaults w = [] ->
  analyzeAll jsonR keys w
  = (Ok (map (fun k => classify w k (store w !! k)) keys), w).
Proof.
  intros Hg. induction keys as [|k keys IH]; simpl; [reflexivity|].
  unfold bind at 1. rewrite analyzeEntry_ok by done.
  unfold bind at 1. rewrite IH. reflexivity.
Qed.

Lemma deleteEach_ok (keys : list string) : forall w,
  deleteFaults w = [] ->
  deleteEach keys w
  = (Ok (Z.of_nat (length keys)), set_store (deleteAll keys (store w)) w).
Proof.
  induction keys as [|k keys IH]; intros w Hd.
  - simpl. destruct w; reflexivity.
  - cbn [deleteEach]. unfold bind at 1, try_catch, bind at 1.
    rewrite delete_ok by done. cbn [ret].
    unfold bind at 1. rewrite IH by done.
    cbn [deleteAll fold_left length store set_store]. unfold ret.
    replace (1 + Z.of_nat (length keys)) with (Z.of_nat (S (length keys)))
      by lia.
    by destruct w.
Qed.

Lemma deleteAll_lookup (keys : list string) :
  forall (st : gmap string (Raw R)) key,
  deleteAll keys st !! key = if decide (key ∈ keys) then None else st !! key.
Proof.
  induction keys as [|k keys IH]; intros st key; cbn [deleteAll fold_left].
  - case_decide as Hin; [|done]. by apply elem_of_nil in Hin.
  - fold (deleteAll keys (delete k st)). rewrite IH.
    destruct (decide (key ∈ keys)) as [Hin|Hnin].
    + case_decide as Hn; [done|]. exfalso. apply Hn.
      by apply list_elem_of_further.
    + destruct (decide (k = key)) as [->|Hne].
      * rewrite lookup_delete_eq.
        case_decide as Hn; [done|]. exfalso. apply Hn.
        apply list_elem_of_here.
      * rewrite lookup_delete_ne by done.
        case_decide as Hin; [|done].
        apply elem_of_cons in Hin as [?|?]; congruence.
Qed.

Lemma Math_floor_three_quarters (m : Z) :
  Math_floor (inject_Z m * (3 # 4)) = 3 * m / 4.
Proof.
  unfold Math_floor, inject_Z, Qmult. simpl.
  replace (m * 3) with (3 * m) by lia. reflexivity.
Qed.

(** The verdicts [analyzeEntriesForCleanup] collects are those of the
    store. *)
Lemma analysis_verdicts w :
  map (fun k => classify w k (store w !! k))
    (map fst (map_to_list (store w)))
  = verdicts w.
Proof.
  unfold verdicts. rewrite map_map. apply map_ext_in.
  intros [k raw] Hin. simpl.
  apply list_elem_of_In, elem_of_map_to_list in Hin. by rewrite Hin.
Qed.

(** Each verdict speaks about the key it was asked for. *)
Lemma classify_valid w key raw v :
  classify w key raw = IsValid v ->
  exists entry, raw = Some (RawEntry entry)
                /\ valid_key v = key /\ valid_entry v = entry.
Proof.
  unfold classify. destruct raw as [[entry|]|]; try done.
  destruct (_ || _ || _); [done|]. destruct (_ >? _); [done|].
  intros [= <-]. by exists entry.
Qed.

Lemma classify_expired w key raw k entry :
  classify w key raw = IsExpired k entry -> k = key.
Proof.
  unfold classify. destruct raw as [[e|]|]; try done.
  destruct (_ || _ || _); [done|]. destruct (_ >? _); [|done].
  by intros [= <- _].
Qed.

Lemma classify_corrupted w key raw k :
  classify w key raw = IsCorrupted k -> k = key.
Proof.
  unfold classify. destruct raw as [[e|]|]; try (by intros [= <-]).
  destruct (_ || _ || _); [by intros [= <-]|]. by destruct (_ >? _).
Qed.

Lemma in_validOf (vs : list (Verdict (R:=R))) v :
  In v (validOf vs) <-> In (IsValid v) vs.
Proof.
  unfold validOf. rewrite in_flat_map. split.
  - intros (x & Hx & Hin). destruct x; simpl in Hin; try done.
    by destruct Hin as [<-|[]].
  - intros Hin. exists (IsValid v). split; [done|by left].
Qed.

Lemma in_expiredOf (vs : list (Verdict (R:=R))) k :
  In k (expiredOf vs) <-> exists entry, In (IsExpired k entry) vs.
Proof.
  unfold expiredOf. rewrite in_flat_map. split.
  - intros (x & Hx & Hin). destruct x; simpl in Hin; try done.
    destruct Hin as [<-|[]]. eauto.
  - intros (entry & Hin). exists (IsExpired k entry). split; [done|by left].
Qed.

Lemma in_corruptedOf (vs : list (Verdict (R:=R))) k :
  In k (corruptedOf vs) <-> In (IsCorrupted k) vs.
Proof.
  unfold corruptedOf. rewrite in_flat_map. split.
  - intros (x & Hx & Hin). destruct x; simpl in Hin; try done.
    by destruct Hin as [<-|[]].
  - intros Hin. exists (IsCorrupted k). split; [done|by left].
Qed.

(** A verdict of the store comes from one of its bindings. *)
Lemma in_verdicts w x :
  In x (verdicts w) ->
  exists key raw, store w !! key = Some raw /\ x = classify w key (Some raw).
Proof.
  unfold verdicts. rewrite in_map_iff. intros ([k raw] & <- & Hin).
  apply list_elem_of_In, elem_of_map_to_list in Hin. by exists k, raw.
Qed.

Lemma verdict_in w key raw :
  store w !! key = Some raw -> In (classify w key (Some raw)) (verdicts w).
Proof.
  intros H. unfold verdicts. apply in_map_iff. exists (key, raw).
  split; [done|]. by apply list_elem_of_In, elem_of_map_to_list.
Qed.

(** A valid entry is in the store under its key, and its key is neither
    expired nor corrupted. *)
Lemma valid_in_store w v :
  In v (validEntries w) ->
  store w !! valid_key v = Some (RawEntry (valid_entry v))
  /\ ~ In (valid_key v) (expiredOf (verdicts w))
  /\ ~ In (valid_key v) (corruptedOf (verdicts w)).
Proof.
  intros Hin. apply in_validOf, in_verdicts in Hin as (key & raw & Hs & Hc).
  symmetry in Hc.
  destruct (classify_valid _ _ _ _ Hc) as (entry & [= ->] & Hk & He).
  rewrite Hk, He. split; [done|]. split.
  - intros Hexp. apply in_expiredOf in Hexp as (e' & Hexp).
    apply in_verdicts in Hexp as (k2 & raw2 & Hs2 & Hc2). symmetry in Hc2.
    pose proof (classify_expired _ _ _ _ _ Hc2) as <-.
    rewrite Hs in Hs2. injection Hs2 as <-. congruence.
  - intros Hcor. apply in_corruptedOf in Hcor.
    apply in_verdicts in Hcor as (k2 & raw2 & Hs2 & Hc2). symmetry in Hc2.
    pose proof (classify_corrupted _ _ _ _ Hc2) as <-.
    rewrite Hs in Hs2. injection Hs2 as <-. congruence.
Qed.

(** A key of the store that is neither expired nor corrupted belongs to a
    valid entry. *)
Lemma store_key_valid w key raw :
  store w !! key = Some raw ->
  ~ In key (expiredOf (verdicts w)) ->
  ~ In key (corruptedOf (verdicts w)) ->
  exists v, In v (validEntries w) /\ valid_key v = key.
Proof.
  intros Hs Hne Hnc. pose proof (verdict_in w key raw Hs) as Hin.
  destruct (classify w key (Some raw)) as [k e|v|k] eqn:Hc.
  - pose proof (classify_expired _ _ _ _ _ Hc) as ->.
    exfalso. apply Hne. apply in_expiredOf. eauto.
  - destruct (classify_valid _ _ _ _ Hc) as (entry & _ & Hk & _).
    exists v. split; [by apply in_validOf|done].
  - pose proof (classify_corrupted _ _ _ _ Hc) as ->.
    exfalso. apply Hnc. by apply in_corruptedOf.
Qed.

(** Two valid entries with the same key are the same entry. *)
Lemma valid_key_inj w v1 v2 :
  In v1 (validEntries w) -> In v2 (validEntries w) ->
  valid_key v1 = valid_key v2 -> v1 = v2.
Proof.
  intros H1 H2 Hk.
  apply in_validOf, in_verdicts in H1 as (k1 & raw1 & Hs1 & Hc1).
  apply in_validOf, in_verdicts in H2 as (k2 & raw2 & Hs2 & Hc2).
  symmetry in Hc1, Hc2.
  destruct (classify_valid _ _ _ _ Hc1) as (e1 & _ & Hk1 & _).
  destruct (classify_valid _ _ _ _ Hc2) as (e2 & _ & Hk2 & _).
  assert (E : k1 = k2) by congruence. rewrite E in Hs1, Hc1.
  rewrite Hs1 in Hs2. injection Hs2 as <-. congruence.
Qed.

Lemma valid_keys_NoDup w : NoDup (map valid_key (validEntries w)).
Proof.
  unfold validEntries, verdicts.
  pose proof (NoDup_fst_map_to_list (store w)) as Hnd.
  assert (Hkeys : forall L : list (string * Raw R),
             NoDup (map fst L) ->
             NoDup (map valid_key
                      (validOf (map (fun kv => classify w (fst kv)
                                                (Some (snd kv))) L)))
             /\ forall k,
                  In k (map valid_key
                          (validOf (map (fun kv => classify w (fst kv)
                                                    (Some (snd kv))) L))) ->
                  In k (map fst L)).
  { induction L as [|[k raw] L IH]; intros HL.
    - split; [constructor|done].
    - cbn [map fst snd] in HL |- *.
      apply NoDup_cons in HL as [Hk HL]. destruct (IH HL) as [IH1 IH2].
      change (validOf (?x :: ?vs))
        with ((match x with IsValid e => [e] | _ => [] end
               ++ validOf vs)%list).
      destruct (classify w k (Some raw)) as [k' e|v|k'] eqn:Hc;
        cbn [app map];
        try (split; [done|]; intros k0 H0; right; by apply IH2).
      destruct (classify_valid _ _ _ _ Hc) as (entry & _ & Hv & _).
      rewrite Hv. split.
      + apply NoDup_cons. split; [|done].
        intros Hin. apply Hk. apply list_elem_of_In, IH2.
        by apply list_elem_of_In.
      + intros k0 [<-|H0]; [by left|right; by apply IH2]. }
  by apply Hkeys.
Qed.

Lemma NoDup_map_perm {A B} (f : A -> B) (l l' : list A) :
  Permutation l l' -> NoDup (map f l) -> NoDup (map f l').
Proof.
  intros Hp Hnd. assert (P : Permutation (map f l) (map f l'))
    by (by apply Permutation_map).
  by rewrite <- P.
Qed.

(** In a sorted array, what [take] takes is not newer than what it
    leaves. *)
Lemma take_drop_sorted {A} (key : A -> Z) (l : list A) (k : nat) :
  StronglySorted (fun a b => key a <= key b) l ->
  forall a b, In a (take k l) -> In b (drop k l) -> key a <= key b.
Proof.
  intros Hs. revert k.
  induction Hs as [|x l Hl IH Hx]; intros k a b Ha Hb.
  - by destruct k.
  - destruct k as [|k]; simpl in *; [done|].
    destruct Ha as [<-|Ha].
    + rewrite Forall_forall in Hx. apply Hx.
      apply (subseteq_drop k l). by apply list_elem_of_In.
    + by apply (IH k).
Qed.

(** What the three deletions leave: the valid entries that stand last
    when sorted by the time of their last access. *)
Lemma sweptStore_spec w :
  0 < config_maxSize w ->
  config_maxSize w < Z.of_nat (length (validEntries w)) ->
  let target := Math_floor (inject_Z (config_maxSize w) * (3 # 4)) in
  let sorted := sort_by valid_lastAccessed (validEntries w) in
  let kept := drop (length sorted - Z.to_nat target) sorted in
  length kept = Z.to_nat target
  /\ size (sweptStore w) = Z.to_nat target
  /\ (forall key,
        is_Some (sweptStore w !! key) <-> In key (map valid_key kept))
  /\ (forall v, In v kept ->
                sweptStore w !! valid_key v = Some (RawEntry (valid_entry v))).
Proof.
  intros Hmax Hlen target sorted kept.
  set (removed := take (length sorted - Z.to_nat target) sorted).
  assert (Ht : target = 3 * config_maxSize w / 4)
    by apply Math_floor_three_quarters.
  assert (Ht0 : 0 <= target <= config_maxSize w).
  { rewrite Ht. split; [apply Z.div_pos; lia|].
    apply Z.div_le_upper_bound; lia. }
  assert (Hperm : Permutation sorted (validEntries w))
    by apply sort_by_perm.
  assert (Hls : length sorted = length (validEntries w))
    by (by apply Permutation_length).
  set (n := (length sorted - Z.to_nat target)%nat) in *.
  assert (Hn : Z.to_nat (Z.max 0 (Z.of_nat (length sorted) - target)) = n)
    by (subst n; lia).
  assert (Hev : evictedKeys w = map valid_key removed).
  { unfold evictedKeys. fold target sorted. by rewrite Hn. }
  assert (Hkept : length kept = Z.to_nat target)
    by (subst kept n; rewrite length_drop; lia).
  assert (Hsplit : sorted = (removed ++ kept)%list)
    by (subst removed kept; by rewrite take_drop).
  assert (Hnd : NoDup (map valid_key sorted)).
  { apply (NoDup_map_perm valid_key (validEntries w)); [by symmetry|].
    apply valid_keys_NoDup. }
  assert (Hin_sorted : forall v, In v sorted <-> In v (validEntries w)).
  { intros v. split; apply Permutation_in; [done|by symmetry]. }
  assert (Hval : forall v, In v kept ->
             sweptStore w !! valid_key v = Some (RawEntry (valid_entry v))).
  { intros v Hv.
    assert (Hv' : In v (validEntries w)).
    { apply Hin_sorted. rewrite Hsplit. apply in_or_app. by right. }
    destruct (valid_in_store w v Hv') as (Hst & Hne & Hnc).
    rewrite Hsplit, map_app in Hnd. apply NoDup_app in Hnd as (_ & Hdisj & _).
    unfold sweptStore. rewrite !deleteAll_lookup, Hev.
    repeat case_decide.
    - exfalso. apply (Hdisj (valid_key v)); [done|].
      apply list_elem_of_In, in_map_iff. eauto.
    - exfalso. apply Hne. by apply list_elem_of_In.
    - exfalso. apply Hnc. by apply list_elem_of_In.
    - done. }
  assert (Hdom : forall key,
             is_Some (sweptStore w !! key) <-> In key (map valid_key kept)).
  { intros key. split.
    - unfold sweptStore. rewrite !deleteAll_lookup, Hev. intros Hsome.
      repeat case_decide; try (by destruct Hsome as [? [=]]).
      destruct Hsome as [raw Hraw].
      destruct (store_key_valid w key raw Hraw) as (v & Hv & Hvk).
      { by rewrite <- list_elem_of_In. }
      { by rewrite <- list_elem_of_In. }
      apply Hin_sorted in Hv. rewrite Hsplit in Hv.
      apply in_app_or in Hv as [Hv|Hv].
      + exfalso. match goal with H : key ∉ map valid_key removed |- _ =>
          apply H end.
        apply list_elem_of_In, in_map_iff. eauto.
      + apply in_map_iff. eauto.
    - intros Hin. apply in_map_iff in Hin as (v & <- & Hv).
      rewrite (Hval v Hv). by eexists. }
  split; [done|]. split; [|by split].
  rewrite <- Hkept, <- (length_map valid_key kept).
  rewrite <- size_dom.
  rewrite <- (size_list_to_set (C:=gset string) (map valid_key kept)).
  - f_equal. apply set_eq. intros key.
    rewrite elem_of_dom, Hdom, elem_of_list_to_set. symmetry.
    apply list_elem_of_In.
  - rewrite Hsplit, map_app in Hnd. by apply NoDup_app in Hnd as (_ & _ & ?).
Qed.

(** The preventive sweep leaves a store alone that holds at most 80% of
    [maxSize] entries. *)
Lemma performPreventiveCleanup_idle w :
  keysFaults w = [] ->
  5 * Z.of_nat (size (store w)) <= 4 * config_maxSize w ->
  performPreventiveCleanup w = (Ok tt, w).
Proof.
  intros Hk Hsz.
  unfold performPreventiveCleanup, try_catch, bind at 1.
  rewrite getAllKeys_ok by done. unfold bind at 1, get_world.
  rewrite length_map, length_map_to_list.
  assert (E : Qle_bool (inject_Z (Z.of_nat (size (store w))))
                (inject_Z (config_maxSize w) * (4 # 5)) = true).
  { apply Qle_bool_iff. unfold Qle, Qmult, inject_Z. simpl. lia. }
  by rewrite E.
Qed.

(** Without pressure on the storage, the quota check leaves such a store
    alone as well. *)
Lemma checkAndHandleStorageQuota_idle w :
  keysFaults w = [] ->
  relaxed (storageEstimate w) ->
  5 * Z.of_nat (size (store w)) <= 4 * config_maxSize w ->
  checkAndHandleStorageQuota w = (Ok tt, w).
Proof.
  intros Hk Hest Hsz.
  unfold checkAndHandleStorageQuota, try_catch, bind at 1, get_world.
  destruct (storageEstimate w) as [|e|usage quota] eqn:E.
  - reflexivity.
  - cbn [throw]. by apply performPreventiveCleanup_idle.
  - destruct Hest as (Hu & Hq & Hle).
    destruct ((quota =? 0) || (usage =? 0)) eqn:Hz; [reflexivity|].
    apply orb_false_iff in Hz as [Hq0%Z.eqb_neq Hu0%Z.eqb_neq].
    assert (E90 : Qle_bool (inject_Z usage / inject_Z quota * 100) 90 = true).
    { apply Qle_bool_iff. destruct quota as [|q|q]; try lia.
      unfold Qle, Qdiv, Qmult, Qinv, inject_Z. simpl. lia. }
    rewrite E90. cbn [negb].
    destruct (Qle_bool (inject_Z usage / inject_Z quota * 100) 75);
      cbn [negb].
    + reflexivity.
    + rewrite performPreventiveCleanup_idle by done. reflexivity.
Qed.

(** The sweep, step by step, over a store that does not fail and is not
    under pressure. *)
Lemma cleanupExpired_run w :
  isInitialized w = true ->
  quiet w ->
  relaxed (storageEstimate w) ->
  0 < config_maxSize w ->
  config_maxSize w < Z.of_nat (length (validEntries w)) ->
  cleanupExpired jsonR w = (Ok tt, set_store (sweptStore w) w).
Proof.
  intros Hi (Hp & Hg & Hd & Hk) Hest Hmax Hlen.
  unfold cleanupExpired, bind at 1, get_world. rewrite Hi. cbn [negb].
  unfold try_catch, bind at 1. rewrite getAllKeys_ok by done.
  destruct (length (map fst (map_to_list (store w))) =? 0)%nat eqn:Hzero.
  { exfalso. apply Nat.eqb_eq in Hzero. rewrite length_map in Hzero.
    unfold validEntries, verdicts in Hlen.
    destruct (map_to_list (store w)); [simpl in Hlen; lia|done]. }
  unfold bind at 1, analyzeEntriesForCleanup, bind at 1.
  rewrite analyzeAll_ok by done. rewrite analysis_verdicts.
  unfold bind at 1. rewrite deleteEach_ok by done. cbn [ret].
  unfold bind at 1, cleanupExpiredEntries. rewrite deleteEach_ok by done.
  unfold bind at 1, cleanupOldEntriesIfNeeded, bind at 1, get_world.
  cbn [config_maxSize set_store].
  fold (validEntries w).
  destruct (Z.leb_spec (Z.of_nat (length (validEntries w))) (config_maxSize w))
    as [Hle|_]; [lia|].
  rewrite Math_floor_three_quarters.
  assert (Hrem : (Z.max 0 (Z.of_nat (length (sort_by valid_lastAccessed
                                               (validEntries w)))
                           - 3 * config_maxSize w / 4) =? 0) = false).
  { apply Z.eqb_neq.
    rewrite (Permutation_length (sort_by_perm valid_lastAccessed _)).
    pose proof (Z.div_le_upper_bound (3 * config_maxSize w) 4
                  (config_maxSize w) ltac:(lia) ltac:(lia)). lia. }
  rewrite Hrem. rewrite deleteEach_ok by done.
  cbn [store set_store].
  rewrite <- (Math_floor_three_quarters (config_maxSize w)).
  fold (evictedKeys w). fold (sweptStore w).
  destruct (sweptStore_spec w Hmax Hlen) as (_ & Hsize & _).
  rewrite Math_floor_three_quarters in Hsize.
  rewrite checkAndHandleStorageQuota_idle; [reflexivity|done|done|].
  cbn [store set_store config_maxSize]. rewrite Hsize.
  pose proof (Z.mul_div_le (3 * config_maxSize w) 4 ltac:(lia)).
  assert (0 <= 3 * config_maxSize w / 4) by (apply Z.div_pos; lia). lia.
Qed.


End Eviction.


End EvictionFacts.

(** ** The outcome of [handleError] *)

Module RecoveryMore.
Import JS Constants Recovery RecoveryRuns.

Lemma handleError_step s error id :
  let s' := snd (handleError s error id) in
  fallbackMode s' = true
  \/ (fallbackMode s = false
      /\ fallbackMode s' = false
      /\ getRetryCount s id < MAX_RETRIES
      /\ retryCount s' = <[id := getRetryCount s id + 1]> (retryCount s)).
Proof.
  unfold handleError, shouldRetry.
  destruct (getRetryCount s id <? MAX_RETRIES) eqn:Hc; simpl; [|by left].
  destruct (fallbackMode s) eqn:Hf; simpl; [by left|].
  apply Z.ltb_lt in Hc.
  unfold selectRecoveryStrategy. rewrite Hf.
  destruct (detectErrorType error); simpl; rewrite ?Hf; auto.
Qed.

Lemma handleError_keeps_fallback s error id :
  fallbackMode s = true -> fallbackMode (snd (handleError s error id)) = true.
Proof.
  intros H. unfold handleError, shouldRetry. rewrite H.
  by rewrite andb_false_r.
Qed.

Lemma handleErrors_keeps_fallback errors : forall s id,
  fallbackMode s = true -> fallbackMode (handleErrors s id errors) = true.
Proof.
  induction errors as [|e errors IH]; intros s id H; [done|].
  apply IH. by apply handleError_keeps_fallback.
Qed.

Lemma getRetryCount_insert s id c f :
  getRetryCount (mk f (<[id := c]> (retryCount s))) id = c.
Proof. unfold getRetryCount. simpl. by rewrite lookup_insert_eq. Qed.

Lemma handleErrors_exhaust errors : forall s id,
  errors <> [] ->
  MAX_RETRIES - getRetryCount s id < Z.of_nat (length errors) ->
  fallbackMode (handleErrors s id errors) = true.
Proof.
  induction errors as [|e errors IH]; intros s id Hne Hlen; [done|].
  cbn [handleErrors fold_left].
  destruct (handleError_step s e id) as [Hf|(Hf0 & Hf & Hc & Hrc)].
  - by apply (handleErrors_keeps_fallback errors).
  - destruct errors as [|e2 errors].
    + simpl in Hlen. lia.
    + apply IH; [done|].
      assert (E : getRetryCount (snd (handleError s e id)) id
                  = getRetryCount s id + 1).
      { unfold getRetryCount at 1. rewrite Hrc. by rewrite lookup_insert_eq. }
      rewrite E. cbn [length] in Hlen |- *. lia.
Qed.

Lemma handleError_fallback_clears (s : t) (error : JsError) (id : string) :
  fallbackMode (snd (handleError s error id)) = true ->
  retryCount (snd (handleError s error id)) = ∅.
Proof.
  unfold handleError, shouldRetry.
  destruct (getRetryCount s id <? MAX_RETRIES) eqn:Hc; simpl; [|done].
  destruct (fallbackMode s) eqn:Hf; simpl; [done|].
  unfold selectRecoveryStrategy. rewrite Hf.
  destruct (detectErrorType error); simpl; rewrite ?Hf; done.
Qed.

(** [handleError] never reports a failed recovery; it asks for the
    fallback exactly when it has put the strategy in fallback mode, which
    is exactly when the action it reports is the fallback; and entering
    the fallback mode forgets every retry count. *)
Theorem handleError_report (s : t) (error : JsError) (id : string) :
  let o := fst (handleError s error id) in
  let s' := snd (handleError s error id) in
  recovered o = true
  /\ shouldFallback o = fallbackMode s'
  /\ (shouldFallback o = true <-> action o = FALLBACK_TO_NON_CACHED)
  /\ (fallbackMode s' = true -> retryCount s' = ∅).
Proof.
  unfold handleError, shouldRetry.
  destruct (getRetryCount s id <? MAX_RETRIES) eqn:Hc; simpl;
    [|by repeat split].
  destruct (fallbackMode s) eqn:Hf; simpl; [by repeat split|].
  unfold selectRecoveryStrategy. rewrite Hf.
  destruct (detectErrorType error); simpl; rewrite ?Hf;
    repeat split; try done.
Qed.

(** A first failure of an operation that may still be retried: the
    strategy enters the fallback mode exactly for an initialisation or a
    serialisation error; otherwise the retry count of the operation grows
    by one and the counts of the other operations stay. *)
Theorem handleError_first_failure (s : t) (error : JsError) (id : string) :
  shouldRetry s id = true ->
  let s' := snd (handleError s error id) in
  (fallbackMode s' = true
   <-> detectErrorType error = INITIALIZATION_FAILED
       \/ detectErrorType error = SERIALIZATION_ERROR)
  /\ (fallbackMode s' = false ->
      getRetryCount s' id = getRetryCount s id + 1
      /\ forall id', id' <> id -> getRetryCount s' id' = getRetryCount s id').
Proof.
  intros Hr. unfold handleError. rewrite Hr. simpl.
  unfold shouldRetry in Hr. apply andb_true_iff in Hr as [_ Hf].
  apply negb_true_iff in Hf.
  unfold selectRecoveryStrategy. rewrite Hf.
  assert (Hframe : forall f id',
             id' <> id ->
             getRetryCount
               (mk f (<[id := getRetryCount s id + 1]> (retryCount s))) id'
             = getRetryCount s id').
  { intros f id' Hne. unfold getRetryCount. simpl.
    by rewrite lookup_insert_ne. }
  destruct (detectErrorType error); simpl; rewrite ?Hf;
    (split; [split; [intros ?|intros [?|?]]|intros ?]);
    try congruence; try (by left); try (by right);
    (split; [by apply getRetryCount_insert|by apply Hframe]).
Qed.

(** Four failures in a row of one operation put the strategy in
    fallback mode, whatever the errors are, and leave no retry count. *)
Theorem handleError_exhausts (s : t) (id : string) (errors : list JsError) :
  0 <= getRetryCount s id ->
  (4 <= length errors)%nat ->
  fallbackMode (handleErrors s id errors) = true
  /\ forall id', getRetryCount (handleErrors s id errors) id' = 0.
Proof.
  intros Hc Hlen.
  assert (Hf : fallbackMode (handleErrors s id errors) = true).
  { apply handleErrors_exhaust.
    - destruct errors; [simpl in Hlen; lia|done].
    - unfold MAX_RETRIES. lia. }
  split; [done|].
  intros id'.
  destruct (exists_last (l := errors)) as (errors' & e & ->).
  { destruct errors; [simpl in Hlen; lia|done]. }
  unfold handleErrors in *. rewrite fold_left_app in *. cbn [fold_left] in *.
  unfold getRetryCount.
  rewrite (handleError_fallback_clears _ e id Hf). by rewrite lookup_empty.
Qed.

Lemma handleError_exhausts_witness :
  fallbackMode
    (handleErrors init "cache_check_k"
       (repeat (CacheError "Invalid cache entry structure" DATA_CORRUPTION) 4))
  = true.
Proof.
  apply (handleError_exhausts init "cache_check_k"
           (repeat (CacheError "Invalid cache entry structure"
                      DATA_CORRUPTION) 4));
    [vm_compute; congruence|simpl; lia].
Defined.

Lemma handleError_first_failure_witness :
  getRetryCount
    (snd (handleError init (CacheError "Operation timed out" TIMEOUT_ERROR)
            "cache_check_k")) "cache_check_k"
  = getRetryCount init "cache_check_k" + 1.
Proof.
  destruct (handleError_first_failure init
              (CacheError "Operation timed out" TIMEOUT_ERROR)
              "cache_check_k" eq_refl) as [_ H].
  apply H. vm_compute. reflexivity.
Defined.

End RecoveryMore.

(** ** Lookups and writes over a store that can fail *)

Module FrameFacts.
Import JS Constants Cache Frames StoreStates CacheFacts.

Section Frames.
Context {R : Type}.
Implicit Type w : World R.
Implicit Type touched : string -> Prop.

Lemma within_refl touched w : within touched w w.
Proof. by repeat split. Qed.

Lemma within_trans touched w1 w2 w3 :
  within touched w1 w2 -> within touched w2 w3 -> within touched w1 w3.
Proof.
  intros (a1 & a2 & a3 & a4 & a5 & a6 & a7 & a8 & a9 & a10 & a11 & a12)
         (b1 & b2 & b3 & b4 & b5 & b6 & b7 & b8 & b9 & b10 & b11 & b12).
  repeat split; try congruence; try (by etrans).
  intros k Hk. rewrite b8, a8; done.
Qed.

Lemma within_quiet touched w w' :
  within touched w w' -> quiet w -> quiet w'.
Proof.
  intros (_ & _ & _ & _ & _ & _ & _ & _ & a9 & a10 & a11 & a12)
         (Hp & Hg & Hd & Hk).
  rewrite Hp in a9. rewrite Hg in a10. rewrite Hd in a11. rewrite Hk in a12.
  repeat split; by apply suffix_nil_inv.
Qed.

Lemma within_weaken (touched touched' : string -> Prop) w w' :
  (forall k, touched k -> touched' k) ->
  within touched w w' -> within touched' w w'.
Proof.
  intros Hsub (a1 & a2 & a3 & a4 & a5 & a6 & a7 & a8 & a9).
  repeat split; try done; try apply a9.
  intros k Hk. apply a8. intros Ht. by apply Hk, Hsub.
Qed.

Lemma within_set_errorRecovery touched s w :
  within touched w (set_errorRecovery s w).
Proof. by destruct w. Qed.

Lemma settles_weaken {A} (touched touched' : string -> Prop) (m : M R A) :
  (forall k, touched k -> touched' k) ->
  settles touched m -> settles touched' m.
Proof.
  intros Hsub Hm w. destruct (Hm w) as (H1 & H2 & H3).
  split; [done|]. split; [done|]. by apply (within_weaken touched).
Qed.

Lemma settles_ret {A} touched (a : A) : settles touched (ret a : M R A).
Proof. intros w. repeat split; done. Qed.

Lemma settles_throw {A} touched e : settles touched (throw e : M R A).
Proof. intros w. repeat split; done. Qed.

Lemma settles_get_world touched : settles touched (get_world : M R _).
Proof. intros w. repeat split; done. Qed.

Lemma settles_bind {A B} touched (m : M R A) (k : A -> M R B) :
  settles touched m -> (forall a, settles touched (k a)) ->
  settles touched (bind m k).
Proof.
  intros Hm Hk w. unfold bind. destruct (Hm w) as (H1 & H2 & H3).
  destruct (m w) as [[a|e|] w1]; simpl in *; [|done|done].
  destruct (Hk a w1) as (K1 & K2 & K3).
  split; [done|]. split; [congruence|]. by apply (within_trans _ _ w1).
Qed.

Lemma settles_try_catch {A} touched (m : M R A) (h : JsError -> M R A) :
  settles touched m -> (forall e, settles touched (h e)) ->
  settles touched (try_catch m h).
Proof.
  intros Hm Hh w. unfold try_catch. destruct (Hm w) as (H1 & H2 & H3).
  destruct (m w) as [[a|e|] w1]; simpl in *; [done| |done].
  destruct (Hh e w1) as (K1 & K2 & K3).
  split; [done|]. split; [congruence|]. by apply (within_trans _ _ w1).
Qed.

Lemma settles_get touched key : settles touched (Db.get key : M R _).
Proof.
  intros w. unfold Db.get. destruct w as [? ? ? ? ? ? ? ? ? gf ? ? ?].
  destruct gf as [|[e|] gf]; simpl; repeat split; try done;
    by apply suffix_cons_r.
Qed.

Lemma settles_getAllKeys touched : settles touched (Db.getAllKeys : M R _).
Proof.
  intros w. unfold Db.getAllKeys. destruct w as [? ? ? ? ? ? ? ? ? ? ? kf ?].
  destruct kf as [|[e|] kf]; simpl; repeat split; try done;
    by apply suffix_cons_r.
Qed.

Lemma settles_put (touched : string -> Prop) key (v : Raw R) :
  touched key -> settles touched (Db.put key v).
Proof.
  intros Ht w. unfold Db.put. destruct w as [? ? ? ? ? ? ? ? pf ? ? ? ?].
  destruct pf as [|[e|] pf]; simpl; repeat split; try done;
    try (by apply suffix_cons_r);
    intros k Hk; apply lookup_insert_ne; intros ->; done.
Qed.

Lemma settles_delete (touched : string -> Prop) key :
  touched key -> settles touched (Db.delete key : M R _).
Proof.
  intros Ht w. unfold Db.delete. destruct w as [? ? ? ? ? ? ? ? ? ? df ? ?].
  destruct df as [|[e|] df]; simpl; repeat split; try done;
    try (by apply suffix_cons_r);
    intros k Hk; apply lookup_delete_ne; intros ->; done.
Qed.

Lemma settles_clear : settles (fun _ => True) (Db.clear : M R _).
Proof.
  intros w. unfold Db.clear. destruct w as [? ? ? ? ? ? ? ? ? ? df ? ?].
  destruct df as [|[e|] df]; simpl; repeat split; try done;
    try (by apply suffix_cons_r);
    intros k Hk; by destruct Hk.
Qed.

Lemma settles_validate touched raw :
  settles touched (validateCacheEntry raw : M R _).
Proof.
  unfold validateCacheEntry. destruct raw as [[e|]|];
    try apply settles_throw.
  destruct (_ =? _)%nat; [apply settles_throw|].
  destruct (_ || _); [apply settles_throw|apply settles_ret].
Qed.

Lemma settles_isCacheExpired touched (e : CacheEntry R) :
  settles touched (isCacheExpired e).
Proof. intros w. repeat split; done. Qed.

Lemma settles_updateLastAccessed (touched : string -> Prop) key
    (e : CacheEntry R) :
  touched key -> settles touched (updateLastAccessed key e).
Proof.
  intros Ht. unfold updateLastAccessed. apply settles_try_catch.
  - apply settles_bind; [apply settles_get_world|].
    intros w. by apply settles_put.
  - intros _. apply settles_ret.
Qed.

End Frames.
End FrameFacts.

Module WrapperFacts.
Import JS Constants Cache Frames StoreStates CacheFacts FrameFacts.

Lemma handleError_cases (s : Recovery.t) error id :
  let o := fst (Recovery.handleError s error id) in
  let s' := snd (Recovery.handleError s error id) in
  (Recovery.shouldFallback o = true /\ Recovery.fallbackMode s' = true
   /\ Recovery.retryCount s' = ∅)
  \/ (Recovery.shouldFallback o = false
      /\ Recovery.fallbackMode s = false
      /\ Recovery.fallbackMode s' = false
      /\ Recovery.getRetryCount s id < MAX_RETRIES
      /\ Recovery.retryCount s'
         = <[id := Recovery.getRetryCount s id + 1]> (Recovery.retryCount s)
      /\ (Recovery.action o = RETRY_OPERATION
          <-> Recovery.detectErrorType error = TIMEOUT_ERROR)).
Proof.
  unfold Recovery.handleError, Recovery.shouldRetry.
  destruct (Recovery.getRetryCount s id <? MAX_RETRIES) eqn:Hc; simpl;
    [|by left].
  destruct (Recovery.fallbackMode s) eqn:Hf; simpl; [by left|].
  apply Z.ltb_lt in Hc.
  unfold Recovery.selectRecoveryStrategy. rewrite Hf.
  destruct (Recovery.detectErrorType error); simpl; rewrite ?Hf;
    try (by left); right; repeat split; done.
Qed.

Lemma sane_reset s id : sane s -> sane (Recovery.resetRetryCount s id).
Proof.
  intros Hs id'. unfold Recovery.getRetryCount, Recovery.resetRetryCount.
  simpl. destruct (decide (id = id')) as [->|Hne].
  - by rewrite lookup_delete_eq.
  - rewrite lookup_delete_ne by done. apply Hs.
Qed.

Lemma sane_handleError s e id :
  sane s -> sane (snd (Recovery.handleError s e id)).
Proof.
  intros Hs id'.
  destruct (handleError_cases s e id) as [(_ & _ & Hc)|(_ & _ & _ & _ & Hc & _)];
    unfold Recovery.getRetryCount; rewrite Hc.
  - by rewrite lookup_empty.
  - destruct (decide (id = id')) as [->|Hne].
    + rewrite lookup_insert_eq. specialize (Hs id'). lia.
    + rewrite lookup_insert_ne by done. apply Hs.
Qed.

Section Wrapper.
Context {R : Type}.
Implicit Type w : World R.

Lemma wrapper_settles {A} (touched : string -> Prop) (op : M R A)
    (fallbackValue : A) (id : string) :
  settles touched op ->
  forall fuel w,
    MAX_RETRIES - Recovery.getRetryCount (errorRecovery w) id
    <= Z.of_nat fuel + 1 ->
    exists a w',
      createRecoveryWrapper fuel id op fallbackValue w = (Ok a, w')
      /\ within touched w w'.
Proof.
  intros Hop. induction fuel as [|fuel IH]; intros w Hc;
    cbn [createRecoveryWrapper];
    (destruct (Recovery.fallbackMode (errorRecovery w)) eqn:Hfb;
     [eexists _, _; split; [reflexivity|apply within_refl]|]);
    destruct (Hop w) as (Hp & Hr & Hw);
    (destruct (op w) as [[a|e|] w1]; simpl in Hp, Hr, Hw; [| |done]);
    try (eexists _, _; split; [reflexivity|];
         apply (within_trans _ _ w1); [done|apply within_set_errorRecovery]);
    pose proof (handleError_cases (errorRecovery w1) e id) as Hcases;
    (destruct (Recovery.handleError (errorRecovery w1) e id) as [o s]);
    simpl in Hcases;
    (destruct Hcases as [(Hsf & _)|(Hsf & _ & _ & Hlt & Hrc & _)];
     rewrite Hsf;
     [eexists _, _; split; [reflexivity|];
      apply (within_trans _ _ w1); [done|apply within_set_errorRecovery]|]);
    (assert (Hcount : Recovery.getRetryCount s id
                      = Recovery.getRetryCount (errorRecovery w) id + 1)
       by (unfold Recovery.getRetryCount at 1; rewrite Hrc, Hr;
           by rewrite lookup_insert_eq));
    (destruct (Recovery.action o);
     try (eexists _, _; split; [reflexivity|];
          apply (within_trans _ _ w1);
          [done|apply within_set_errorRecovery]));
    (destruct (Recovery.shouldRetry s id) eqn:Hsr;
     [|eexists _, _; split; [reflexivity|];
       apply (within_trans _ _ w1); [done|apply within_set_errorRecovery]]);
    unfold Recovery.shouldRetry in Hsr;
    apply andb_true_iff in Hsr as [Hsr%Z.ltb_lt _].
  - exfalso. unfold MAX_RETRIES in *. lia.
  - destruct (IH (set_errorRecovery s w1)) as (a & w' & Hrun & Hw').
    { replace (errorRecovery (set_errorRecovery s w1)) with s
        by (by destruct w1).
      rewrite Hcount. lia. }
    exists a, w'. split; [exact Hrun|].
    apply (within_trans _ _ w1); [done|].
    apply (within_trans _ _ (set_errorRecovery s w1));
      [apply within_set_errorRecovery|done].
Qed.

Lemma wrapper_sane {A} (touched : string -> Prop) (op : M R A)
    (fallbackValue : A) (id : string) :
  settles touched op ->
  forall fuel w,
    sane (errorRecovery w) ->
    sane (errorRecovery
            (snd (createRecoveryWrapper fuel id op fallbackValue w))).
Proof.
  intros Hop. induction fuel as [|fuel IH]; intros w Hs;
    cbn [createRecoveryWrapper];
    (destruct (Recovery.fallbackMode (errorRecovery w)); [done|]);
    destruct (Hop w) as (Hp & Hr & _);
    (destruct (op w) as [[a|e|] w1]; simpl in Hp, Hr; [| |done]);
    try (simpl; replace (errorRecovery (set_errorRecovery _ w1))
           with (Recovery.resetRetryCount (errorRecovery w1) id)
           by (by destruct w1);
         rewrite Hr; by apply sane_reset);
    pose proof (sane_handleError (errorRecovery w1) e id) as Hh;
    rewrite Hr in Hh; specialize (Hh Hs); rewrite <- Hr in Hh;
    (destruct (Recovery.handleError (errorRecovery w1) e id) as [o s]);
    simpl in Hh;
    (assert (Hset : sane (errorRecovery (set_errorRecovery s w1)))
       by (by destruct w1));
    (destruct (Recovery.shouldFallback o); [done|]);
    (destruct (Recovery.action o); try done);
    (destruct (Recovery.shouldRetry s id); [|done]).
  - done.
  - by apply IH.
Qed.

End Wrapper.
End WrapperFacts.

Module LookupFacts.
Import JS Constants Cache Frames StoreStates CacheFacts FrameFacts WrapperFacts.

Section Lookup.
Context {R : Type}.
Implicit Type w : World R.

(** The operation [checkCache] hands to the recovery wrapper. *)
Local Abbreviation checkOperation key :=
  (do rawEntry <- Db.get key;
   match rawEntry with
   | None => ret None
   | Some raw =>
       do cacheEntry <- validateCacheEntry (Some raw);
       do expired <- isCacheExpired cacheEntry;
       if expired then Db.delete key ;; ret None
       else
         updateLastAccessed key cacheEntry ;;
         ret (Some
                (mkResult (entry_data cacheEntry)
                   (entry_isComplete cacheEntry)
                   (meta_timestamp (entry_metadata cacheEntry))
                   (entry_batches cacheEntry)))
   end : M R (option (CacheResult R))).

Lemma settles_checkOperation key :
  settles (fun k => k = key) (checkOperation key).
Proof.
  apply settles_bind; [apply settles_get|]. intros [raw|]; [|apply settles_ret].
  apply settles_bind; [apply settles_validate|]. intros e.
  apply settles_bind; [apply settles_isCacheExpired|]. intros [|].
  - apply settles_bind; [by apply settles_delete|]. intros _. apply settles_ret.
  - apply settles_bind; [by apply settles_updateLastAccessed|].
    intros _. apply settles_ret.
Qed.

Lemma checkCache_unfold key w :
  isInitialized w = true ->
  Recovery.fallbackMode (errorRecovery w) = false ->
  checkCache key w
  = try_catch
      (createRecoveryWrapper (Z.to_nat MAX_RETRIES) ("cache_check_" ++ key)
         (checkOperation key) None)
      (fun _ => ret None) w.
Proof.
  intros Hi Hf. unfold checkCache, Recovery.isInFallbackMode.
  by rewrite Hi, Hf.
Qed.

(** [checkCache] always resolves, and all it changes is the entry of the
    key and the book of the error recovery. *)
Theorem checkCache_always_resolves (key : string) w :
  0 <= Recovery.getRetryCount (errorRecovery w) ("cache_check_" ++ key) ->
  exists r w',
    checkCache key w = (Ok r, w')
    /\ within (fun k => k = key) w w'.
Proof.
  intros Hc.
  destruct (isInitialized w) eqn:Hi;
    [|exists None, w; split; [|apply within_refl];
      unfold checkCache; by rewrite Hi].
  destruct (Recovery.fallbackMode (errorRecovery w)) eqn:Hf;
    [exists None, w; split; [|apply within_refl];
     unfold checkCache, Recovery.isInFallbackMode; rewrite Hi, Hf; done|].
  rewrite checkCache_unfold by done.
  destruct (wrapper_settles (fun k => k = key) (checkOperation key) None
              ("cache_check_" ++ key) (settles_checkOperation key)
              (Z.to_nat MAX_RETRIES) w) as (a & w' & Hrun & Hw).
  { unfold MAX_RETRIES. simpl. lia. }
  exists a, w'. unfold try_catch. by rewrite Hrun.
Qed.

(** The result [checkCache] gives for an entry. *)
Local Abbreviation resultOf e :=
  (mkResult (entry_data e) (entry_isComplete e)
     (meta_timestamp (entry_metadata e)) (entry_batches e) : CacheResult R).

Lemma validate_cases (raw : Raw R) w :
  (exists e, raw = RawEntry e /\ wellFormed e
             /\ validateCacheEntry (Some raw) w = (Ok e, w))
  \/ (malformed raw
      /\ exists msg,
           validateCacheEntry (Some raw) w
           = (Throw (CacheError msg DATA_CORRUPTION), w)).
Proof.
  unfold validateCacheEntry. destruct raw as [e|]; [|right; split; eauto; done].
  destruct (String.length (entry_key e) =? 0)%nat eqn:Hk.
  { right. split; [|eauto]. left. apply Nat.eqb_eq in Hk.
    by destruct (entry_key e). }
  destruct (String.length (entry_version e) =? 0)%nat eqn:Hv.
  { right. split; [|eauto]. right. apply Nat.eqb_eq in Hv.
    by destruct (entry_version e). }
  destruct (startsWith (entry_version e) (before_dot CACHE_VERSION)) eqn:Hs.
  - left. exists e. repeat split; done.
  - right. split; [|eauto]. right. exact Hs.
Qed.

Lemma checkOperation_cases key w :
  match checkOperation key w with
  | (Ok (Some r), _) =>
      exists e, store w !! key = Some (RawEntry e) /\ wellFormed e
                /\ now w - meta_timestamp (entry_metadata e) <= config_maxAge w
                /\ r = resultOf e
  | (Ok None, _) => True
  | (Throw _, w1) =>
      store w1 = store w /\ now w1 = now w
      /\ config_maxAge w1 = config_maxAge w
  | (Pending, _) => False
  end.
Proof.
  destruct (settles_get (fun _ => False) key w) as (Hp & _ & Hw).
  unfold bind at 1.
  assert (Hget : forall a w1, Db.get key w = (Ok a, w1) ->
                   a = store w !! key /\ store w1 = store w
                   /\ now w1 = now w /\ config_maxAge w1 = config_maxAge w).
  { unfold Db.get. destruct w as [? ? ? ? ? ? ? ? ? gf ? ? ?].
    destruct gf as [|[e|] gf]; simpl; intros a w1 [= <- <-]; done. }
  assert (Hgetf : forall e w1, Db.get key w = (Throw e, w1) ->
                   store w1 = store w
                   /\ now w1 = now w /\ config_maxAge w1 = config_maxAge w).
  { unfold Db.get. destruct w as [? ? ? ? ? ? ? ? ? gf ? ? ?].
    destruct gf as [|[e|] gf]; simpl; intros e' w1 [=]; subst; done. }
  destruct (Db.get key w) as [[a|e|] w1] eqn:Eg; [| by eapply Hgetf |done].
  destruct (Hget a w1 eq_refl) as (-> & Hs & Hn & Hm).
  destruct (store w !! key) as [raw|] eqn:Hraw; [|done].
  unfold bind at 1.
  destruct (validate_cases raw w1) as [(e & -> & Hwf & Hv)|(_ & msg & Hv)];
    rewrite Hv; [|done].
  unfold bind at 1, isCacheExpired. rewrite Hn, Hm.
  destruct (Z.gtb_spec (now w - meta_timestamp (entry_metadata e))
              (config_maxAge w)) as [Hgt|Hle].
  - unfold bind at 1, Db.delete.
    destruct w1 as [? ? ? ? ? ? ? ? ? ? df ? ?]. simpl in *.
    destruct df as [|[e'|] df]; simpl; done.
  - unfold bind at 1.
    destruct (settles_updateLastAccessed (fun k => k = key) key e eq_refl w1)
      as (Hp1 & _).
    assert (Hnt : forall err, fst (updateLastAccessed key e w1) <> Throw err).
    { intros err. unfold updateLastAccessed, try_catch.
      destruct (bind _ _ w1) as [[[]|e'|] w2]; done. }
    destruct (updateLastAccessed key e w1) as [[[]|e'|] w2];
      [|by destruct (Hnt e')|done].
    unfold ret. exists e. split; [done|]. split; [exact Hwf|].
    split; [exact Hle|reflexivity].
Qed.

Lemma wrapper_check_sound key fuel : forall w r w',
  createRecoveryWrapper fuel ("cache_check_" ++ key) (checkOperation key)
    None w = (Ok (Some r), w') ->
  exists e, store w !! key = Some (RawEntry e) /\ wellFormed e
            /\ now w - meta_timestamp (entry_metadata e) <= config_maxAge w
            /\ r = resultOf e.
Proof.
  induction fuel as [|fuel IH]; intros w r w'; cbn [createRecoveryWrapper];
    (destruct (Recovery.fallbackMode (errorRecovery w)); [done|]);
    pose proof (checkOperation_cases key w) as Hcases;
    (destruct (checkOperation key w) as [[[r1|]|e|] w1];
     [by intros [= <- <-]|done| |done]);
    (destruct (Recovery.handleError (errorRecovery w1) e _) as [o s]);
    (destruct (Recovery.shouldFallback o); [done|]);
    (destruct (Recovery.action o); try done);
    (destruct (Recovery.shouldRetry s _); [|done]); [done|].
  intros Hrun. apply IH in Hrun as (e0 & H1 & H2 & H3 & H4).
  destruct Hcases as (Hs & Hn & Hm).
  exists e0. replace (store (set_errorRecovery s w1)) with (store w1) in H1
    by (by destruct w1).
  replace (now (set_errorRecovery s w1)) with (now w1) in H3
    by (by destruct w1).
  replace (config_maxAge (set_errorRecovery s w1)) with (config_maxAge w1) in H3
    by (by destruct w1).
  rewrite Hs in H1. rewrite Hn, Hm in H3. done.
Qed.

(** Whatever the store does, what [checkCache] returns is the stored
    entry of the key, and that entry validates and has not expired. *)
Theorem checkCache_sound (key : string) w (r : CacheResult R) w' :
  checkCache key w = (Ok (Some r), w') ->
  exists e,
    store w !! key = Some (RawEntry e)
    /\ wellFormed e
    /\ now w - meta_timestamp (entry_metadata e) <= config_maxAge w
    /\ r = resultOf e.
Proof.
  unfold checkCache.
  destruct (negb (isInitialized w) || _); [done|].
  unfold try_catch.
  destruct (createRecoveryWrapper _ _ _ _ w) as [[a|e|] w1] eqn:Hrun;
    [|done|done].
  intros [= -> ->]. by apply (wrapper_check_sound key (Z.to_nat MAX_RETRIES) w r w').
Qed.

Lemma malformed_not_wellFormed (e : CacheEntry R) :
  malformed (RawEntry e) -> ~ wellFormed e.
Proof.
  intros [Hk|Hv] (H1 & H2 & H3).
  - by rewrite Hk in H1.
  - change (before_dot CACHE_VERSION) with "1" in H3, Hv. congruence.
Qed.

(** One lookup of a key whose value does not validate. *)
Lemma checkCache_malformed_eq key w (raw : Raw R) :
  isInitialized w = true ->
  getFaults w = [] ->
  store w !! key = Some raw ->
  malformed raw ->
  let id := "cache_check_" ++ key in
  exists s,
    checkCache key w = (Ok None, set_errorRecovery s w)
    /\ (Recovery.fallbackMode (errorRecovery w) = true -> s = errorRecovery w)
    /\ (Recovery.fallbackMode (errorRecovery w) = false ->
        Recovery.fallbackMode s = true
        \/ (Recovery.fallbackMode s = false
            /\ Recovery.getRetryCount (errorRecovery w) id < MAX_RETRIES
            /\ Recovery.getRetryCount s id
               = Recovery.getRetryCount (errorRecovery w) id + 1)).
Proof.
  intros Hi Hg Hs Hmal id.
  destruct (Recovery.fallbackMode (errorRecovery w)) eqn:Hf.
  { exists (errorRecovery w). rewrite checkCache_fallback by done.
    split; [by destruct w|done]. }
  rewrite checkCache_unfold by done.
  change (Z.to_nat MAX_RETRIES) with 3%nat.
  unfold try_catch at 1. cbn [createRecoveryWrapper]. rewrite Hf.
  unfold bind at 1. rewrite get_ok by done. rewrite Hs. unfold bind at 1.
  destruct (validate_cases raw w) as [(e & -> & Hwf & _)|(_ & msg & ->)].
  { by destruct (malformed_not_wellFormed e). }
  pose proof (handleError_cases (errorRecovery w)
                (CacheError msg DATA_CORRUPTION) id) as Hcases.
  fold id.
  destruct (Recovery.handleError (errorRecovery w)
              (CacheError msg DATA_CORRUPTION) id) as [o s].
  simpl in Hcases. exists s.
  destruct Hcases as [(Hsf & Hfb & _)|(Hsf & _ & Hfb & Hlt & Hrc & Hact)];
    rewrite Hsf.
  - split; [done|]. split; [done|]. intros _. by left.
  - assert (Hnr : Recovery.action o <> RETRY_OPERATION).
    { intros Ha. apply Hact in Ha. done. }
    assert (Hcount : Recovery.getRetryCount s id
                     = Recovery.getRetryCount (errorRecovery w) id + 1).
    { unfold Recovery.getRetryCount at 1. rewrite Hrc.
      by rewrite lookup_insert_eq. }
    destruct (Recovery.action o); try done;
      (split; [done|]; split; [done|]; intros _; by right).
Qed.

Lemma checkCache_malformed_step key w (raw : Raw R) :
  isInitialized w = true ->
  getFaults w = [] ->
  store w !! key = Some raw ->
  malformed raw ->
  let id := "cache_check_" ++ key in
  let w' := snd (checkCache key w) in
  fst (checkCache key w) = Ok None
  /\ store w' = store w /\ getFaults w' = [] /\ isInitialized w' = true
  /\ (Recovery.fallbackMode (errorRecovery w) = true ->
      errorRecovery w' = errorRecovery w)
  /\ (Recovery.fallbackMode (errorRecovery w) = false ->
      Recovery.fallbackMode (errorRecovery w') = true
      \/ (Recovery.fallbackMode (errorRecovery w') = false
          /\ Recovery.getRetryCount (errorRecovery w) id < MAX_RETRIES
          /\ Recovery.getRetryCount (errorRecovery w') id
             = Recovery.getRetryCount (errorRecovery w) id + 1)).
Proof.
  intros Hi Hg Hs Hmal id w'. subst w'.
  destruct (checkCache_malformed_eq key w raw Hi Hg Hs Hmal)
    as (s & -> & K1 & K2).
  replace (errorRecovery (set_errorRecovery s w)) with s by (by destruct w).
  split; [done|]. split; [by destruct w|]. split; [by destruct w|].
  split; [by destruct w|]. done.
Qed.

(** A value that does not validate is never removed by [checkCache]:
    every lookup of its key is a miss that leaves the store as it is and
    counts as a failure of the operation, and from the fourth lookup on
    the manager is in fallback mode. *)
Theorem checkCache_malformed_disables (key : string) w (raw : Raw R)
    (n : nat) :
  isInitialized w = true ->
  getFaults w = [] ->
  store w !! key = Some raw ->
  malformed raw ->
  0 <= Recovery.getRetryCount (errorRecovery w) ("cache_check_" ++ key) ->
  fst (checkCache key (lookups key n w)) = Ok None
  /\ store (lookups key n w) = store w
  /\ ((4 <= n)%nat ->
      Recovery.isInFallbackMode (errorRecovery (lookups key n w)) = true).
Proof.
  intros Hi Hg Hs Hmal Hc.
  set (id := "cache_check_" ++ key) in *.
  set (c0 := Recovery.getRetryCount (errorRecovery w) id) in *.
  assert (Hinv : forall n,
             let wn := lookups key n w in
             store wn = store w /\ getFaults wn = []
             /\ isInitialized wn = true
             /\ (Recovery.fallbackMode (errorRecovery wn) = true
                 \/ (Recovery.getRetryCount (errorRecovery wn) id
                     = c0 + Z.of_nat n
                     /\ (n = O \/ c0 + Z.of_nat n <= MAX_RETRIES)))).
  { clear n. induction n as [|n (IH1 & IH2 & IH3 & IH4)].
    - simpl. repeat split; try done. right. split; [subst c0; lia|by left].
    - change (lookups key (S n) w)
        with (snd (checkCache key (lookups key n w))).
      destruct (checkCache_malformed_step key (lookups key n w) raw)
        as (_ & K1 & K2 & K3 & K4 & K5); try done.
      { by rewrite IH1. }
      fold id in K5.
      split; [congruence|]. split; [done|]. split; [done|].
      destruct (Recovery.fallbackMode (errorRecovery (lookups key n w)))
        eqn:Hf.
      + left. rewrite K4; done.
      + destruct IH4 as [IH4|(IH4 & _)]; [congruence|].
        destruct (K5 eq_refl) as [K|(_ & K6 & K7)]; [by left|].
        right. rewrite K7, IH4. split; [lia|]. right. lia. }
  destruct (Hinv n) as (I1 & I2 & I3 & I4).
  split; [|split; [done|]].
  - destruct (checkCache_malformed_step key (lookups key n w) raw)
      as (K & _); try done. by rewrite I1.
  - intros Hn. destruct I4 as [I4|(_ & [->|I4])]; [done|lia|].
    unfold MAX_RETRIES in I4. lia.
Qed.

(** [checkCache] does not return an expired entry: it deletes it. *)
Theorem checkCache_deletes_expired (key : string) w (e : CacheEntry R) :
  isInitialized w = true ->
  Recovery.fallbackMode (errorRecovery w) = false ->
  getFaults w = [] ->
  deleteFaults w = [] ->
  store w !! key = Some (RawEntry e) ->
  wellFormed e ->
  config_maxAge w < now w - meta_timestamp (entry_metadata e) ->
  fst (checkCache key w) = Ok None
  /\ store (snd (checkCache key w)) = delete key (store w).
Proof.
  intros Hi Hf Hg Hd Hs Hwf Hage.
  assert (E : checkCache key w
              = (Ok None,
                 set_errorRecovery
                   (Recovery.resetRetryCount (errorRecovery w)
                      ("cache_check_" ++ key))
                   (set_store (delete key (store w)) w))).
  { rewrite checkCache_unfold by done.
    change (Z.to_nat MAX_RETRIES) with 3%nat.
    unfold try_catch at 1. cbn [createRecoveryWrapper]. rewrite Hf.
    unfold bind at 1. rewrite get_ok by done. rewrite Hs.
    unfold bind at 1. rewrite validate_wellFormed by done.
    unfold bind at 1, isCacheExpired.
    destruct (Z.gtb_spec (now w - meta_timestamp (entry_metadata e))
                (config_maxAge w)) as [_|Hle]; [|lia].
    unfold bind at 1. rewrite delete_ok by done. by destruct w. }
  rewrite E. split; [done|]. by destruct w.
Qed.

Lemma checkCache_hit_run (key : string) w (e : CacheEntry R) :
  isInitialized w = true ->
  Recovery.fallbackMode (errorRecovery w) = false ->
  getFaults w = [] ->
  putFaults w = [] ->
  store w !! key = Some (RawEntry e) ->
  wellFormed e ->
  now w - meta_timestamp (entry_metadata e) <= config_maxAge w ->
  checkCache key w
  = (Ok (Some (resultOf e)),
     set_errorRecovery
       (Recovery.resetRetryCount (errorRecovery w)
          ("cache_check_" ++ key))
       (set_store
          (<[key := RawEntry
                      (mkEntry (entry_key e) (entry_data e)
                         (touch (now w) (entry_metadata e))
                         (entry_batches e) (entry_isComplete e)
                         (entry_version e))]> (store w)) w)).
Proof.
  intros Hi Hf Hg Hp Hs Hwf Hage.
  { rewrite checkCache_unfold by done.
    change (Z.to_nat MAX_RETRIES) with 3%nat.
    unfold try_catch at 1. cbn [createRecoveryWrapper]. rewrite Hf.
    unfold bind at 1. rewrite get_ok by done. rewrite Hs.
    unfold bind at 1. rewrite validate_wellFormed by done.
    unfold bind at 1, isCacheExpired.
    destruct (Z.gtb_spec (now w - meta_timestamp (entry_metadata e))
                (config_maxAge w)) as [Hgt|_]; [lia|].
    unfold bind at 1, updateLastAccessed, try_catch at 1, bind at 1,
      get_world.
    rewrite put_ok by done. by destruct w. }
Qed.

(** A hit returns the entry as stored and moves its time of last access
    to the time of the lookup. *)
Theorem checkCache_hit_touches (key : string) w (e : CacheEntry R) :
  isInitialized w = true ->
  Recovery.fallbackMode (errorRecovery w) = false ->
  getFaults w = [] ->
  putFaults w = [] ->
  store w !! key = Some (RawEntry e) ->
  wellFormed e ->
  now w - meta_timestamp (entry_metadata e) <= config_maxAge w ->
  fst (checkCache key w) = Ok (Some (resultOf e))
  /\ store (snd (checkCache key w))
     = <[key := RawEntry
                  (mkEntry (entry_key e) (entry_data e)
                     (touch (now w) (entry_metadata e)) (entry_batches e)
                     (entry_isComplete e) (entry_version e))]> (store w)
  /\ Recovery.getRetryCount (errorRecovery (snd (checkCache key w)))
       ("cache_check_" ++ key) = 0.
Proof.
  intros Hi Hf Hg Hp Hs Hwf Hage.
  rewrite (checkCache_hit_run key w e) by done.
  split; [done|]. split; [by destruct w|].
  unfold Recovery.getRetryCount. destruct w; simpl.
  by rewrite lookup_delete_eq.
Qed.

End Lookup.

Lemma checkCache_sound_witness :
  exists e,
    store Inputs.fifteenEntries !! "entry3" = Some (RawEntry e)
    /\ wellFormed e.
Proof.
  destruct (checkCache "entry3" Inputs.fifteenEntries) as [res w'] eqn:E.
  assert (Hres : exists r, res = Ok (Some r)).
  { vm_compute in E. injection E as <- _. eauto. }
  destruct Hres as [r ->].
  destruct (checkCache_sound "entry3" Inputs.fifteenEntries r w' E)
    as (e & H1 & H2 & _).
  by exists e.
Defined.

Section RoundTrip.
Context {R : Type} (jsonR : R -> string).
Implicit Type w : World R.

Lemma getOrCreate_malformed w key data (raw : Raw R) :
  getFaults w = [] ->
  store w !! key = Some raw ->
  malformed raw ->
  getOrCreateCacheEntry jsonR key data w
  = (Ok (newEntry jsonR w key data), w).
Proof.
  intros Hg Hs Hmal. unfold getOrCreateCacheEntry, bind at 1, try_catch.
  unfold bind at 1. rewrite get_ok by done. rewrite Hs. unfold bind at 1.
  destruct (validate_cases raw w) as [(e & -> & Hwf & _)|(_ & msg & ->)].
  { by destruct (malformed_not_wellFormed e). }
  reflexivity.
Qed.

(** What [markComplete] writes when the store works. *)
Lemma markComplete_writes fuel w key totalResult :
  isInitialized w = true ->
  getFaults w = [] ->
  putFaults w = [] ->
  exists e0,
    markComplete jsonR fuel key totalResult w
    = (Ok tt,
       set_store
         (<[key := RawEntry (completedEntry jsonR w e0 totalResult)]>
            (store w)) w)
    /\ ((store w !! key = Some (RawEntry e0) /\ wellFormed e0)
        \/ e0 = newEntry jsonR w key totalResult).
Proof.
  intros Hi Hg Hp.
  destruct (store w !! key) as [raw|] eqn:Hs.
  - destruct (validate_cases raw w) as [(e & -> & Hwf & _)|(Hmal & _)].
    + exists e. split; [by apply markComplete_present|by left].
    + exists (newEntry jsonR w key totalResult). split; [|by right].
      destruct fuel; cbn [markComplete]; rewrite Hi; simpl;
        unfold try_catch, bind;
        rewrite (getOrCreate_malformed _ _ _ raw) by done;
        unfold get_world; rewrite put_ok by done; reflexivity.
  - exists (newEntry jsonR w key totalResult).
    split; [by apply markComplete_absent|by right].
Qed.

(** After [markComplete(key, result)] on a store that works,
    [checkCache(key)] returns the result, marked complete, provided the
    entry the key had, if it had one that validates, has not expired:
    [markComplete] keeps the time stamp of that entry. *)
Theorem markComplete_then_checkCache (fuel : nat) (key : string)
    (totalResult : list R) w :
  isInitialized w = true ->
  Recovery.fallbackMode (errorRecovery w) = false ->
  getFaults w = [] ->
  putFaults w = [] ->
  key <> "" ->
  0 <= config_maxAge w ->
  (forall e, store w !! key = Some (RawEntry e) -> wellFormed e ->
             now w - meta_timestamp (entry_metadata e) <= config_maxAge w) ->
  exists r,
    fst (checkCache key (snd (markComplete jsonR fuel key totalResult w)))
    = Ok (Some r)
    /\ result_data r = totalResult
    /\ result_isComplete r = true.
Proof.
  intros Hi Hf Hg Hp Hkey Hage Hfresh.
  destruct (markComplete_writes fuel w key totalResult Hi Hg Hp)
    as (e0 & -> & He0).
  cbn [snd].
  set (e1 := completedEntry jsonR w e0 totalResult).
  set (w1 := set_store _ w).
  assert (Hwf : wellFormed e1).
  { destruct He0 as [(_ & Hwf)| ->]; [exact Hwf|].
    repeat split; try done. simpl.
    destruct key; [done|reflexivity]. }
  assert (Hts : now w1 - meta_timestamp (entry_metadata e1)
                <= config_maxAge w1).
  { replace (now w1) with (now w) by (by destruct w).
    replace (config_maxAge w1) with (config_maxAge w) by (by destruct w).
    destruct He0 as [(Hs & Hwf0)| ->]; [exact (Hfresh e0 Hs Hwf0)|].
    simpl. lia. }
  rewrite (checkCache_hit_run key w1 e1); try done;
    try (by destruct w).
  { eexists. split; [reflexivity|]. split; reflexivity. }
  subst w1. destruct w; simpl. apply lookup_insert_eq.
Qed.

End RoundTrip.

Lemma checkCache_always_resolves_witness :
  exists r w',
    checkCache "k" (Inputs.freshManager (R := Z)) = (Ok r, w').
Proof.
  destruct (checkCache_always_resolves "k" (Inputs.freshManager (R := Z)))
    as (r & w' & H & _).
  - vm_compute. congruence.
  - by exists r, w'.
Defined.

Lemma checkCache_malformed_disables_witness :
  Recovery.isInFallbackMode
    (errorRecovery
       (lookups "k" 4
          (set_store {[ "k" := RawOther ]} (Inputs.freshManager (R := Z)))))
  = true.
Proof.
  destruct (checkCache_malformed_disables "k"
              (set_store {[ "k" := RawOther ]} (Inputs.freshManager (R := Z)))
              RawOther 4 eq_refl eq_refl) as (_ & _ & H).
  - vm_compute. reflexivity.
  - exact I.
  - vm_compute. congruence.
  - apply H. lia.
Defined.

Lemma checkCache_deletes_expired_witness :
  fst (checkCache "old"
         (set_store
            {[ "old" := RawEntry (Inputs.sampleEntry 0 0) ]}
            (mkWorld Recovery.init true 1000 100 ∅ ∅ ∅ 1700000002000
               [] [] [] [] EstimateUnavailable)))
  = Ok None.
Proof.
  destruct (checkCache_deletes_expired "old"
              (set_store
                 {[ "old" := RawEntry (Inputs.sampleEntry 0 0) ]}
                 (mkWorld Recovery.init true 1000 100 ∅ ∅ ∅ 1700000002000
                    [] [] [] [] EstimateUnavailable))
              (Inputs.sampleEntry 0 0) eq_refl eq_refl eq_refl eq_refl)
    as (H & _).
  - vm_compute. reflexivity.
  - vm_compute. by repeat split.
  - vm_compute. reflexivity.
  - exact H.
Defined.

Lemma checkCache_hit_touches_witness :
  fst (checkCache "entry3" Inputs.fifteenEntries)
  = Ok (Some (mkResult [3] true 1700000000000 [])).
Proof.
  destruct (checkCache_hit_touches "entry3" Inputs.fifteenEntries
              (Inputs.sampleEntry 3 6) eq_refl eq_refl eq_refl eq_refl)
    as (H & _).
  - vm_compute. reflexivity.
  - vm_compute. by repeat split.
  - vm_compute. congruence.
  - exact H.
Defined.

Lemma markComplete_then_checkCache_witness :
  exists r,
    fst (checkCache "k"
           (snd (markComplete Inputs.jsonZ 1 "k" [1; 2]
                   Inputs.freshManager)))
    = Ok (Some r)
    /\ result_data r = [1; 2].
Proof.
  destruct (markComplete_then_checkCache Inputs.jsonZ 1 "k" [1; 2]
              Inputs.freshManager eq_refl eq_refl eq_refl eq_refl)
    as (r & H1 & H2 & _).
  - discriminate.
  - vm_compute. congruence.
  - intros e He. vm_compute in He. discriminate.
  - by exists r.
Defined.

End LookupFacts.

Module FlushFacts.
Import JS Constants Cache Frames StoreStates CacheFacts FrameFacts WrapperFacts.

Section Flush.
Context {R : Type} (jsonR : R -> string).
Implicit Type w : World R.

Lemma settles_getOrCreate touched key data :
  settles touched (getOrCreateCacheEntry jsonR key data : M R _).
Proof.
  unfold getOrCreateCacheEntry. apply settles_bind.
  - apply settles_try_catch; [|intros _; apply settles_ret].
    apply settles_bind; [apply settles_get|]. intros [raw|];
      [|apply settles_ret].
    apply settles_bind; [apply settles_validate|]. intros e.
    apply settles_ret.
  - intros [e|]; [apply settles_ret|].
    apply settles_bind; [apply settles_get_world|]. intros w.
    apply settles_ret.
Qed.

Lemma settles_flushOperation key queued :
  settles (fun k => k = key) (flushOperation jsonR key queued).
Proof.
  unfold flushOperation. apply settles_bind; [apply settles_getOrCreate|].
  intros e. apply settles_bind; [apply settles_get_world|]. intros w.
  by apply settles_put.
Qed.

Lemma flushBatchQueue_nonempty fuel key w batches timer :
  batchQueue w !! key = Some (batches, timer) ->
  (length batches =? 0)%nat = false ->
  0 <= Recovery.getRetryCount (errorRecovery w) ("flush_batch_queue_" ++ key) ->
  exists w1,
    within (fun k => k = key) w w1
    /\ (sane (errorRecovery w) -> sane (errorRecovery w1))
    /\ flushBatchQueue jsonR fuel key w
       = (Ok tt, set_batchQueue (<[key := ([], false)]> (batchQueue w1)) w1).
Proof.
  intros Hq Hlen Hc.
  pose proof (wrapper_sane (fun k => k = key)
                (flushOperation jsonR key batches) tt
                ("flush_batch_queue_" ++ key)
                (settles_flushOperation key batches)
                (Z.to_nat MAX_RETRIES) w) as Hsane.
  destruct (wrapper_settles (fun k => k = key)
              (flushOperation jsonR key batches) tt
              ("flush_batch_queue_" ++ key)
              (settles_flushOperation key batches)
              (Z.to_nat MAX_RETRIES) w)
    as ([] & w1 & Hrun & Hw).
  { unfold MAX_RETRIES. simpl. lia. }
  rewrite Hrun in Hsane. simpl in Hsane.
  exists w1. split; [done|]. split; [done|].
  assert (Hq1 : batchQueue w1 !! key = Some (batches, timer)).
  { destruct Hw as (_ & _ & _ & -> & _). done. }
  destruct fuel; cbn [flushBatchQueue]; rewrite Hq, Hlen;
    unfold try_catch, bind; rewrite Hrun;
    unfold emptyQueue, modify; by rewrite Hq1.
Qed.

(** A flush never fails and never keeps a batch: whatever the store
    does, it resolves and the queue of the key is empty afterwards; the
    queues and the entries of the other keys are as before. *)
Theorem flushBatchQueue_always_empties (fuel : nat) (key : string) w :
  0 <= Recovery.getRetryCount (errorRecovery w) ("flush_batch_queue_" ++ key) ->
  let w' := snd (flushBatchQueue jsonR fuel key w) in
  fst (flushBatchQueue jsonR fuel key w) = Ok tt
  /\ (forall batches timer,
        batchQueue w' !! key = Some (batches, timer) -> batches = [])
  /\ (forall k, k <> key ->
        batchQueue w' !! k = batchQueue w !! k
        /\ store w' !! k = store w !! k)
  /\ isInitialized w' = isInitialized w.
Proof.
  intros Hc.
  destruct (batchQueue w !! key) as [[batches timer]|] eqn:Hq.
  - destruct (length batches =? 0)%nat eqn:Hlen.
    + assert (E : flushBatchQueue jsonR fuel key w = (Ok tt, w))
        by (destruct fuel; cbn [flushBatchQueue]; by rewrite Hq, Hlen).
      rewrite E. cbn [fst snd]. split; [done|]. split; [|done].
      intros b t Hb. rewrite Hq in Hb. injection Hb as <- _.
      apply Nat.eqb_eq in Hlen. by destruct batches.
    + destruct (flushBatchQueue_nonempty fuel key w batches timer Hq Hlen Hc)
        as (w1 & Hw & _ & ->).
      destruct Hw as (a1 & a2 & a3 & a4 & a5 & a6 & a7 & a8 & _).
      cbn [fst snd]. split; [done|].
      split; [|split].
      * intros b t. destruct w1; simpl.
        rewrite lookup_insert_eq. by intros [= <- _].
      * intros k Hk. split.
        -- destruct w1; simpl in *. rewrite lookup_insert_ne by done.
           by rewrite a4.
        -- destruct w1; simpl in *. by apply a8.
      * by destruct w1.
  - assert (E : flushBatchQueue jsonR fuel key w = (Ok tt, w))
      by (destruct fuel; cbn [flushBatchQueue]; by rewrite Hq).
    rewrite E. cbn [fst snd]. split; [done|]. split; [|done].
    intros b t Hb. congruence.
Qed.

End Flush.
Lemma flushBatchQueue_always_empties_witness :
  fst (flushBatchQueue Inputs.jsonZ 1 "k"
         (snd (storeBatch "k" [1; 2] 0 Inputs.freshManager)))
  = Ok tt.
Proof.
  destruct (flushBatchQueue_always_empties Inputs.jsonZ 1 "k"
              (snd (storeBatch "k" [1; 2] 0 Inputs.freshManager)))
    as (H & _).
  - vm_compute. congruence.
  - exact H.
Defined.

End FlushFacts.

(** ** Clearing the cache and reporting on it *)

Module AdminFacts.
Import JS Constants Cache Frames StoreStates CacheFacts FrameFacts WrapperFacts.
Import FlushFacts CacheAdmin.

Section Admin.
Context {R : Type} (jsonR : R -> string).
Implicit Type w : World R.


Lemma flush_quietly fuel key w :
  quiet w ->
  sane (errorRecovery w) ->
  exists w1,
    flushBatchQueue jsonR fuel key w = (Ok tt, w1)
    /\ quiet w1 /\ sane (errorRecovery w1)
    /\ isInitialized w1 = isInitialized w
    /\ (forall k, k <> key -> store w1 !! k = store w !! k)
    /\ batchQueue w1
       = match batchQueue w !! key with
         | Some (_ :: _, _) => <[key := ([], false)]> (batchQueue w)
         | _ => batchQueue w
         end.
Proof.
  intros Hq Hs.
  destruct (batchQueue w !! key) as [[[|b batches] timer]|] eqn:Hb.
  - exists w. split; [|done].
    destruct fuel; cbn [flushBatchQueue]; by rewrite Hb.
  - destruct (flushBatchQueue_nonempty jsonR fuel key w (b :: batches) timer
                Hb eq_refl (Hs _)) as (w1 & Hw & Hsane & ->).
    eexists. split; [reflexivity|].
    pose proof (within_quiet _ _ _ Hw Hq) as Hq1.
    destruct Hw as (a1 & a2 & a3 & a4 & a5 & a6 & a7 & a8 & _).
    split; [by destruct w1|]. split; [destruct w1; by apply Hsane|].
    split; [by destruct w1|].
    split; [intros k Hk; destruct w1; simpl in *; by apply a8|].
    destruct w1; simpl in *. by rewrite a4.
  - exists w. split; [|done].
    destruct fuel; cbn [flushBatchQueue]; by rewrite Hb.
Qed.

Lemma metadataRequest_ok w :
  deleteFaults w = [] -> metadataRequest w = (Ok tt, w).
Proof. intros H. destruct w; simpl in *; subst. reflexivity. Qed.

Lemma clear_ok w :
  deleteFaults w = [] -> Db.clear w = (Ok tt, set_store ∅ w).
Proof. intros H. destruct w; simpl in *; subst. reflexivity. Qed.

Lemma truthy_key key : key <> "" -> truthy (Some key) = Some key.
Proof. intros H. unfold truthy. by destruct key. Qed.

Lemma clearCache_one_key_run (fuel : nat) (key : string) w :
  isInitialized w = true ->
  quiet w ->
  sane (errorRecovery w) ->
  key <> "" ->
  exists w1,
    clearCache jsonR fuel (Some key) w = (Ok tt, w1)
    /\ store w1 = delete key (store w)
    /\ batchQueue w1 = delete key (batchQueue w).
Proof.
  intros Hi Hq Hs Hkey.
  { unfold clearCache, bind at 1, get_world. rewrite Hi. cbn [negb].
    rewrite truthy_key by done.
    unfold try_catch at 1, bind at 1, clearBatchQueue, bind at 1, get_world.
    destruct (flush_quietly fuel key w Hq Hs)
      as (w1 & Hflush & Hq1 & _ & _ & Hframe & Hbq).
    assert (Hdel : forall w2,
               quiet w2 ->
               (forall k, k <> key -> store w2 !! k = store w !! k) ->
               batchQueue w2 = delete key (batchQueue w) ->
               exists w3,
                 match clearSpecificCacheEntry key w2 with
                 | (Ok a, w4) => (Ok a, w4)
                 | (Throw _, w4) => attemptFallbackCleanup (Some key) w4
                 | (Pending, w4) => (Pending, w4)
                 end = (Ok tt, w3)
                 /\ store w3 = delete key (store w)
                 /\ batchQueue w3 = delete key (batchQueue w)).
    { intros w2 (Hp2 & Hg2 & Hd2 & Hk2) Hf2 Hb2.
      unfold clearSpecificCacheEntry, try_catch at 1, bind at 1.
      rewrite delete_ok by done.
      unfold try_catch at 1.
      rewrite metadataRequest_ok by (by destruct w2).
      eexists. split; [reflexivity|]. split; [|by destruct w2].
      destruct w2; simpl in *. apply map_eq. intros k.
      destruct (decide (k = key)) as [->|Hne].
      - by rewrite !lookup_delete_eq.
      - rewrite !lookup_delete_ne by done. by apply Hf2. }
    destruct (batchQueue w !! key) as [[batches timer]|] eqn:Hb.
    - destruct batches as [|b batches]; cbn [length Nat.ltb Nat.leb].
      + unfold bind at 1, ret at 1, modify.
        apply Hdel; [by destruct w|by destruct w|by destruct w].
      + unfold bind at 1, try_catch at 1. rewrite Hflush.
        unfold modify. apply Hdel.
        * by destruct w1.
        * destruct w1; simpl in *. exact Hframe.
        * destruct w1; simpl in *. rewrite Hbq. apply delete_insert_eq.
    - unfold ret at 1. apply Hdel; [done|done|].
      symmetry. by apply delete_id. }
Qed.

(** [clearCache(key)] on a store that works: pending batches of the key
    are written first, then the entry goes, and so does the queue of the
    key; nothing else changes in the store or in the queues. *)
Theorem clearCache_one_key (fuel : nat) (key : string) w :
  isInitialized w = true ->
  quiet w ->
  sane (errorRecovery w) ->
  key <> "" ->
  let w' := snd (clearCache jsonR fuel (Some key) w) in
  fst (clearCache jsonR fuel (Some key) w) = Ok tt
  /\ store w' = delete key (store w)
  /\ batchQueue w' = delete key (batchQueue w).
Proof.
  intros Hi Hq Hs Hkey.
  destruct (clearCache_one_key_run fuel key w Hi Hq Hs Hkey)
    as (w1 & -> & H1 & H2).
  done.
Qed.


Lemma flush_each_quietly fuel (keys : list string) : forall w,
  quiet w ->
  sane (errorRecovery w) ->
  exists w1,
    for_each keys
      (fun key => try_catch (flushBatchQueue jsonR fuel key)
                    (fun _ => ret tt)) w
    = (Ok tt, w1)
    /\ quiet w1 /\ sane (errorRecovery w1)
    /\ isInitialized w1 = isInitialized w.
Proof.
  induction keys as [|key keys IH]; intros w Hq Hs.
  - exists w. split; [done|]. split; [done|]. split; done.
  - cbn [for_each]. unfold bind at 1, try_catch at 1.
    destruct (flush_quietly fuel key w Hq Hs)
      as (w1 & -> & Hq1 & Hs1 & Hi1 & _).
    destruct (IH w1 Hq1 Hs1) as (w2 & -> & Hq2 & Hs2 & Hi2).
    exists w2. split; [done|]. split; [done|]. split; [done|]. congruence.
Qed.

(** [clearCache()] and [clearCache("")] on a store that works: after
    the pending batches are written, every entry and every queue goes.
    The empty string counts as no key. *)
Theorem clearCache_everything (fuel : nat) (key : option string) w :
  isInitialized w = true ->
  quiet w ->
  sane (errorRecovery w) ->
  key = None \/ key = Some "" ->
  let w' := snd (clearCache jsonR fuel key w) in
  fst (clearCache jsonR fuel key w) = Ok tt
  /\ store w' = ∅
  /\ batchQueue w' = ∅.
Proof.
  intros Hi Hq Hs Hkey.
  assert (Ht : truthy key = None) by (by destruct Hkey as [->| ->]).
  assert (E : exists w1,
             clearCache jsonR fuel key w = (Ok tt, w1)
             /\ store w1 = ∅ /\ batchQueue w1 = ∅).
  { unfold clearCache, bind at 1, get_world. rewrite Hi. cbn [negb].
    rewrite Ht.
    unfold try_catch at 1, bind at 1, clearAllBatchQueues, bind at 1,
      get_world, bind at 1.
    destruct (flush_each_quietly fuel
                (map fst (map_to_list (batchQueue w))) w Hq Hs)
      as (w1 & -> & (Hp1 & Hg1 & Hd1 & Hk1) & _).
    unfold modify, clearAllCacheEntries, try_catch at 1, bind at 1.
    rewrite clear_ok by (by destruct w1).
    unfold try_catch at 1.
    rewrite metadataRequest_ok by (by destruct w1).
    eexists. split; [reflexivity|]. by destruct w1. }
  destruct E as (w1 & -> & H1 & H2). done.
Qed.

(** [getStatus] on a store that works.  A key without a value is a miss;
    a value that validates is a hit, expired or not; a value that does
    not validate is a miss reported with size 0. *)
Theorem getStatus_reports (key : string) w :
  isInitialized w = true ->
  getFaults w = [] ->
  keysFaults w = [] ->
  let n := Z.of_nat (size (store w)) in
  match store w !! key with
  | None => fst (getStatus key w) = Ok (mkStatus true false n None)
  | Some (RawEntry e) =>
      (wellFormed e ->
       fst (getStatus key w)
       = Ok (mkStatus true true n
               (Some (meta_lastAccessed (entry_metadata e)))))
      /\ (malformed (RawEntry e) ->
          fst (getStatus key w) = Ok (mkStatus true false 0 None))
  | Some RawOther => fst (getStatus key w) = Ok (mkStatus true false 0 None)
  end.
Proof.
  intros Hi Hg Hk n.
  assert (Hcount : count w = (Ok n, w)).
  { unfold count, bind. rewrite getAllKeys_ok by done. unfold ret.
    by rewrite length_map, length_map_to_list. }
  assert (Hrun : getStatus key w
                 = try_catch
                     (do totalCount <- count;
                      match store w !! key with
                      | None => ret (mkStatus true false totalCount None)
                      | Some raw =>
                          do cacheEntry <- validateCacheEntry (Some raw);
                          ret (mkStatus true true totalCount
                                 (Some (meta_lastAccessed
                                          (entry_metadata cacheEntry))))
                      end)
                     (fun _ => ret (mkStatus true false 0 None)) w).
  { unfold getStatus, bind at 1, get_world. rewrite Hi. cbn [negb].
    unfold try_catch, bind at 1. rewrite get_ok by done. reflexivity. }
  assert (Hb : forall (k : Z -> M R CacheStatus), bind count k w = k n w).
  { intros k. unfold bind. by rewrite Hcount. }
  rewrite Hrun. unfold try_catch. rewrite Hb.
  destruct (store w !! key) as [[e|]|] eqn:Hs; [|reflexivity|reflexivity].
  destruct (LookupFacts.validate_cases (RawEntry e) w)
    as [(e' & [= <-] & Hwf & Hv)|(Hmal & msg & Hv)];
    unfold bind; rewrite Hv.
  - split; [intros _; reflexivity|]. intros Hmal.
    by destruct (LookupFacts.malformed_not_wellFormed e).
  - split; [|intros _; reflexivity]. intros Hwf.
    by destruct (LookupFacts.malformed_not_wellFormed e).
Qed.

End Admin.
Lemma sane_init : sane Recovery.init.
Proof. intros id. vm_compute. congruence. Qed.

Lemma clearCache_one_key_witness :
  store (snd (clearCache Inputs.jsonZ 1 (Some "entry3")
                Inputs.fifteenEntries))
  = delete "entry3" (store Inputs.fifteenEntries).
Proof.
  destruct (clearCache_one_key Inputs.jsonZ 1 "entry3" Inputs.fifteenEntries
              eq_refl (conj eq_refl (conj eq_refl (conj eq_refl eq_refl)))
              sane_init) as (_ & H & _).
  - discriminate.
  - exact H.
Defined.

Lemma clearCache_everything_witness :
  store (snd (clearCache Inputs.jsonZ 1 (Some "") Inputs.fifteenEntries))
  = ∅.
Proof.
  destruct (clearCache_everything Inputs.jsonZ 1 (Some "")
              Inputs.fifteenEntries
              eq_refl (conj eq_refl (conj eq_refl (conj eq_refl eq_refl)))
              sane_init (or_intror eq_refl)) as (_ & H & _).
  exact H.
Defined.

Lemma getStatus_reports_witness :
  fst (getStatus "absent" Inputs.fifteenEntries)
  = Ok (mkStatus true false 15 None).
Proof.
  pose proof (getStatus_reports "absent" Inputs.fifteenEntries
                eq_refl eq_refl eq_refl) as H.
  cbv zeta in H.
  assert (L : store Inputs.fifteenEntries !! "absent" = None)
    by (vm_compute; reflexivity).
  rewrite L in H. rewrite H. vm_compute. reflexivity.
Defined.

End AdminFacts.

(** ** Sweeps of the store *)

Module SweepFacts.
Import JS Constants Cache Frames StoreStates CacheFacts SortFacts EvictionFacts.
Import SweepStates.

Section Sweep.
Context {R : Type} (jsonR : R -> string).
Implicit Type w : World R.

Lemma checkAndHandleStorageQuota_calm w :
  calm (storageEstimate w) -> checkAndHandleStorageQuota w = (Ok tt, w).
Proof.
  intros Hest.
  unfold checkAndHandleStorageQuota, try_catch, bind at 1, get_world.
  destruct (storageEstimate w) as [|e|usage quota] eqn:E; [done|done|].
  destruct Hest as (Hu & Hq & Hle).
  destruct ((quota =? 0) || (usage =? 0)) eqn:Hz; [reflexivity|].
  apply orb_false_iff in Hz as [Hq0%Z.eqb_neq Hu0%Z.eqb_neq].
  assert (E90 : Qle_bool (inject_Z usage / inject_Z quota * 100) 90 = true).
  { apply Qle_bool_iff. destruct quota as [|q|q]; try lia.
    unfold Qle, Qdiv, Qmult, Qinv, inject_Z. simpl. lia. }
  assert (E75 : Qle_bool (inject_Z usage / inject_Z quota * 100) 75 = true).
  { apply Qle_bool_iff. destruct quota as [|q|q]; try lia.
    unfold Qle, Qdiv, Qmult, Qinv, inject_Z. simpl. lia. }
  by rewrite E90, E75.
Qed.

Lemma cleanupExpired_small_run w :
  isInitialized w = true ->
  quiet w ->
  calm (storageEstimate w) ->
  Z.of_nat (length (validEntries jsonR w)) <= config_maxSize w ->
  cleanupExpired jsonR w
  = (Ok tt,
     set_store
       (deleteAll (expiredOf (verdicts jsonR w))
          (deleteAll (corruptedOf (verdicts jsonR w)) (store w))) w).
Proof.
  intros Hi (Hp & Hg & Hd & Hk) Hest Hlen.
  unfold cleanupExpired, bind at 1, get_world. rewrite Hi. cbn [negb].
  unfold try_catch, bind at 1. rewrite getAllKeys_ok by done.
  destruct (length (map fst (map_to_list (store w))) =? 0)%nat eqn:Hzero.
  { apply Nat.eqb_eq in Hzero. rewrite length_map in Hzero.
    unfold verdicts.
    destruct (map_to_list (store w)); [|done]. simpl. by destruct w. }
  unfold bind at 1, analyzeEntriesForCleanup, bind at 1.
  rewrite analyzeAll_ok by done. rewrite analysis_verdicts.
  unfold bind at 1. rewrite deleteEach_ok by done. cbn [ret].
  unfold bind at 1, cleanupExpiredEntries. rewrite deleteEach_ok by done.
  unfold bind at 1, cleanupOldEntriesIfNeeded, bind at 1, get_world.
  cbn [config_maxSize set_store].
  fold (validEntries jsonR w).
  destruct (Z.leb_spec (Z.of_nat (length (validEntries jsonR w)))
              (config_maxSize w)) as [_|Hgt]; [|lia].
  cbn [ret]. rewrite checkAndHandleStorageQuota_calm by (by destruct w).
  by destruct w.
Qed.

(** A sweep that finds no more valid entries than [maxSize], on a store
    that works and with no quota sweep due, deletes what is expired and
    what does not validate, and nothing else: the store is left with the
    valid entries, as they were. *)
Theorem cleanupExpired_keeps_valid w :
  isInitialized w = true ->
  quiet w ->
  calm (storageEstimate w) ->
  Z.of_nat (length (validEntries jsonR w)) <= config_maxSize w ->
  fst (cleanupExpired jsonR w) = Ok tt
  /\ forall key,
       store (snd (cleanupExpired jsonR w)) !! key
       = match classify jsonR w key (store w !! key) with
         | IsValid _ => store w !! key
         | _ => None
         end.
Proof.
  intros Hi Hq Hest Hlen.
  rewrite (cleanupExpired_small_run w Hi Hq Hest Hlen).
  split; [done|]. intros key. cbn [snd].
  replace (store (set_store _ w))
    with (deleteAll (expiredOf (verdicts jsonR w))
            (deleteAll (corruptedOf (verdicts jsonR w)) (store w)))
    by (by destruct w).
  rewrite !deleteAll_lookup.
  destruct (store w !! key) as [raw|] eqn:Hs.
  - pose proof (verdict_in jsonR w key raw Hs) as Hin.
    destruct (classify jsonR w key (Some raw)) as [k e|v|k] eqn:Hc.
    + pose proof (classify_expired _ _ _ _ _ _ Hc) as ->.
      rewrite decide_True; [done|].
      apply list_elem_of_In, in_expiredOf. eauto.
    + destruct (classify_valid _ _ _ _ _ Hc) as (entry & _ & Hk & _).
      assert (Hv : In v (validEntries jsonR w)) by (by apply in_validOf).
      destruct (valid_in_store jsonR w v Hv) as (_ & Hne & Hnc).
      rewrite Hk in Hne, Hnc.
      rewrite decide_False by (by rewrite list_elem_of_In).
      by rewrite decide_False by (by rewrite list_elem_of_In).
    + pose proof (classify_corrupted _ _ _ _ _ Hc) as ->.
      case_decide; [done|].
      rewrite decide_True; [done|].
      by apply list_elem_of_In, in_corruptedOf.
  - by repeat case_decide.
Qed.

(** When the keys cannot be listed, the sweep clears the whole store;
    and when that fails too, it marks the manager as not initialised. *)
Theorem cleanupExpired_listing_fails w (e : JsError)
    (rest : list (option JsError)) :
  isInitialized w = true ->
  keysFaults w = Some e :: rest ->
  let w' := snd (cleanupExpired jsonR w) in
  fst (cleanupExpired jsonR w) = Ok tt
  /\ (deleteFaults w = [] \/ (exists ds, deleteFaults w = None :: ds) ->
      store w' = ∅ /\ isInitialized w' = true)
  /\ (forall e' ds, deleteFaults w = Some e' :: ds ->
      store w' = store w /\ isInitialized w' = false).
Proof.
  intros Hi Hk.
  assert (E : cleanupExpired jsonR w
              = attemptEmergencyCleanup (set_keysFaults rest w)).
  { unfold cleanupExpired, bind at 1, get_world. rewrite Hi. cbn [negb].
    unfold try_catch, bind at 1, Db.getAllKeys. by rewrite Hk. }
  rewrite E. unfold attemptEmergencyCleanup, try_catch, Db.clear, modify.
  destruct w as [? ? ? ? ? ? ? ? ? ? df ? ?]. simpl in *.
  destruct df as [|[e'|] df]; simpl; (split; [done|]); split;
    try (intros [?|[? ?]]; done); try done.
Qed.

End Sweep.
Lemma cleanupExpired_keeps_valid_witness :
  fst (cleanupExpired Inputs.jsonZ
         (set_store {[ "entry3" := RawEntry (Inputs.sampleEntry 3 6) ]}
            Inputs.freshManager))
  = Ok tt.
Proof.
  destruct (cleanupExpired_keeps_valid Inputs.jsonZ
              (set_store {[ "entry3" := RawEntry (Inputs.sampleEntry 3 6) ]}
                 Inputs.freshManager)
              eq_refl (conj eq_refl (conj eq_refl (conj eq_refl eq_refl))) I)
    as (H & _).
  - vm_compute. congruence.
  - exact H.
Defined.

Lemma cleanupExpired_listing_fails_witness :
  store (snd (cleanupExpired Inputs.jsonZ
                (set_keysFaults [Some Inputs.quotaError]
                   Inputs.fifteenEntries)))
  = ∅.
Proof.
  destruct (cleanupExpired_listing_fails Inputs.jsonZ
              (set_keysFaults [Some Inputs.quotaError] Inputs.fifteenEntries)
              Inputs.quotaError [] eq_refl eq_refl) as (_ & H & _).
  apply H. by left.
Defined.

End SweepFacts.

(** ** The memo of keys and the sampled hash *)

Module KeyMore.
Import JS Constants Cache Inputs KeyParts KeySamples.

Section Keys.
Context {T R : Type} (jsonT : T -> string).

(** The memo of [generateKey] never holds more than 1000 keys. *)
Theorem generateKey_memo_bounded (data : list T) (fnString : string)
    (w : World R) :
  (size (keyCache w) <= 1000)%nat ->
  (size (keyCache (snd (generateKey jsonT data fnString w))) <= 1000)%nat.
Proof.
  intros Hsize. unfold generateKey.
  destruct (keyCache w !! _) as [key|] eqn:Hk; [done|].
  destruct (Nat.ltb_spec (size (keyCache w)) 1000) as [Hlt|Hge]; [|done].
  destruct w; simpl in *. rewrite map_size_insert_None by done. lia.
Qed.

Lemma at_index_agree (data1 data2 : list T) (i : Z) :
  data1 !! Z.to_nat i = data2 !! Z.to_nat i ->
  at_index data1 i = at_index data2 i.
Proof. intros H. unfold at_index. by rewrite H. Qed.

Lemma flat_map_agree (data1 data2 : list T) (l : list Z) :
  Forall (fun i => data1 !! Z.to_nat i = data2 !! Z.to_nat i) l ->
  flat_map (at_index data1) l = flat_map (at_index data2) l.
Proof.
  induction 1 as [|i l Hi _ IH]; [done|].
  simpl. by rewrite (at_index_agree _ _ i Hi), IH.
Qed.

(** Above 1000 items the data hash reads the sampled positions only: two
    arrays of one length that agree there have the same hash, and on
    managers without a memo entry the same key. *)
Theorem sampled_hash_collides (data1 data2 : list T) (fnString : string)
    (w1 w2 : World R) :
  length data1 = length data2 ->
  (1000 < length data1)%nat ->
  Forall (fun i => data1 !! Z.to_nat i = data2 !! Z.to_nat i)
    (sampledIndices (Z.of_nat (length data1))) ->
  keyCache w1 !! quickId data1 fnString = None ->
  keyCache w2 !! quickId data2 fnString = None ->
  createOptimizedDataHash jsonT data1 = createOptimizedDataHash jsonT data2
  /\ fst (generateKey jsonT data1 fnString w1)
     = fst (generateKey jsonT data2 fnString w2).
Proof.
  intros Hlen Hbig Hagree Hk1 Hk2.
  assert (Hhash : createOptimizedDataHash jsonT data1
                  = createOptimizedDataHash jsonT data2).
  { unfold createOptimizedDataHash. rewrite <- Hlen.
    destruct (Z.of_nat (length data1) =? 0); [done|].
    destruct (Z.leb_spec (Z.of_nat (length data1)) 1000) as [Hle|_]; [lia|].
    unfold sampledIndices in Hagree. cbn [app] in Hagree.
    apply Forall_cons in Hagree as [H0 Hagree].
    apply Forall_cons in Hagree as [Hmid Hagree].
    apply Forall_cons in Hagree as [Hlast Hagree].
    rewrite Nat2Z.id in Hagree.
    rewrite (at_index_agree _ _ _ H0), (at_index_agree _ _ _ Hmid),
      (at_index_agree _ _ _ Hlast), (flat_map_agree _ _ _ Hagree).
    reflexivity. }
  split; [exact Hhash|].
  unfold generateKey. fold (quickId data1 fnString) (quickId data2 fnString).
  rewrite Hk1, Hk2, Hhash.
  by destruct (size (keyCache w1) <? 1000)%nat,
              (size (keyCache w2) <? 1000)%nat.
Qed.

End Keys.

Lemma sampled_hash_collides_witness :
  fst (generateKey jsonZ (upto 1001) doubleText (freshManager : World Z))
  = fst (generateKey jsonZ (<[1%nat := 7777]> (upto 1001)) doubleText
           (freshManager : World Z)).
Proof.
  apply (sampled_hash_collides jsonZ (upto 1001)
           (<[1%nat := 7777]> (upto 1001)) doubleText
           (freshManager : World Z) (freshManager : World Z)).
  - by rewrite length_insert.
  - vm_compute. lia.
  - apply Forall_forall. intros i Hi. apply list_elem_of_In in Hi.
    vm_compute in Hi.
    repeat (destruct Hi as [<-|Hi]; [vm_compute; reflexivity|]).
    destruct Hi.
  - reflexivity.
  - reflexivity.
Defined.

Lemma generateKey_memo_bounded_witness :
  (size (keyCache (snd (generateKey jsonZ [1%Z; 2%Z] doubleText
                          (freshManager (R := Z))))) <= 1000)%nat.
Proof.
  apply (generateKey_memo_bounded jsonZ [1%Z; 2%Z] doubleText
           (freshManager (R := Z))).
  vm_compute. lia.
Defined.

End KeyMore.

(** ** Compression of a batch *)

Module CompressFacts.
Import JS Constants Cache BatchFacts.

Section Compress.
Context {R : Type} (jsonR : R -> string).

Lemma dedupe_sublist (data : list R) : forall seen : gmap string R,
  dedupe jsonR seen data `sublist_of` data.
Proof.
  induction data as [|x data IH]; intros seen; simpl; [constructor|].
  destruct (seen !! jsonR x).
  - by apply sublist_cons.
  - by apply sublist_skip.
Qed.

Lemma dedupe_represents (data : list R) : forall (seen : gmap string R) x,
  In x data ->
  is_Some (seen !! jsonR x)
  \/ exists y, In y (dedupe jsonR seen data) /\ jsonR y = jsonR x.
Proof.
  induction data as [|z data IH]; intros seen x Hin; [by destruct Hin|].
  simpl. destruct Hin as [->|Hin].
  - destruct (seen !! jsonR x) eqn:Hx; [left; by eexists|].
    right. exists x. split; [by left|done].
  - destruct (seen !! jsonR z) eqn:Hz; [by apply IH|].
    destruct (IH (<[jsonR z := z]> seen) x Hin) as [Hs|(y & Hy & E)].
    + destruct (decide (jsonR z = jsonR x)) as [E|E].
      * right. exists z. split; [by left|done].
      * left. by rewrite lookup_insert_ne in Hs.
    + right. exists y. split; [by right|done].
Qed.

Lemma dedupe_id (data : list R) : forall seen : gmap string R,
  NoDup (map jsonR data) ->
  (forall x, In x data -> seen !! jsonR x = None) ->
  dedupe jsonR seen data = data.
Proof.
  induction data as [|z data IH]; intros seen Hnd Hseen; [done|].
  simpl in *. apply NoDup_cons in Hnd as [Hz Hnd].
  rewrite (Hseen z) by (by left). f_equal. apply IH; [done|].
  intros x Hx. rewrite lookup_insert_ne; [apply Hseen; by right|].
  intros E. apply Hz. rewrite E. apply list_elem_of_In, in_map. done.
Qed.

(** What [compressBatchData] returns: the items of the batch in their
    order, one for every serialisation that occurs in it.  A batch whose
    items serialise differently is returned as it is, and compressing
    twice changes nothing more. *)
Theorem compressBatchData_one_per_serialisation (data : list R) :
  let compressed := compressBatchData jsonR data in
  compressed `sublist_of` data
  /\ NoDup (map jsonR compressed)
  /\ (forall x, In x data ->
        exists y, In y compressed /\ jsonR y = jsonR x)
  /\ (NoDup (map jsonR data) -> compressed = data)
  /\ compressBatchData jsonR compressed = compressed.
Proof.
  intros compressed.
  assert (Hid : forall d : list R,
             NoDup (map jsonR d) -> compressBatchData jsonR d = d).
  { intros d Hnd. unfold compressBatchData.
    destruct (length d <=? 1)%nat; [done|].
    rewrite dedupe_id by done. by rewrite Nat.ltb_irrefl. }
  assert (Hnd : NoDup (map jsonR compressed))
    by apply (compressBatchData_spec jsonR data).
  split; [|split; [done|split; [|split; [apply Hid|by apply Hid]]]].
  - subst compressed. unfold compressBatchData.
    destruct (length data <=? 1)%nat; [done|].
    destruct (_ <? _)%nat; [apply dedupe_sublist|done].
  - intros x Hx. subst compressed. unfold compressBatchData.
    destruct (length data <=? 1)%nat; [by exists x|].
    destruct (_ <? _)%nat; [|by exists x].
    destruct (dedupe_represents data ∅ x Hx) as [[? Hs]|Hy]; [|done].
    by rewrite lookup_empty in Hs.
Qed.

End Compress.
End CompressFacts.

(** ** The generator, run to its end *)

Module GeneratorFacts.
Import JS Scheduler RunStates GeneratorRuns SchedulerFacts.

Section Generator.
Context {T R : Type} (data : list T) (transformFn : T -> R) (batchSize : Z).
Local Abbreviation n := (dataLength data).
Local Abbreviation cp := (currentProgress data).
Local Abbreviation position := (RunStates.position batchSize).

Lemma currentProgress_mono (p q : Z) :
  0 < n -> p <= q -> cp p <= cp q.
Proof.
  intros Hn Hpq. rewrite !currentProgress_eq by done.
  apply Z.min_le_compat_l. apply Z.div_le_mono; lia.
Qed.

Lemma currentProgress_bounds (p : Z) : 0 < n -> 0 <= p -> 0 <= cp p <= 100.
Proof.
  intros Hn Hp. rewrite currentProgress_eq by done.
  assert (0 <= (200 * p + n) / (2 * n)) by (apply Z.div_pos; lia). lia.
Qed.

Lemma currentProgress_all : 0 < n -> cp n = 100.
Proof.
  intros Hn. rewrite currentProgress_eq by done.
  replace (200 * n + n) with (100 * (2 * n) + n) by lia.
  rewrite Z.div_add_l by lia. rewrite Z.div_small by lia. lia.
Qed.

Lemma drain_from (Hb : 0 < batchSize) (fuel : nat) :
  forall (g : Generator R) (pos : Z),
    gen_pc g = AtStart \/ gen_pc g = AfterPartialYield ->
    position g = pos ->
    0 <= pos ->
    Z.max 0 (n - pos) < Z.of_nat fuel ->
    let run := drain data transformFn batchSize fuel g in
    snd run
    = Some (Some (gen_results g
                  ++ map transformFn (drop (Z.to_nat pos) data)))%list
    /\ flat_map partialOf (fst run)
       = map transformFn (drop (Z.to_nat pos) data)
    /\ Z.of_nat (length (fst run))
       = (Z.max 0 (n - pos) + batchSize - 1) / batchSize
    /\ Forall (fun y => cp pos <= progressOf y <= 100) (fst run)
    /\ StronglySorted Z.le (map progressOf (fst run))
    /\ (fst run <> [] -> last (map progressOf (fst run)) = Some 100).
Proof.
  induction fuel as [|fuel IH]; intros g pos Hpc Hpos Hpos0 Hfuel; [lia|].
  cbn [drain]. rewrite (next_running data transformFn batchSize g pos Hpc Hpos).
  unfold loopFrom. fold n.
  destruct (Z.ltb_spec pos n) as [Hlt|Hge].
  - set (chunk := slice pos (pos + batchSize) data).
    set (g' := mkGen pos (gen_results g ++ map transformFn chunk)%list
                 AfterPartialYield).
    assert (Hn : 0 < n) by lia.
    assert (Hchunk : Z.of_nat (length chunk) = Z.min batchSize (n - pos)).
    { subst chunk. rewrite length_slice by lia. fold n. lia. }
    assert (Hdrop : drop (Z.to_nat pos) data
                    = (chunk ++ drop (Z.to_nat (pos + batchSize)) data)%list).
    { subst chunk. unfold slice.
      replace (Z.to_nat (pos + batchSize))
        with (Z.to_nat pos + Z.to_nat (pos + batchSize - pos))%nat by lia.
      rewrite <- drop_drop. by rewrite take_drop. }
    destruct (IH g' (pos + batchSize)) as (I1 & I2 & I3 & I4 & I5 & I6);
      [by right|done|lia|lia|].
    destruct (drain data transformFn batchSize fuel g') as [ys r].
    cbn [fst snd] in *.
    split; [|split; [|split; [|split; [|split]]]].
    + rewrite I1. subst g'. cbn [gen_results].
      rewrite Hdrop, map_app, app_assoc. done.
    + cbn [flat_map partialOf]. rewrite I2, Hdrop, map_app. done.
    + cbn [length]. rewrite Nat2Z.inj_succ, I3.
      destruct (Z.le_gt_cases n (pos + batchSize)) as [Hend|Hmore].
      * rewrite Z.max_l by lia. rewrite Z.max_r by lia.
        replace (0 + batchSize - 1) with (batchSize - 1) by lia.
        rewrite (Z.div_small (batchSize - 1)) by lia.
        change (Z.succ 0) with 1.
        apply (Z.div_unique _ _ 1 (n - pos - 1)); lia.
      * rewrite !Z.max_r by lia.
        replace (n - pos + batchSize - 1)
          with (1 * batchSize + (n - (pos + batchSize) + batchSize - 1))
          by lia.
        rewrite Z.div_add_l by lia. lia.
    + apply Forall_cons. split.
      * cbn [progressOf]. split.
        -- apply currentProgress_mono; lia.
        -- apply currentProgress_bounds; lia.
      * eapply Forall_impl; [exact I4|]. intros y [Hy1 Hy2]. split; [|done].
        etrans; [|exact Hy1]. apply currentProgress_mono; lia.
    + cbn [map progressOf]. constructor; [done|].
      apply Forall_fmap. eapply Forall_impl; [exact I4|].
      intros y [Hy1 _]. simpl. etrans; [|exact Hy1].
      apply currentProgress_mono; lia.
    + intros _. cbn [map progressOf].
      destruct ys as [|y ys].
      * simpl. f_equal.
        assert (Hend : n <= pos + batchSize).
        { destruct (Z.le_gt_cases n (pos + batchSize)) as [?|Hmore]; [done|].
          exfalso. rewrite Z.max_r in I3 by lia. simpl in I3.
          assert (1 <= (n - (pos + batchSize) + batchSize - 1) / batchSize);
            [|lia].
          apply Z.div_le_lower_bound; lia. }
        replace (pos + Z.of_nat (length chunk)) with n by lia.
        by apply currentProgress_all.
      * rewrite <- I6 by done. done.
  - assert (Hd : drop (Z.to_nat pos) data = []).
    { apply drop_ge. unfold dataLength in Hge. lia. }
    cbn [fst snd]. rewrite Hd. cbn [map]. rewrite app_nil_r.
    repeat split; try done; try constructor.
    rewrite Z.max_l by lia. cbn [length].
    rewrite Z.div_small by lia. done.
Qed.

(** An undisturbed run of the generator, for a positive batch size:
    the chunks it yields are the transformed items, every one once and in
    order; there are ceil(length / batchSize) of them; the progress it
    reports never decreases and ends at 100; and it returns the whole
    result. *)
Theorem generator_covers_input :
  0 < batchSize ->
  let run :=
    drain data transformFn batchSize (S (length data)) createGenerator in
  snd run = Some (Some (map transformFn data))
  /\ flat_map partialOf (fst run) = map transformFn data
  /\ Z.of_nat (length (fst run)) = (n + batchSize - 1) / batchSize
  /\ Forall (fun y => 0 <= progressOf y <= 100) (fst run)
  /\ StronglySorted Z.le (map progressOf (fst run))
  /\ (data <> [] -> last (map progressOf (fst run)) = Some 100).
Proof.
  intros Hb.
  destruct (drain_from Hb (S (length data)) createGenerator 0)
    as (H1 & H2 & H3 & H4 & H5 & H6);
    [by left|done|done|unfold dataLength; lia|].
  cbn zeta. rewrite H1, H2, H3. cbn [Z.to_nat drop gen_results createGenerator app].
  rewrite Z.sub_0_r, Z.max_r by (unfold dataLength; lia).
  split; [done|]. split; [done|]. split; [done|]. split; [|split; [done|]].
  - destruct data as [|x xs] eqn:Hdata.
    + by vm_compute.
    + rewrite <- Hdata in *. eapply Forall_impl; [exact H4|].
      intros y [Hy1 Hy2]. split; [|done]. etrans; [|exact Hy1].
      apply currentProgress_bounds; [|done].
      unfold dataLength. rewrite Hdata. simpl. lia.
  - intros Hne. apply H6. intros Hnil.
    rewrite Hnil in H2. simpl in H2.
    destruct data; [done|]. done.
Qed.

(** With [batchSize = 0] the loop index never moves: on a non-empty input
    every call of [next()] yields an empty chunk with progress 0, and
    the generator never returns. *)
Theorem generator_zero_batch_never_returns (fuel : nat) :
  batchSize = 0 ->
  data <> [] ->
  drain data transformFn batchSize fuel createGenerator
  = (repeat (Partial [] 0) fuel, None).
Proof.
  intros Hb Hne.
  assert (Hn : 0 < n) by (unfold dataLength; destruct data; [done|simpl; lia]).
  assert (Hcp : cp 0 = 0).
  { rewrite currentProgress_eq by done.
    replace (200 * 0 + n) with n by lia.
    rewrite Z.div_small by lia. done. }
  assert (Hrun : forall g : Generator R,
             (gen_pc g = AtStart \/ gen_pc g = AfterPartialYield) ->
             position g = 0 ->
             drain data transformFn batchSize fuel g
             = (repeat (Partial [] 0) fuel, None)).
  { induction fuel as [|k IH]; intros g Hpc Hpos; [done|].
    cbn [drain repeat].
    rewrite (next_running data transformFn batchSize g 0 Hpc Hpos).
    unfold loopFrom. fold n.
    destruct (Z.ltb_spec 0 n) as [_|?]; [|lia].
    assert (Hchunk : slice 0 (0 + batchSize) data = []).
    { unfold slice. rewrite Hb. done. }
    rewrite Hchunk. cbn [map length Z.of_nat]. rewrite Z.add_0_r, Hcp.
    rewrite IH; [done|by right|].
    unfold RunStates.position. cbn [gen_pc gen_i]. lia. }
  apply Hrun; [by left|done].
Qed.

End Generator.
Lemma generator_covers_input_witness :
  snd (drain (Inputs.upto 5) Inputs.double 2 6 createGenerator)
  = Some (Some (map Inputs.double (Inputs.upto 5))).
Proof.
  destruct (generator_covers_input (Inputs.upto 5) Inputs.double 2)
    as (H & _).
  - lia.
  - exact H.
Defined.

Lemma generator_zero_batch_never_returns_witness :
  drain [7] Inputs.double 0 3 createGenerator
  = ([Partial [] 0; Partial [] 0; Partial [] 0], None).
Proof.
  apply (generator_zero_batch_never_returns [7] Inputs.double 0 3).
  - reflexivity.
  - discriminate.
Defined.

End GeneratorFacts.

(** ** The interrupt handler *)

Module InterruptFacts.
Import JS Cache CacheAdmin Interrupt StoreStates Frames AdminFacts.

Lemma after_keeps_paused_interrupted (h : t) (c : Call) :
  (isPaused h = true -> isInterrupted h = true) ->
  isPaused (after h c) = true -> isInterrupted (after h c) = true.
Proof.
  intros Hinv.
  destruct c; unfold after, handlePause, handleCancel, handleUnmount,
    handleResume; simpl;
    destruct (isPaused h) eqn:E, (isCancelled h) eqn:E'; simpl;
    rewrite ?E; auto.
Qed.

(** Whatever a client calls on a new handler, and in whatever order, a
    paused handler is an interrupted one: [shouldPause()] and
    [shouldContinue()] are never both true.  The same does not hold for
    cancellation: after [handleCancel(); handlePause(); handleResume()]
    the handler is cancelled and [shouldContinue()] is true. *)
Theorem paused_is_interrupted (cacheManager : bool)
    (preserve : option bool) (calls : list Call) :
  let h := afterAll (constructor cacheManager preserve) calls in
  (shouldPause h && shouldContinue h = false)
  /\ (let h' := afterAll h [CallReset; CallCancel; CallPause; CallResume] in
      shouldCancel h' = true /\ shouldContinue h' = true).
Proof.
  cbn zeta. split.
  - assert (H : isPaused (afterAll (constructor cacheManager preserve) calls)
                = true ->
                isInterrupted
                  (afterAll (constructor cacheManager preserve) calls)
                = true).
    { unfold afterAll. rewrite <- fold_left_rev_right.
      induction (rev calls) as [|c cs IH]; [done|].
      simpl. by apply after_keeps_paused_interrupted. }
    unfold shouldPause, shouldContinue.
    destruct (isPaused _); [|done]. rewrite H by done.
    by rewrite andb_false_r.
  - split; reflexivity.
Qed.

Lemma afterAll_keeps_no_callbacks (calls : list Call) : forall h : t,
  Forall (fun c => forall callback type, c <> CallRegister callback type)
    calls ->
  cleanupCallbacks h = [] ->
  cleanupCallbacks (afterAll h calls) = [].
Proof.
  induction calls as [|c calls IH]; intros h Hcalls Hh; [done|].
  apply Forall_cons in Hcalls as [Hc Hcalls].
  cbn [afterAll fold_left]. apply IH; [done|].
  destruct c; unfold after, handlePause, handleCancel, handleUnmount,
    handleResume; simpl; try done.
  - by destruct (isPaused h).
  - by destruct (isCancelled h).
  - by destruct (isPaused h).
  - by destruct (Hc callback type).
  - by rewrite Hh.
Qed.

(** [handleUnmount] forgets every callback: until a callback is
    registered again, no call of [handlePause], [handleCancel] or
    [handleUnmount] calls anything, whatever was called on the handler in
    between. *)
Theorem unmount_forgets_callbacks {R} (jsonR : R -> string) (fuel : nat)
    (h : t) (calls : list Call) (w : World R) :
  Forall (fun c => forall callback type, c <> CallRegister callback type)
    calls ->
  let h' := afterAll (fst (handleUnmount h)) calls in
  snd (handlePause h') = []
  /\ snd (handleUnmount h') = []
  /\ (fst (snd (handleCancel jsonR fuel h') w) = Pending
      \/ fst (snd (handleCancel jsonR fuel h') w) = Ok []).
Proof.
  intros Hcalls h'.
  assert (Hnone : cleanupCallbacks h' = []).
  { by apply afterAll_keeps_no_callbacks. }
  clearbody h'.
  split; [|split].
  - unfold handlePause. destruct (isPaused h'); [done|]. simpl.
    by rewrite Hnone.
  - unfold handleUnmount. simpl. by rewrite Hnone.
  - unfold handleCancel. destruct (isCancelled h'); [by right|].
    cbn [snd set_flags cleanupCallbacks preservePartialResults].
    rewrite Hnone. cbn [executeCleanupCallbacks].
    destruct (preservePartialResults h'); [by right|].
    unfold cleanupPartialResults, set_flags.
    cbn [cacheManager currentCacheKey].
    destruct (cacheManager h'), (truthy (currentCacheKey h'));
      try (by right).
    unfold bind, try_catch, ret.
    destruct (clearCache jsonR fuel (Some s) w) as [[] w1]; simpl; auto.
Qed.

Lemma removeFirst_absent (callback : nat) (callbacks : list CleanupCallback) :
  Forall (fun c => cb_original c <> callback) callbacks ->
  removeFirst callback callbacks = callbacks.
Proof.
  induction 1 as [|c cs Hc _ IH]; [done|].
  cbn [removeFirst]. destruct (Nat.eqb_spec (cb_original c) callback); [done|].
  by rewrite IH.
Qed.

Lemma removeFirst_last (callback : nat) (type : CallbackType)
    (callbacks : list CleanupCallback) :
  Forall (fun c => cb_original c <> callback) callbacks ->
  removeFirst callback (callbacks ++ [mkCallback callback type])
  = callbacks.
Proof.
  induction 1 as [|c cs Hc _ IH]; cbn [removeFirst app cb_original].
  - by rewrite Nat.eqb_refl.
  - destruct (Nat.eqb_spec (cb_original c) callback); [done|].
    by rewrite IH.
Qed.

(** Registering a function that is not registered and unregistering it
    again gives the handler back; unregistering a function that is not
    registered changes nothing. *)
Theorem register_unregister (callback : nat) (type : option CallbackType)
    (h : t) :
  Forall (fun c => cb_original c <> callback) (cleanupCallbacks h) ->
  unregisterCleanupCallback callback
    (registerCleanupCallback callback type h) = h
  /\ unregisterCleanupCallback callback h = h.
Proof.
  intros Hnew.
  unfold unregisterCleanupCallback, registerCleanupCallback,
    set_cleanupCallbacks. cbn [cleanupCallbacks isInterrupted isPaused
    isCancelled cacheManager currentCacheKey preservePartialResults].
  rewrite removeFirst_last, removeFirst_absent by done.
  by destruct h.
Qed.

Section Cancel.
Context {R : Type} (jsonR : R -> string).

(** [handleCancel] on a handler that is not cancelled, over a store that
    works: the handler is cancelled and interrupted, the callbacks for
    "cancel" and "all" are called, and the promise resolves.  When
    partial results are not preserved and a manager and a non-empty key
    are set, the entry and the queue of the key go; in every other case
    the cache is left as it is.  Over any store, the call never
    rejects. *)
Theorem handleCancel_cleans_cache (fuel : nat) (h : t) (w : World R) :
  isCancelled h = false ->
  isInitialized w = true ->
  quiet w ->
  sane (errorRecovery w) ->
  let h' := fst (handleCancel jsonR fuel h) in
  let run := snd (handleCancel jsonR fuel h) in
  isCancelled h' = true
  /\ isInterrupted h' = true
  /\ isPaused h' = isPaused h
  /\ fst (run w)
     = Ok (executeCleanupCallbacks OnCancel (cleanupCallbacks h))
  /\ match preservePartialResults h, cacheManager h,
           truthy (currentCacheKey h) with
     | false, true, Some key =>
         store (snd (run w)) = delete key (store w)
         /\ batchQueue (snd (run w)) = delete key (batchQueue w)
     | _, _, _ => snd (run w) = w
     end
  /\ (forall w0 e, fst (run w0) = Throw e -> False).
Proof.
  intros Hc Hi Hq Hs. cbn zeta. unfold handleCancel. rewrite Hc.
  cbn [fst snd set_flags isCancelled isInterrupted isPaused
       cleanupCallbacks preservePartialResults].
  split; [done|]. split; [done|]. split; [done|].
  unfold cleanupPartialResults, set_flags.
  cbn [cacheManager currentCacheKey].
  destruct (preservePartialResults h); [by repeat split|].
  destruct (cacheManager h); [|by repeat split].
  destruct (truthy (currentCacheKey h)) as [key|] eqn:Hkey;
    [|by repeat split].
  assert (Hne : key <> "").
  { unfold truthy in Hkey. destruct (currentCacheKey h) as [k|]; [|done].
    destruct k; [done|]. simpl in Hkey. by injection Hkey as <-. }
  destruct (clearCache_one_key_run jsonR fuel key w Hi Hq Hs Hne)
    as (w1 & E & H1 & H2).
  assert (Erun : (try_catch (clearCache jsonR fuel (Some key))
                    (fun _ => ret tt) ;;
                  ret (executeCleanupCallbacks OnCancel (cleanupCallbacks h)))
                   w
                 = (Ok (executeCleanupCallbacks OnCancel (cleanupCallbacks h)),
                    w1)).
  { unfold bind, try_catch. by rewrite E. }
  rewrite Erun. cbn [fst snd].
  split; [done|]. split; [done|].
  intros w0 e. unfold bind, try_catch, ret.
  by destruct (clearCache jsonR fuel (Some key) w0) as [[| |] ?].
Qed.

End Cancel.

Lemma unmount_forgets_callbacks_witness :
  snd (handlePause
         (afterAll
            (fst (handleUnmount
                    (registerCleanupCallback 1 None
                       (constructor true None))))
            [CallPause; CallResume]))
  = [].
Proof.
  destruct (unmount_forgets_callbacks Inputs.jsonZ 1
              (registerCleanupCallback 1 None (constructor true None))
              [CallPause; CallResume] Inputs.freshManager) as (H & _).
  - repeat constructor; discriminate.
  - exact H.
Defined.

Lemma register_unregister_witness :
  unregisterCleanupCallback 1
    (registerCleanupCallback 1 (Some (Only OnPause))
       (registerCleanupCallback 2 None (constructor true None)))
  = registerCleanupCallback 2 None (constructor true None).
Proof.
  destruct (register_unregister 1 (Some (Only OnPause))
              (registerCleanupCallback 2 None (constructor true None)))
    as (H & _).
  - repeat constructor. simpl. lia.
  - exact H.
Defined.

Lemma handleCancel_cleans_cache_witness :
  store
    (snd (snd (handleCancel Inputs.jsonZ 1
                 (setCacheKey "entry3" (constructor true (Some false))))
            Inputs.fifteenEntries))
  = delete "entry3" (store Inputs.fifteenEntries).
Proof.
  destruct (handleCancel_cleans_cache Inputs.jsonZ 1
              (setCacheKey "entry3" (constructor true (Some false)))
              Inputs.fifteenEntries eq_refl eq_refl
              (conj eq_refl (conj eq_refl (conj eq_refl eq_refl)))
              AdminFacts.sane_init) as (_ & _ & _ & _ & H & _).
  exact (proj1 H).
Defined.

End InterruptFacts.
